(** * InfectiousDiseaseModelling: the epoch engine, serial and OpenMP

    A shallow embedding of [InfectiousDiseaseModeling.cpp] and [Settings.h].
    The two simulation drivers [simulate_serial] and [simulate_parallel] and
    the population set-up [reset_input] are translated from the C++ source.
    The headers [Individual.h] and [GraphHandler.h] are not part of the
    sources at hand: the [Individual] class, the neighbourhood look-up map and
    the random population are modelled from the specification and marked so.

    Conventions.
    - [int] values are [Z]; [hit_count] and [infected_count] are bounded by
      the number of loop iterations, itself an [int], so they never wrap.
      The [std::uint8_t] epoch counter of [simulate_parallel] wraps modulo
      256 and the wrap is written out.
    - [vector<Individual>] is a [list Individual] read with [!!] and written
      with [<[i:=x]>]; an access past the end is [Undefined].
    - An OpenMP [parallel for] is run as a sequentially consistent
      interleaving of whole iterations: the order of the iterations is an
      explicit argument, and [static_schedule] says which orders the clause
      [schedule(static, chunk)] admits for a given number of threads.  The
      clause needs a positive chunk size; a loop whose [chunk] is not
      positive is [Undefined].
    - The random generator is shared mutable state; it is a tape of draws
      consumed in execution order. *)

From Stdlib Require Import ZArith Lia.
From stdpp Require Import base option list sorting gmap.

(** ** Settings.h *)

Definition SAVE_CSV : bool := false.
Definition SAVE_GRAPHVIZ : bool := false.
Definition SHOW_EPIDEMIC_RESULTS : bool := false.
Definition DEFAULT_NUMBER_OF_THREADS : Z := 4.
Definition DEFAULT_TOTAL_EPOCHS : Z := 60.
Definition DEFAULT_INDIVIDUAL_COUNT : Z := 400.
Definition DEFAULT_REPEAT_COUNT : Z := 10.
Definition CHUNK_SIZE_DIVIDER : Z := 10.

Definition INT_MAX : Z := 2147483647.
Definition UINT8_MODULUS : Z := 256.

(** Constants that the sources use but [Settings.h] does not define; they
    come from the missing headers and are taken as parameters. *)
Class DiseaseSettings := {
  (** the disease-duration threshold of [advance_epoch] *)
  disease_duration : Z;
  (** which raw random draws make an infection attempt succeed; this is the
      configured infection probability seen from the generator's side *)
  infection_succeeds : Z → bool;
  (** the number of seed cases infected by [reset_input] *)
  INITIAL_INFECTED_COUNT : Z
}.

(** Infection probability 1.0: every attempt on a susceptible succeeds. *)
Definition deterministic_spread `{DiseaseSettings} : Prop :=
  ∀ d : Z, infection_succeeds d = true.

(** ** Outcomes of a call *)

Inductive failure := InvalidGraph | InvalidConfiguration.

Inductive outcome (A : Type) : Type :=
| Returned (a : A)      (* the call returns normally *)
| Raised (e : failure)  (* the call fails with an error *)
| Undefined             (* undefined behaviour: access past the end, empty draw *)
| OutOfFuel.            (* the loop is still running when the fuel is spent *)
Arguments Returned {A} a.
Arguments Raised {A} e.
Arguments Undefined {A}.
Arguments OutOfFuel {A}.

#[global] Instance outcome_ret : MRet outcome := λ A a, Returned a.
#[global] Instance outcome_bind : MBind outcome := λ A B f m,
  match m with
  | Returned a => f a
  | Raised e => Raised e
  | Undefined => Undefined
  | OutOfFuel => OutOfFuel
  end.

(** [v[i]] on a [std::vector]: undefined past the end. *)
Definition at_index {A} (v : list A) (i : nat) : outcome A :=
  match v !! i with
  | Some x => Returned x
  | None => Undefined
  end.

(** ** The shared random generator *)

Definition Generator := list Z.

Definition next_draw (g : Generator) : Z * Generator :=
  match g with
  | [] => (0%Z, [])
  | d :: g' => (d, g')
  end.

(** ** Individual.h *)

Inductive InfectionState := Susceptible | Infected | Recovered.

#[global] Instance InfectionState_eq_dec : EqDecision InfectionState.
Proof. solve_decision. Defined.

Record Individual := {
  location : Z;
  infection_state : InfectionState;
  infected_duration : Z;
  ever_hit : bool
}.

#[global] Instance Individual_eq_dec : EqDecision Individual.
Proof. solve_decision. Defined.

Definition get_location (i : Individual) : Z := location i.

Definition is_infected (i : Individual) : bool :=
  bool_decide (infection_state i = Infected).

Definition is_hit (i : Individual) : bool := ever_hit i.

(** Modelled from the spec: the [Individual] class of the missing header
    [Individual.h].  A force-infected seed case is Infected with a fresh
    duration counter and counts as hit. *)
Definition infect (i : Individual) : Individual :=
  {| location := location i; infection_state := Infected;
     infected_duration := 0; ever_hit := true |}.

(** Modelled from the spec: [Individual::try_infect] of the missing header
    [Individual.h].  A no-op unless the individual is Susceptible; otherwise
    one draw decides whether the individual becomes Infected. *)
Definition try_infect `{DiseaseSettings} (i : Individual) (g : Generator)
  : Individual * Generator :=
  match infection_state i with
  | Susceptible =>
      let '(d, g') := next_draw g in
      (if infection_succeeds d then infect i else i, g')
  | _ => (i, g)
  end.

(** Modelled from the spec: [Individual::advance_epoch] of the missing header
    [Individual.h].  A no-op unless Infected; the duration counter grows by
    one and the individual recovers once it exceeds the threshold. *)
Definition advance_epoch `{DiseaseSettings} (i : Individual) : Individual :=
  match infection_state i with
  | Infected =>
      let d := (infected_duration i + 1)%Z in
      {| location := location i;
         infection_state := if (disease_duration <? d)%Z then Recovered else Infected;
         infected_duration := d;
         ever_hit := ever_hit i |}
  | _ => i
  end.

(** Modelled from the spec: [Individual::move] of the missing header
    [Individual.h].  The new location is one element of the candidate vector,
    picked by one draw; there is nothing to pick from an empty vector. *)
Definition move (i : Individual) (neighborhood : list Z) (g : Generator)
  : outcome (Individual * Generator) :=
  let '(d, g') := next_draw g in
  match neighborhood !! Z.to_nat (d `mod` Z.of_nat (length neighborhood)) with
  | Some l =>
      Returned ({| location := l; infection_state := infection_state i;
                   infected_duration := infected_duration i;
                   ever_hit := ever_hit i |}, g')
  | None => Undefined
  end.

(** The class invariant: whoever is infected has been hit. *)
Definition hit_consistent (i : Individual) : Prop :=
  infection_state i = Infected → ever_hit i = true.

(** ** GraphHandler.h *)

(** [boost::adjacency_list<vecS, vecS, undirectedS>]: the vertices are
    [0 .. num_vertices - 1], the edges are pairs of vertices. *)
Record LocationUndirectedGraph := {
  num_vertices : nat;
  m_edges : list (Z * Z)
}.

Definition vertices (graph : LocationUndirectedGraph) : list Z :=
  Z.of_nat <$> seq 0 (num_vertices graph).

Definition adjacent_locations (graph : LocationUndirectedGraph) (v : Z) : list Z :=
  flat_map (λ e : Z * Z,
              if decide (e.1 = v) then [e.2]
              else if decide (e.2 = v) then [e.1] else [])
           (m_edges graph).

(** Every edge joins two vertices of the graph. *)
Definition graph_closed (graph : LocationUndirectedGraph) : Prop :=
  ∀ e, e ∈ m_edges graph → e.1 ∈ vertices graph ∧ e.2 ∈ vertices graph.

(** Modelled from the spec: [GraphHandler::get_node_neighborhood_lookup_map]
    of the missing header [GraphHandler.h].  Every location is mapped to
    itself followed by its adjacent locations; a graph without vertices is
    refused with [InvalidGraph]. *)
Definition get_node_neighborhood_lookup_map (graph : LocationUndirectedGraph)
  : outcome (gmap Z (list Z)) :=
  if decide (num_vertices graph = 0) then Raised InvalidGraph
  else Returned (list_to_map
                   ((λ v, (v, v :: adjacent_locations graph v)) <$> vertices graph)).

(** [neighborhood_lookup_map[location]]: [std::map::operator[]] yields an
    empty vector for a key that is not in the map. *)
Definition neighborhood_of (lookup_map : gmap Z (list Z)) (l : Z) : list Z :=
  default [] (lookup_map !! l).

(** ** The state the phases work on *)

Record World := {
  individuals : list Individual;
  generator : Generator
}.

(** One invocation of [try_infect], recorded for the claims on the scan:
    the slot it is invoked for, the slot of the infected individual met,
    and the invoked individual as it was just before the call. *)
Record TryInfectCall := {
  call_target : nat;
  call_source : nat;
  call_before : Individual
}.

(** ** OpenMP work sharing *)

(** A counted loop whose iterations run, one after the other, in [order]:
    [seq 0 n] for a sequential [for], the interleaving of the threads for a
    [parallel for]. *)
Fixpoint for_indices {St : Type} (body : nat → St → outcome St)
    (order : list nat) (s : St) : outcome St :=
  match order with
  | [] => Returned s
  | index :: rest => s' ← body index s; for_indices body rest s'
  end.

(** The iterations [0 .. max_index - 1] of [for (index = 0; index <
    max_index; ++index)], in the order in which the threads happen to run
    them: iterations are sorted by the rank the interleaving gives them. *)
Definition earlier (rank : nat → nat) : relation nat :=
  λ i j, rank i ≤ rank j.

#[global] Instance earlier_dec (rank : nat → nat) : RelDecision (earlier rank).
Proof. intros i j. unfold earlier. apply _. Defined.

Definition iteration_order (rank : nat → nat) (max_index : Z) : list nat :=
  merge_sort (earlier rank) (seq 0 (Z.to_nat max_index)).

(** The thread that owns an iteration under [schedule(static, chunk)]. *)
Definition owner (threads chunk : Z) (index : nat) : Z :=
  ((Z.of_nat index / chunk) `mod` threads)%Z.

(** [order] is an interleaving allowed by [schedule(static, chunk)] with
    [threads] threads: every iteration below [max_index] runs once, and each
    thread runs its own iterations in increasing order. *)
Definition static_schedule (threads chunk max_index : Z) (order : list nat) : bool :=
  bool_decide (0 < threads)%Z && bool_decide (0 < chunk)%Z &&
  bool_decide (order ≡ₚ seq 0 (Z.to_nat max_index)) &&
  forallb (λ t : nat,
             bool_decide (filter (λ i, owner threads chunk i = Z.of_nat t) order
                          = filter (λ i, owner threads chunk i = Z.of_nat t)
                                   (seq 0 (Z.to_nat max_index))))
          (seq 0 (Z.to_nat threads)).

(** The interleavings of the three work-sharing loops of one epoch. *)
Record EpochSchedule := {
  move_rank : nat → nat;
  infect_rank : nat → nat;
  advance_rank : nat → nat
}.

(** Every loop runs its iterations in index order, as one thread does. *)
Definition in_order : EpochSchedule :=
  {| move_rank := id; infect_rank := id; advance_rank := id |}.

Definition conforming (threads chunk max_index : Z) (s : EpochSchedule) : bool :=
  static_schedule threads chunk max_index (iteration_order (move_rank s) max_index) &&
  static_schedule threads chunk max_index (iteration_order (infect_rank s) max_index) &&
  static_schedule threads chunk max_index (iteration_order (advance_rank s) max_index).

(** ** The epoch loop *)

(** [for (current_epoch = 0; current_epoch < bound; ++current_epoch) body],
    with [next] the increment of the counter's type. *)
Fixpoint epoch_loop {St : Type} (fuel : nat) (next : Z → Z) (bound : Z)
    (body : Z → St → outcome St) (current_epoch : Z) (s : St) : outcome St :=
  match fuel with
  | O => OutOfFuel
  | S fuel' =>
      if (current_epoch <? bound)%Z
      then s' ← body current_epoch s;
           epoch_loop fuel' next bound body (next current_epoch) s'
      else Returned s
  end.

(** [++current_epoch] on a [std::uint8_t]. *)
Definition uint8_succ (e : Z) : Z := ((e + 1) `mod` UINT8_MODULUS)%Z.

(** ** simulate_parallel *)

(** The function-local [static] variables, initialised by the first call. *)
Record Statics := {
  max_index : Z;
  chunk : Z
}.

Definition enter_statics (statics : option Statics) (population : list Individual)
  : Statics :=
  match statics with
  | Some s => s
  | None =>
      let m := Z.of_nat (length population) in
      {| max_index := m; chunk := Z.quot m DEFAULT_NUMBER_OF_THREADS |}
  end.

(** Lines 26-34: one iteration of the movement loop. *)
Definition move_iteration (lookup_map : gmap Z (list Z)) (index : nat) (w : World)
  : outcome World :=
  current_individual ← at_index (individuals w) index;
  let current_location := get_location current_individual in
  let neighborhood := neighborhood_of lookup_map current_location in
  '(moved, g) ← move current_individual neighborhood (generator w);
  Returned {| individuals := <[index := moved]> (individuals w); generator := g |}.

(** Lines 46-58: the scan of one individual over the population.  The
    result is the individual to save back, if it got infected, with the
    generator and the invocations of [try_infect] made on the way. *)
Fixpoint scan_affecting `{DiseaseSettings} (population : list Individual)
    (index : nat) (affecting : list nat) (current_individual : Individual)
    (g : Generator) : outcome (option Individual * Generator * list TryInfectCall) :=
  match affecting with
  | [] => Returned (None, g, [])
  | affecting_index :: rest =>
      affecting_individual ← at_index population affecting_index;
      if is_infected affecting_individual
         && bool_decide (get_location current_individual
                         = get_location affecting_individual)
      then
        let call := {| call_target := index; call_source := affecting_index;
                       call_before := current_individual |} in
        let '(tried, g') := try_infect current_individual g in
        if is_infected tried
        then Returned (Some tried, g', [call])
        else '(saved, g'', calls) ← scan_affecting population index rest tried g';
             Returned (saved, g'', call :: calls)
      else scan_affecting population index rest current_individual g
  end.

(** Lines 42-60: one iteration of the infection loop. *)
Definition infect_iteration `{DiseaseSettings} (individual_count : Z) (index : nat)
    (s : World * list TryInfectCall) : outcome (World * list TryInfectCall) :=
  let '(w, log) := s in
  slot ← at_index (individuals w) index;
  if is_infected slot then Returned (w, log)
  else
    '(saved, g, calls) ←
      scan_affecting (individuals w) index (seq 0 (Z.to_nat individual_count))
                     slot (generator w);
    Returned ({| individuals := match saved with
                                | Some infected => <[index := infected]> (individuals w)
                                | None => individuals w
                                end;
                 generator := g |}, log ++ calls).

(** Lines 71-81: one iteration of the advance loop with its two reduction
    variables [hit_count] and [infected_count]. *)
Definition advance_iteration `{DiseaseSettings} (index : nat) (s : World * (Z * Z))
  : outcome (World * (Z * Z)) :=
  let '(w, (hit_count, infected_count)) := s in
  slot ← at_index (individuals w) index;
  let current_individual := advance_epoch slot in
  let w' := {| individuals := <[index := current_individual]> (individuals w);
               generator := generator w |} in
  if is_infected current_individual
  then Returned (w', (hit_count + 1, infected_count + 1)%Z)
  else if is_hit current_individual
       then Returned (w', (hit_count + 1, infected_count)%Z)
       else Returned (w', (hit_count, infected_count)).

Definition movement_phase_parallel (lookup_map : gmap Z (list Z))
    (order : list nat) (w : World) : outcome World :=
  for_indices (move_iteration lookup_map) order w.

Definition infection_phase_parallel `{DiseaseSettings} (individual_count : Z)
    (order : list nat) (w : World) : outcome (World * list TryInfectCall) :=
  for_indices (infect_iteration individual_count) order (w, []).

Definition advance_phase_parallel `{DiseaseSettings} (order : list nat) (w : World)
  : outcome (World * (Z * Z)) :=
  for_indices advance_iteration order (w, (0, 0)%Z).

(** [#pragma omp for schedule(static, chunk)] around a loop.  OpenMP
    requires the chunk size of the clause to be positive.  Line 14 computes
    [chunk = max_index / DEFAULT_NUMBER_OF_THREADS], which is 0 when the
    first call has fewer individuals than threads: the loop is then
    non-conforming and nothing is known of it, not even that it ends. *)
Definition omp_for_static {St : Type} (chunk : Z) (loop : outcome St) : outcome St :=
  if decide (0 < chunk)%Z then loop else Undefined.

(** Lines 22-84: the body of the epoch loop. *)
Definition parallel_epoch `{DiseaseSettings} (schedule : Z → EpochSchedule)
    (statics : Statics) (individual_count : Z) (lookup_map : gmap Z (list Z))
    (current_epoch : Z) (s : World * list (Z * Z)) : outcome (World * list (Z * Z)) :=
  let '(w, epoch_statistics) := s in
  let sched := schedule current_epoch in
  let m := max_index statics in
  w1 ← omp_for_static (chunk statics)
         (movement_phase_parallel lookup_map (iteration_order (move_rank sched) m) w);
  '(w2, _) ← omp_for_static (chunk statics)
               (infection_phase_parallel individual_count
                  (iteration_order (infect_rank sched) m) w1);
  '(w3, (hit_count, infected_count)) ←
     omp_for_static (chunk statics)
       (advance_phase_parallel (iteration_order (advance_rank sched) m) w2);
  Returned (w3, epoch_statistics ++ [(hit_count, infected_count)]).

(** Lines 10-93.  [total_epochs] is a [std::uint8_t], a value in
    [0 .. 255]; the three reporting calls at the end are switched off in
    [Settings.h]. *)
Definition simulate_parallel `{DiseaseSettings} (fuel : nat)
    (schedule : Z → EpochSchedule) (statics : option Statics)
    (individual_count total_epochs : Z) (individual_graph : LocationUndirectedGraph)
    (w : World) (epoch_statistics : list (Z * Z))
  : outcome (Statics * World * list (Z * Z)) :=
  let st := enter_statics statics (individuals w) in
  lookup_map ← get_node_neighborhood_lookup_map individual_graph;
  '(w', epoch_statistics') ←
     epoch_loop fuel uint8_succ (total_epochs + 1)%Z
       (parallel_epoch schedule st individual_count lookup_map)
       0%Z (w, epoch_statistics);
  Returned (st, w', epoch_statistics').

(** ** simulate_serial *)

(** Lines 107-108: the range-based loop that moves every individual. *)
Fixpoint move_all (lookup_map : gmap Z (list Z)) (population : list Individual)
    (g : Generator) : outcome (list Individual * Generator) :=
  match population with
  | [] => Returned ([], g)
  | current_individual :: rest =>
      '(moved, g') ← move current_individual
                       (neighborhood_of lookup_map (get_location current_individual)) g;
      '(rest', g'') ← move_all lookup_map rest g';
      Returned (moved :: rest', g'')
  end.

(** Lines 117-122: the infected individual [individual_index] meets the
    individual [affecting_individual]. *)
Definition meet `{DiseaseSettings} (individual_index affecting_individual : nat)
    (s : World * list TryInfectCall) : outcome (World * list TryInfectCall) :=
  let '(w, log) := s in
  if decide (individual_index ≠ affecting_individual)
  then
    source ← at_index (individuals w) individual_index;
    target ← at_index (individuals w) affecting_individual;
    if bool_decide (get_location source = get_location target)
    then
      let call := {| call_target := affecting_individual;
                     call_source := individual_index;
                     call_before := target |} in
      let '(tried, g) := try_infect target (generator w) in
      Returned ({| individuals := <[affecting_individual := tried]> (individuals w);
                   generator := g |}, log ++ [call])
    else Returned s
  else Returned s.

(** Lines 113-124: one iteration of the outer loop of the infection phase. *)
Definition spread_iteration `{DiseaseSettings} (individual_index : nat)
    (s : World * list TryInfectCall) : outcome (World * list TryInfectCall) :=
  slot ← at_index (individuals s.1) individual_index;
  if is_infected slot
  then for_indices (meet individual_index) (seq 0 (length (individuals s.1))) s
  else Returned s.

(** Lines 111-125. *)
Definition infection_phase_serial `{DiseaseSettings} (w : World)
  : outcome (World * list TryInfectCall) :=
  for_indices spread_iteration (seq 0 (length (individuals w))) (w, []).

(** Lines 127-138: advance every individual and count. *)
Fixpoint advance_all `{DiseaseSettings} (population : list Individual)
    (hit_count infected_count : Z) : list Individual * (Z * Z) :=
  match population with
  | [] => ([], (hit_count, infected_count))
  | current_individual :: rest =>
      let advanced := advance_epoch current_individual in
      let infected_count' :=
        if is_infected advanced then (infected_count + 1)%Z else infected_count in
      let hit_count' :=
        if is_hit advanced then (hit_count + 1)%Z else hit_count in
      let '(rest', counts) := advance_all rest hit_count' infected_count' in
      (advanced :: rest', counts)
  end.

(** Lines 105-139: the body of the epoch loop. *)
Definition serial_epoch `{DiseaseSettings} (lookup_map : gmap Z (list Z))
    (current_epoch : Z) (s : World * list (Z * Z)) : outcome (World * list (Z * Z)) :=
  let '(w, epoch_statistics) := s in
  '(moved, g) ← move_all lookup_map (individuals w) (generator w);
  '(w2, _) ← infection_phase_serial {| individuals := moved; generator := g |};
  let '(advanced, counts) := advance_all (individuals w2) 0 0 in
  Returned ({| individuals := advanced; generator := generator w2 |},
            epoch_statistics ++ [counts]).

(** Lines 95-148.  [total_epochs] is an [int] and [total_epochs + 1]
    overflows at [INT_MAX]; the statistics vector is local to the function
    and is returned here to be observed. *)
Definition simulate_serial `{DiseaseSettings} (fuel : nat)
    (individual_count total_epochs : Z) (individual_graph : LocationUndirectedGraph)
    (w : World) : outcome (World * list (Z * Z)) :=
  lookup_map ← get_node_neighborhood_lookup_map individual_graph;
  if decide (total_epochs = INT_MAX) then Undefined
  else epoch_loop fuel Z.succ (total_epochs + 1)%Z (serial_epoch lookup_map)
                  0%Z (w, []).

(** ** reset_input *)

Fixpoint random_population (n : nat) (location_count : Z) (g : Generator)
  : list Individual * Generator :=
  match n with
  | O => ([], g)
  | S n' =>
      let '(d, g') := next_draw g in
      let '(rest, g'') := random_population n' location_count g' in
      ({| location := (d `mod` location_count)%Z; infection_state := Susceptible;
          infected_duration := 0; ever_hit := false |} :: rest, g'')
  end.

(** Modelled from the spec: [GraphHandler::get_random_individuals] of the
    missing header [GraphHandler.h], the construction of the population.
    The configuration is validated here: a population that is not positive
    or smaller than the number of seed cases is refused with
    [InvalidConfiguration]; otherwise [individual_count] susceptible
    individuals are placed on random locations. *)
Definition get_random_individuals `{DiseaseSettings}
    (individual_count location_count : Z) (g : Generator)
  : outcome (list Individual * Generator) :=
  if decide (individual_count ≤ 0 ∨ individual_count < INITIAL_INFECTED_COUNT)%Z
  then Raised InvalidConfiguration
  else Returned (random_population (Z.to_nat individual_count) location_count g).

(** Lines 160-162: [individuals[i].infect()] for the first seed cases. *)
Definition infect_slot (i : nat) (population : list Individual)
  : outcome (list Individual) :=
  slot ← at_index population i;
  Returned (<[i := infect slot]> population).

(** Lines 150-163.  [loaded_graph] is the graph read from the file. *)
Definition reset_input `{DiseaseSettings} (loaded_graph : LocationUndirectedGraph)
    (individual_count : Z) (g : Generator)
  : outcome (Z * Z * LocationUndirectedGraph * World) :=
  let individual_graph := loaded_graph in
  let location_count := Z.of_nat (num_vertices individual_graph) in
  let edge_count := Z.of_nat (length (m_edges individual_graph)) in
  '(population, g') ← get_random_individuals individual_count location_count g;
  population' ← for_indices infect_slot
                  (seq 0 (Z.to_nat INITIAL_INFECTED_COUNT)) population;
  Returned (location_count, edge_count, individual_graph,
            {| individuals := population'; generator := g' |}).

(** ** Counting *)

(** The number of individuals of a list that satisfy [f]. *)
Definition count (f : Individual → bool) (population : list Individual) : Z :=
  Z.of_nat (length (filter (λ x, f x = true) population)).

(** Whether the individual in slot [k] satisfies [f]. *)
Definition flag_at (f : Individual → bool) (population : list Individual) (k : nat)
  : bool :=
  match population !! k with
  | Some x => f x
  | None => false
  end.

(** The number of slots listed in [order] whose individual satisfies [f]. *)
Definition tally (f : Individual → bool) (population : list Individual)
    (order : list nat) : Z :=
  Z.of_nat (length (filter (λ k, flag_at f population k = true) order)).

(** What the advance loop of [simulate_parallel] counts as hit. *)
Definition counted_hit (i : Individual) : bool := is_infected i || is_hit i.

(** ** The scan of the infection phase *)

(** Whether [other] is an infected individual at the location of [current]:
    the condition under which the scan invokes [try_infect]. *)
Definition meets (current other : Individual) : bool :=
  is_infected other && bool_decide (get_location current = get_location other).

(** The slots among [affecting] that hold an infected individual at the
    location of [current]. *)
Definition matches (population : list Individual) (current : Individual)
    (affecting : list nat) : list nat :=
  filter (λ a, flag_at (meets current) population a = true) affecting.

(** Whether [other] stands at the location of [source]: the condition under
    which [simulate_serial] invokes [try_infect] on it. *)
Definition shares_location (source other : Individual) : bool :=
  bool_decide (get_location source = get_location other).

(** The slots other than [individual_index] whose individual stands at the
    location of [source]. *)
Definition contacts (population : list Individual) (individual_index : nat)
    (source : Individual) (others : list nat) : list nat :=
  filter (λ a, a ≠ individual_index
               ∧ flag_at (shares_location source) population a = true) others.

(** ** The snapshot rule of the specification *)

(** Whether a susceptible individual shares its location with an individual
    that is infected in the snapshot. *)
Definition exposed (snapshot : list Individual) (i : Individual) : bool :=
  bool_decide (infection_state i = Susceptible)
  && bool_decide (Exists (λ j, meets i j = true) snapshot).

(** Modelled from the spec: the infection phase under the snapshot rule of
    its section 4.3, to be compared with the two loops translated from the
    source.  Every read observes the population as it was when the phase
    began: an individual that is susceptible and shares its location with an
    individual infected in the snapshot has [try_infect] invoked once. *)
Fixpoint snapshot_scan `{DiseaseSettings} (snapshot todo : list Individual)
    (g : Generator) : list Individual * Generator :=
  match todo with
  | [] => ([], g)
  | current :: rest =>
      let '(current', g') :=
        if exposed snapshot current then try_infect current g else (current, g) in
      let '(rest', g'') := snapshot_scan snapshot rest g' in
      (current' :: rest', g'')
  end.

Definition infection_phase_snapshot `{DiseaseSettings} (w : World) : World :=
  let '(population, g) :=
    snapshot_scan (individuals w) (individuals w) (generator w) in
  {| individuals := population; generator := g |}.

(** What the snapshot rule makes of an individual when every attempt on a
    susceptible succeeds. *)
Definition settle (snapshot : list Individual) (i : Individual) : Individual :=
  if exposed snapshot i then infect i else i.

(** The state of an infection phase in which the slots listed in [D] have
    been settled and [g] was the generator at the start. *)
Definition settled_on (snapshot : list Individual) (D : list nat) (g : Generator)
    (cur : World) : Prop :=
  length (individuals cur) = length snapshot
  ∧ (∀ k x, snapshot !! k = Some x →
            individuals cur !! k
            = Some (if bool_decide (k ∈ D) then settle snapshot x else x))
  ∧ generator cur = drop (Z.to_nat (tally (exposed snapshot) snapshot D)) g.

(** The state of the infection loop of [simulate_serial] while the infected
    individual in slot [i], standing where [slot] stands, meets the others:
    [D] lists the slots infected so far in the phase, [D0] those infected
    before this individual began, and every susceptible met so far at the
    location is among them. *)
Definition spreading (snapshot : list Individual) (g : Generator) (i : nat)
    (slot : Individual) (D0 : list nat) (processed : list nat)
    (s : World * list TryInfectCall) : Prop :=
  ∃ D,
    NoDup D
    ∧ (∀ d, d ∈ D → flag_at (exposed snapshot) snapshot d = true)
    ∧ settled_on snapshot D g s.1
    ∧ individuals s.1 !! i = Some slot
    ∧ (∀ d, d ∈ D0 → d ∈ D)
    ∧ (∀ a xa, a ∈ processed → a ≠ i → snapshot !! a = Some xa →
               infection_state xa = Susceptible → location xa = location slot →
               a ∈ D).

(** The state of the outer infection loop of [simulate_serial]: every
    susceptible at the location of an individual that was infected in the
    snapshot and has had its turn is among the slots [D] infected so far. *)
Definition spread_so_far (snapshot : list Individual) (g : Generator)
    (processed : list nat) (s : World * list TryInfectCall) : Prop :=
  ∃ D,
    NoDup D
    ∧ (∀ d, d ∈ D → flag_at (exposed snapshot) snapshot d = true)
    ∧ settled_on snapshot D g s.1
    ∧ (∀ b xb k xk, b ∈ processed → snapshot !! b = Some xb →
                    is_infected xb = true → snapshot !! k = Some xk →
                    infection_state xk = Susceptible →
                    location xk = location xb → k ∈ D).

(** ** Predicates of the statements *)

(** What the infection phase may do to a slot. *)
Definition kept_or_infected (before after : Individual) : Prop :=
  after = before ∨ infection_state before = Susceptible ∧ after = infect before.

(** Every entry of the map contains its own key, and leads only to keys of
    the map. *)
Definition map_closed (lookup_map : gmap Z (list Z)) : Prop :=
  ∀ l nb, lookup_map !! l = Some nb →
          l ∈ nb ∧ ∀ l', l' ∈ nb → is_Some (lookup_map !! l').

(** Every individual stands on a key of the map. *)
Definition on_map (lookup_map : gmap Z (list Z)) (population : list Individual) : Prop :=
  Forall (λ i, is_Some (lookup_map !! location i)) population.

(** Every individual stands on a vertex of the graph. *)
Definition on_graph (graph : LocationUndirectedGraph) (population : list Individual)
  : Prop :=
  Forall (λ i, location i ∈ vertices graph) population.

(** What [move] does to an individual: a new location out of the
    neighbourhood of the old one, everything else as before. *)
Definition moved_within (lookup_map : gmap Z (list Z)) (before after : Individual)
  : Prop :=
  location after ∈ neighborhood_of lookup_map (location before)
  ∧ infection_state after = infection_state before
  ∧ infected_duration after = infected_duration before
  ∧ ever_hit after = ever_hit before.

(** Between two points of a run: a raised hit flag stays raised, and a
    consistent individual stays consistent. *)
Definition progresses (before after : Individual) : Prop :=
  (ever_hit before = true → ever_hit after = true)
  ∧ (hit_consistent before → hit_consistent after).

(** Every element is at most the next one. *)
Definition nondecreasing (l : list Z) : Prop :=
  ∀ k a b, l !! k = Some a → l !! S k = Some b → (a ≤ b)%Z.

(** The entries a run has appended after [e] epochs. *)
Definition run_entries (prior : list (Z * Z)) (e : Z) (stats new : list (Z * Z))
  : Prop :=
  stats = prior ++ new ∧ Z.of_nat (length new) = e
  ∧ Forall (λ en : Z * Z, 0 ≤ en.2)%Z new.

(** The invariant of the epoch loop of [simulate_parallel]. *)
Definition parallel_run_inv (prior : list (Z * Z)) (start : list Individual)
    (M : Z) (e : Z) (s : World * list (Z * Z)) : Prop :=
  ∃ new,
    run_entries prior e s.2 new
    ∧ Forall2 progresses start (individuals s.1)
    ∧ Forall (λ en : Z * Z, en.2 ≤ en.1)%Z new
    ∧ (Forall hit_consistent start →
       nondecreasing new.*1
       ∧ ∀ en, last new = Some en →
               en.1 = tally counted_hit (individuals s.1) (seq 0 (Z.to_nat M))).

(** The invariant of the epoch loop of [simulate_serial]. *)
Definition serial_run_inv (start : list Individual) (e : Z)
    (s : World * list (Z * Z)) : Prop :=
  ∃ new,
    run_entries [] e s.2 new
    ∧ Forall2 progresses start (individuals s.1)
    ∧ (Forall hit_consistent start → Forall (λ en : Z * Z, en.2 ≤ en.1)%Z new)
    ∧ nondecreasing new.*1
    ∧ ∀ en, last new = Some en → en.1 = count is_hit (individuals s.1).

Definition never_raises {A} (m : outcome A) : Prop := ∀ e, m ≠ Raised e.

Definition fresh (location_count : Z) (i : Individual) : Prop :=
  infection_state i = Susceptible ∧ ever_hit i = false
  ∧ ((0 < location_count)%Z → (0 ≤ location i < location_count)%Z).

(** The individual [after] stands in the neighbourhood of the location of
    [before], which is that location followed by its adjacent locations and
    so contains the location itself. *)
Definition stays (graph : LocationUndirectedGraph) (lookup_map : gmap Z (list Z))
    (before after : Individual) : Prop :=
  neighborhood_of lookup_map (location before)
    = location before :: adjacent_locations graph (location before)
  ∧ location after ∈ neighborhood_of lookup_map (location before)
  ∧ location before ∈ neighborhood_of lookup_map (location before).

(** Statements of the specification about the invocations of [try_infect]
    in one infection phase: only susceptible individuals are invoked, and a
    scan stops at its first match, so that no individual is invoked twice. *)
Definition invoked_on_susceptibles (log : list TryInfectCall) : Prop :=
  Forall (λ c, infection_state (call_before c) = Susceptible) log.

Definition scans_stop_at_first_match (log : list TryInfectCall) : Prop :=
  NoDup (call_target <$> log).

(** ** Sample inputs *)

(** Every attempt on a susceptible succeeds: infection probability 1.0. *)
Definition certain : DiseaseSettings :=
  {| disease_duration := 2; infection_succeeds := λ _, true;
     INITIAL_INFECTED_COUNT := 1 |}.

(** An attempt succeeds on an odd draw: infection probability one half. *)
Definition coin : DiseaseSettings :=
  {| disease_duration := 2; infection_succeeds := Z.odd;
     INITIAL_INFECTED_COUNT := 1 |}.

(** More seed cases than the four individuals of the samples. *)
Definition overseeded : DiseaseSettings :=
  {| disease_duration := 2; infection_succeeds := λ _, true;
     INITIAL_INFECTED_COUNT := 5 |}.

Definition one_room : LocationUndirectedGraph :=
  {| num_vertices := 1; m_edges := [] |}.

Definition two_rooms : LocationUndirectedGraph :=
  {| num_vertices := 2; m_edges := [(0, 1)%Z] |}.

Definition susceptible_at (l : Z) : Individual :=
  {| location := l; infection_state := Susceptible; infected_duration := 0;
     ever_hit := false |}.

Definition infected_at (l : Z) : Individual := infect (susceptible_at l).

Definition recovered_at (l : Z) : Individual :=
  {| location := l; infection_state := Recovered; infected_duration := 3;
     ever_hit := true |}.

(** One infected individual among three susceptible ones, all at location 0. *)
Definition outbreak : list Individual :=
  [infected_at 0; susceptible_at 0; susceptible_at 0; susceptible_at 0].

(** Four draws for the movement phase, then draws for the attempts. *)
Definition outbreak_world : World :=
  {| individuals := outbreak; generator := [0; 0; 0; 0; 1; 0; 0; 1; 1]%Z |}.

(** The same population at the start of an infection phase. *)
Definition outbreak_phase : World :=
  {| individuals := outbreak; generator := [1; 0; 0; 1; 1]%Z |}.

(** Draws that keep the infected individual in room 0 and send the others
    to room 1 when the individuals draw in index order. *)
Definition parting_world : World :=
  {| individuals := outbreak; generator := [0; 1; 1; 1]%Z |}.

(** Two infected, one recovered and one susceptible individual in one room,
    with draws on which every attempt fails. *)
Definition ward_phase : World :=
  {| individuals := [infected_at 0; infected_at 0; recovered_at 0; susceptible_at 0];
     generator := [0; 0]%Z |}.

(** Thread 1 moves its individual before thread 0 does. *)
Definition second_first : EpochSchedule :=
  {| move_rank := λ i, match i with 0 => 1 | 1 => 0 | _ => i end;
     infect_rank := id; advance_rank := id |}.

(** The movement loop in index order, the infection loop in reverse order
    and the advance loop with thread 1 before thread 0. *)
Definition moves_in_order : EpochSchedule :=
  {| move_rank := id; infect_rank := λ i, 3 - i;
     advance_rank := λ i, match i with 0 => 1 | 1 => 0 | _ => i end |}.

(** What a call returned, or a default when it did not. *)
Definition returned_or {A} (default : A) (o : outcome A) : A :=
  match o with
  | Returned a => a
  | _ => default
  end.

Definition no_run : Statics * World * list (Z * Z) :=
  ({| max_index := 0; chunk := 0 |}, {| individuals := []; generator := [] |}, []).

(** Two epochs of the outbreak, by four threads in index order and by
    [simulate_serial]. *)
Definition outbreak_parallel_run : Statics * World * list (Z * Z) :=
  Eval vm_compute in
    returned_or no_run
      (simulate_parallel (H := coin) 3 (λ _, in_order) None 4 1 one_room
         outbreak_world []).

Definition outbreak_serial_run : World * list (Z * Z) :=
  Eval vm_compute in
    returned_or ({| individuals := []; generator := [] |}, [])
      (simulate_serial (H := coin) 3 4 1 one_room outbreak_world).

(** The look-up map of [two_rooms]. *)
Definition two_rooms_map : gmap Z (list Z) :=
  list_to_map [(0, [0; 1]); (1, [1; 0])]%Z.

(** The scan of the recovered individual of the ward, and the turn of its
    first infected individual in [simulate_serial]. *)
Definition ward_scan : World * list TryInfectCall :=
  Eval vm_compute in
    returned_or (ward_phase, []) (infect_iteration (H := coin) 4 2 (ward_phase, [])).

Definition ward_spread : World * list TryInfectCall :=
  Eval vm_compute in
    returned_or (ward_phase, []) (spread_iteration (H := coin) 0 (ward_phase, [])).

(** ** Predicates of the further properties *)

(** What an infection phase that began on [start] may have done to a slot:
    nothing, or it infected a susceptible individual that shared its
    location with an individual infected in [start]. *)
Definition caught_from (start : list Individual) (before after : Individual) : Prop :=
  after = before ∨ exposed start before = true ∧ after = infect before.

(** The two individuals differ in their location at most. *)
Definition same_health (before after : Individual) : Prop :=
  infection_state after = infection_state before
  ∧ infected_duration after = infected_duration before
  ∧ ever_hit after = ever_hit before.

(** A recovered individual keeps its health fields. *)
Definition immune (before after : Individual) : Prop :=
  infection_state before = Recovered → same_health before after.

(** ** Sample inputs of the further properties *)

(** A population without an infected individual, on two rooms. *)
Definition quiet_world : World :=
  {| individuals := [susceptible_at 0; recovered_at 1; susceptible_at 1];
     generator := [1; 0; 1; 1; 0; 0]%Z |}.

Definition quiet_serial_run : World * list (Z * Z) :=
  Eval vm_compute in
    returned_or ({| individuals := []; generator := [] |}, [])
      (simulate_serial (H := coin) 3 3 1 two_rooms quiet_world).

(** Four individuals on two rooms, none of them infected, two of them
    recovered. *)
Definition calm_world : World :=
  {| individuals := [susceptible_at 0; recovered_at 1; susceptible_at 1;
                     recovered_at 0];
     generator := [1; 0; 1; 1; 0; 0; 1; 0]%Z |}.

Definition calm_serial_run : World * list (Z * Z) :=
  Eval vm_compute in
    returned_or ({| individuals := []; generator := [] |}, [])
      (simulate_serial (H := coin) 3 4 1 two_rooms calm_world).

Definition calm_parallel_run : Statics * World * list (Z * Z) :=
  Eval vm_compute in
    returned_or no_run
      (simulate_parallel (H := coin) 3 (λ _, second_first) None 4 1 two_rooms
         calm_world []).

(** A population of two in one room, scanned with an [individual_count]
    of three; the draw lets the attempt succeed. *)
Definition pair_phase : World :=
  {| individuals := [infected_at 0; susceptible_at 0]; generator := [1]%Z |}.

Definition pair_scan : World * list TryInfectCall :=
  Eval vm_compute in
    returned_or (pair_phase, [])
      (infection_phase_parallel (H := coin) 3 [0; 1] pair_phase).

(** An infected individual stored behind two susceptible ones in the same
    room. *)
Definition hidden_source_phase : World :=
  {| individuals := [susceptible_at 0; susceptible_at 0; infected_at 0];
     generator := [1; 1]%Z |}.

(** Six individuals in one room, two of them infected. *)
Definition crowd_world : World :=
  {| individuals := [infected_at 0; susceptible_at 0; susceptible_at 0;
                     susceptible_at 0; infected_at 0; susceptible_at 0];
     generator := [0; 0; 0; 0; 1; 0; 0; 1; 1; 0; 1; 1]%Z |}.

(** The crowd run by a call that finds the static variables as a first call
    on four individuals leaves them. *)
Definition stale_parallel_run : Statics * World * list (Z * Z) :=
  Eval vm_compute in
    returned_or no_run
      (simulate_parallel (H := coin) 3 (λ _, in_order)
         (Some {| max_index := 4; chunk := 1 |}) 6 1 one_room crowd_world []).

(** * Properties *)

(** ** Outcomes and loops *)

Lemma bind_Returned {A B} (m : outcome A) (f : A → outcome B) (b : B) :
  m ≫= f = Returned b ↔ ∃ a, m = Returned a ∧ f a = Returned b.
Proof.
  destruct m as [a| | |]; simpl; split; try (intros [a' [? ?]]); try discriminate.
  - intros Hf. exists a. auto.
  - congruence.
Qed.

Lemma bind_Returned_l {A B} (a : A) (f : A → outcome B) : Returned a ≫= f = f a.
Proof. done. Qed.

Lemma at_index_Returned {A} (v : list A) (i : nat) (x : A) :
  at_index v i = Returned x ↔ v !! i = Some x.
Proof. unfold at_index. destruct (v !! i); split; congruence. Qed.

Lemma at_index_lt {A} (v : list A) (i : nat) :
  i < length v → ∃ x, at_index v i = Returned x ∧ v !! i = Some x.
Proof.
  intros Hi. destruct (lookup_lt_is_Some_2 v i Hi) as [x Hx].
  exists x. split; [by apply at_index_Returned | done].
Qed.

(** Split a hypothesis [m ≫= f = Returned b] into its two steps. *)
Ltac outcome_inv H :=
  let a := fresh "a" in
  let H1 := fresh H "_step" in
  apply bind_Returned in H as [a [H1 H]].

Lemma for_indices_app {St} (body : nat → St → outcome St) (o1 o2 : list nat) (s : St) :
  for_indices body (o1 ++ o2) s = for_indices body o1 s ≫= for_indices body o2.
Proof.
  revert s. induction o1 as [|i o1 IH]; intros s; simpl; [done|].
  destruct (body i s); simpl; auto.
Qed.

(** A property kept by every iteration is kept by the loop. *)
Lemma for_indices_invariant {St} (P : St → Prop) (body : nat → St → outcome St)
    (order : list nat) (s s' : St) :
  P s →
  (∀ i s1 s2, i ∈ order → P s1 → body i s1 = Returned s2 → P s2) →
  for_indices body order s = Returned s' → P s'.
Proof.
  revert s. induction order as [|i order IH]; intros s Hs Hbody Hrun; simpl in Hrun.
  - congruence.
  - outcome_inv Hrun. apply (IH a); [| |done].
    + eapply Hbody; [|exact Hs|exact Hrun_step]. left.
    + intros j s1 s2 Hj. apply Hbody. by right.
Qed.

(** A loop whose iterations all return, returns. *)
Lemma for_indices_returns {St} (P : St → Prop) (body : nat → St → outcome St)
    (order : list nat) (s : St) :
  P s →
  (∀ i s1, i ∈ order → P s1 → ∃ s2, body i s1 = Returned s2 ∧ P s2) →
  ∃ s', for_indices body order s = Returned s' ∧ P s'.
Proof.
  revert s. induction order as [|i order IH]; intros s Hs Hbody; simpl.
  - eauto.
  - destruct (Hbody i s) as [s2 [Hrun Hs2]]; [left|done|].
    rewrite Hrun. simpl. apply IH; [done|].
    intros j s1 Hj. apply Hbody. by right.
Qed.

(** ** The Individual class *)

Lemma is_infected_true (i : Individual) :
  is_infected i = true ↔ infection_state i = Infected.
Proof. unfold is_infected. apply bool_decide_eq_true. Qed.

Lemma is_infected_false (i : Individual) :
  is_infected i = false ↔ infection_state i ≠ Infected.
Proof. unfold is_infected. apply bool_decide_eq_false. Qed.

Lemma try_infect_cases `{DiseaseSettings} (i : Individual) (g : Generator) :
  try_infect i g = (i, g) ∧ infection_state i ≠ Susceptible
  ∨ infection_state i = Susceptible ∧
    (try_infect i g = (infect i, (next_draw g).2)
       ∧ infection_succeeds (next_draw g).1 = true
     ∨ try_infect i g = (i, (next_draw g).2)
       ∧ infection_succeeds (next_draw g).1 = false).
Proof.
  unfold try_infect. destruct (infection_state i) eqn:Hst; [|left; done..].
  right. split; [done|]. destruct (next_draw g) as [d g']. simpl.
  destruct (infection_succeeds d); auto.
Qed.

(** What [try_infect] may do to an individual: nothing, or the transition
    from Susceptible to Infected. *)
Lemma try_infect_result `{DiseaseSettings} (i : Individual) (g : Generator) :
  (try_infect i g).1 = i
  ∨ infection_state i = Susceptible ∧ (try_infect i g).1 = infect i.
Proof.
  destruct (try_infect_cases i g) as [[-> _]|[Hs [[-> _]|[-> _]]]]; auto.
Qed.

Lemma infect_is_infected (i : Individual) : is_infected (infect i) = true.
Proof. done. Qed.

(** A failed attempt leaves the individual as it was. *)
Lemma try_infect_not_infected `{DiseaseSettings} (i : Individual) (g : Generator) :
  is_infected (try_infect i g).1 = false → (try_infect i g).1 = i.
Proof.
  destruct (try_infect_result i g) as [->|[_ ->]]; [done|].
  rewrite infect_is_infected. discriminate.
Qed.

(** ** Lists as arrays *)

Lemma Forall2_insert_right {A B} (R : A → B → Prop) (l : list A) (k : list B)
    (i : nat) (x : A) (y : B) :
  Forall2 R l k → l !! i = Some x → R x y → Forall2 R l (<[i:=y]> k).
Proof.
  intros HF Hx HR. rewrite <- (list_insert_id l i x Hx).
  by apply Forall2_insert.
Qed.

(** ** The infection phase of simulate_parallel touches only new cases *)

Lemma kept_or_infected_refl (i : Individual) : kept_or_infected i i.
Proof. by left. Qed.

Lemma scan_affecting_saved `{DiseaseSettings} (population : list Individual)
    (index : nat) (affecting : list nat) (current : Individual) (g g' : Generator)
    (saved : option Individual) (calls : list TryInfectCall) :
  scan_affecting population index affecting current g = Returned (saved, g', calls) →
  is_infected current = false →
  ∀ x, saved = Some x → infection_state current = Susceptible ∧ x = infect current.
Proof.
  revert current g g' saved calls.
  induction affecting as [|a rest IH]; intros current g g' saved calls Hscan Hcur x Hx;
    simpl in Hscan.
  - congruence.
  - outcome_inv Hscan.
    destruct (is_infected a0 && bool_decide (get_location current = get_location a0)).
    + pose proof (try_infect_result current g) as Hres.
      pose proof (try_infect_not_infected current g) as Hfail.
      destruct (try_infect current g) as [tried g1]. simpl in Hres, Hfail.
      destruct (is_infected tried) eqn:Htried.
      * injection Hscan as <- <- <-. injection Hx as <-.
        destruct Hres as [->|Hres]; [congruence|done].
      * outcome_inv Hscan. destruct a1 as [[saved1 g2] calls1].
        injection Hscan as <- <- <-. specialize (Hfail eq_refl). subst tried.
        eapply IH; eauto.
    + eapply IH; eauto.
Qed.

Lemma infect_iteration_frame `{DiseaseSettings} (individual_count : Z) (index : nat)
    (w w' : World) (log log' : list TryInfectCall) (start : list Individual) :
  infect_iteration individual_count index (w, log) = Returned (w', log') →
  Forall2 kept_or_infected start (individuals w) →
  Forall2 kept_or_infected start (individuals w').
Proof.
  intros Hrun Hstart. unfold infect_iteration in Hrun.
  outcome_inv Hrun. apply at_index_Returned in Hrun_step.
  destruct (is_infected a) eqn:Hinf.
  - injection Hrun as <- _. done.
  - outcome_inv Hrun. destruct a0 as [[saved g] calls].
    injection Hrun as <- _. simpl.
    destruct saved as [x|]; [|done].
    destruct (scan_affecting_saved _ _ _ _ _ _ _ _ Hrun_step0 Hinf x eq_refl)
      as [Hsus ->].
    destruct (Forall2_lookup_r _ _ _ _ _ Hstart Hrun_step) as [b [Hb Hrel]].
    eapply Forall2_insert_right; [done|exact Hb|].
    destruct Hrel as [->|[_ ->]]; [by right|done].
Qed.

Lemma infection_phase_parallel_kept_or_infected `{DiseaseSettings}
    (individual_count : Z) (order : list nat) (w w' : World)
    (log : list TryInfectCall) :
  infection_phase_parallel individual_count order w = Returned (w', log) →
  Forall2 kept_or_infected (individuals w) (individuals w').
Proof.
  intros Hrun. unfold infection_phase_parallel in Hrun.
  apply (for_indices_invariant
           (λ s, Forall2 kept_or_infected (individuals w) (individuals s.1))
           _ _ _ _) in Hrun; [done| |].
  - simpl. apply Forall_Forall2_diag, Forall_forall. intros. apply kept_or_infected_refl.
  - intros i [w1 l1] [w2 l2] _ Hinv Hbody. simpl in *.
    by eapply infect_iteration_frame.
Qed.

Lemma scan_affecting_returns `{DiseaseSettings} (population : list Individual)
    (index : nat) (affecting : list nat) (current : Individual) (g : Generator) :
  Forall (λ a, a < length population) affecting →
  ∃ r, scan_affecting population index affecting current g = Returned r.
Proof.
  intros Hb. revert current g.
  induction Hb as [|a rest Ha _ IH]; intros current g; simpl; [eauto|].
  destruct (at_index_lt population a Ha) as [x [-> _]]. simpl.
  destruct (is_infected x && bool_decide (get_location current = get_location x));
    [|apply IH].
  destruct (try_infect current g) as [tried g1].
  destruct (is_infected tried); [eauto|].
  destruct (IH tried g1) as [[[saved g2] calls] ->]. simpl. eauto.
Qed.

Lemma seq_below (n : nat) (bound : nat) :
  n ≤ bound → Forall (λ a, a < bound) (seq 0 n).
Proof.
  intros Hn. apply Forall_forall. intros a Ha.
  apply elem_of_seq in Ha. lia.
Qed.

Lemma infect_iteration_returns `{DiseaseSettings} (individual_count : Z) (index : nat)
    (w : World) (log : list TryInfectCall) :
  index < length (individuals w) →
  (individual_count ≤ Z.of_nat (length (individuals w)))%Z →
  ∃ s', infect_iteration individual_count index (w, log) = Returned s'
        ∧ length (individuals s'.1) = length (individuals w).
Proof.
  intros Hi Hc. unfold infect_iteration.
  destruct (at_index_lt _ _ Hi) as [slot [-> _]]. simpl.
  destruct (is_infected slot); [eauto|].
  destruct (scan_affecting_returns (individuals w) index
              (seq 0 (Z.to_nat individual_count)) slot (generator w))
    as [[[saved g] calls] ->]; [apply seq_below; lia|].
  simpl. eexists. split; [done|]. simpl.
  destruct saved; [apply length_insert|done].
Qed.

Lemma infection_phase_parallel_returns `{DiseaseSettings} (individual_count : Z)
    (order : list nat) (w : World) :
  Forall (λ i, i < length (individuals w)) order →
  (individual_count ≤ Z.of_nat (length (individuals w)))%Z →
  ∃ r, infection_phase_parallel individual_count order w = Returned r.
Proof.
  intros Hb Hc. unfold infection_phase_parallel.
  destruct (for_indices_returns
              (λ s, length (individuals s.1) = length (individuals w))
              (infect_iteration individual_count) order (w, []))
    as [r [Hr _]]; [done| |eauto].
  intros i [w1 l1] Hi Hlen. simpl in Hlen.
  rewrite Forall_forall in Hb.
  destruct (infect_iteration_returns individual_count i w1 l1) as [s2 [-> Hs2]];
    [rewrite Hlen; auto|rewrite Hlen; done|].
  eexists. split; [done|]. congruence.
Qed.

(** C9: in the infection phase of [simulate_parallel] a slot changes only
    when its individual turns from Susceptible to Infected.  For every
    interleaving [order] of in-range iterations the phase returns, the
    population keeps its length, and every slot is either identical to what
    it was at the start of the phase (location, state, duration and hit flag)
    or holds the freshly infected copy of a Susceptible individual; so
    individuals that start Infected or Recovered, and individuals that do not
    end Infected, are unchanged. *)
Theorem infection_phase_parallel_frame `{DiseaseSettings} (individual_count : Z)
    (order : list nat) (w : World)
    (Horder : Forall (λ i, i < length (individuals w)) order)
    (Hcount : (individual_count ≤ Z.of_nat (length (individuals w)))%Z) :
  ∃ w' log,
    infection_phase_parallel individual_count order w = Returned (w', log)
    ∧ length (individuals w') = length (individuals w)
    ∧ ∀ index before after,
        individuals w !! index = Some before →
        individuals w' !! index = Some after →
        (infection_state before ≠ Susceptible → after = before)
        ∧ (infection_state after ≠ Infected → after = before)
        ∧ (after ≠ before →
           infection_state before = Susceptible
           ∧ infection_state after = Infected
           ∧ location after = location before).
Proof.
  destruct (infection_phase_parallel_returns individual_count order w Horder Hcount)
    as [[w' log] Hrun].
  exists w', log. split; [done|].
  pose proof (infection_phase_parallel_kept_or_infected _ _ _ _ _ Hrun) as Hrel.
  split; [symmetry; by eapply Forall2_length|].
  intros index before after Hb Ha.
  pose proof (Forall2_lookup_lr _ _ _ _ _ _ Hrel Hb Ha) as [->|[Hsus ->]].
  - repeat split; congruence.
  - repeat split; try done; simpl; congruence.
Qed.

(** ** The neighbourhood look-up map *)

Lemma vertices_NoDup (graph : LocationUndirectedGraph) : NoDup (vertices graph).
Proof.
  unfold vertices. apply NoDup_fmap_2; [|apply NoDup_seq].
  intros x y. lia.
Qed.

Lemma lookup_map_keys (graph : LocationUndirectedGraph) :
  ((λ v, (v, v :: adjacent_locations graph v)) <$> vertices graph).*1 = vertices graph.
Proof.
  rewrite <- list_fmap_compose. rewrite <- (list_fmap_id (vertices graph)) at 2.
  apply list_fmap_ext. done.
Qed.

Lemma lookup_map_vertex (graph : LocationUndirectedGraph) (m : gmap Z (list Z)) (v : Z) :
  get_node_neighborhood_lookup_map graph = Returned m →
  v ∈ vertices graph → m !! v = Some (v :: adjacent_locations graph v).
Proof.
  unfold get_node_neighborhood_lookup_map. case_decide; [discriminate|].
  intros [= <-] Hv. apply elem_of_list_to_map_1.
  - rewrite lookup_map_keys. apply vertices_NoDup.
  - apply list_elem_of_fmap. eauto.
Qed.

Lemma lookup_map_other (graph : LocationUndirectedGraph) (m : gmap Z (list Z)) (v : Z) :
  get_node_neighborhood_lookup_map graph = Returned m →
  v ∉ vertices graph → m !! v = None.
Proof.
  unfold get_node_neighborhood_lookup_map. case_decide; [discriminate|].
  intros [= <-] Hv. apply not_elem_of_list_to_map_1.
  by rewrite lookup_map_keys.
Qed.

Lemma lookup_map_is_Some (graph : LocationUndirectedGraph) (m : gmap Z (list Z)) (v : Z) :
  get_node_neighborhood_lookup_map graph = Returned m →
  is_Some (m !! v) ↔ v ∈ vertices graph.
Proof.
  intros Hm. split.
  - intros [nb Hnb]. destruct (decide (v ∈ vertices graph)) as [|Hn]; [done|].
    rewrite (lookup_map_other _ _ _ Hm Hn) in Hnb. discriminate.
  - intros Hv. rewrite (lookup_map_vertex _ _ _ Hm Hv). eauto.
Qed.

Lemma adjacent_locations_vertices (graph : LocationUndirectedGraph) (v l : Z) :
  graph_closed graph → l ∈ adjacent_locations graph v → l ∈ vertices graph.
Proof.
  intros Hc Hl. unfold adjacent_locations in Hl.
  apply list_elem_of_In, in_flat_map in Hl as [e [He Hl]].
  apply list_elem_of_In in He. destruct (Hc e He) as [H1 H2].
  repeat case_decide; apply list_elem_of_In in Hl;
    try (apply list_elem_of_singleton in Hl; subst; done).
  by apply elem_of_nil in Hl.
Qed.

Lemma lookup_map_closed (graph : LocationUndirectedGraph) (m : gmap Z (list Z)) :
  graph_closed graph →
  get_node_neighborhood_lookup_map graph = Returned m → map_closed m.
Proof.
  intros Hc Hm l nb Hnb.
  assert (l ∈ vertices graph) as Hl by (apply (lookup_map_is_Some _ _ _ Hm); eauto).
  rewrite (lookup_map_vertex _ _ _ Hm Hl) in Hnb. injection Hnb as <-.
  split; [left|].
  intros l' Hl'. apply (lookup_map_is_Some _ _ _ Hm).
  apply elem_of_cons in Hl' as [->|Hl']; [done|].
  by eapply adjacent_locations_vertices.
Qed.

Lemma on_graph_on_map (graph : LocationUndirectedGraph) (m : gmap Z (list Z))
    (population : list Individual) :
  get_node_neighborhood_lookup_map graph = Returned m →
  on_graph graph population ↔ on_map m population.
Proof.
  intros Hm. unfold on_graph, on_map. apply Forall_proper; [|done].
  intros i. symmetry. by apply lookup_map_is_Some.
Qed.

Lemma lookup_map_returns (graph : LocationUndirectedGraph) :
  num_vertices graph ≠ 0 →
  ∃ m, get_node_neighborhood_lookup_map graph = Returned m.
Proof.
  intros Hn. unfold get_node_neighborhood_lookup_map.
  case_decide; [done|eauto].
Qed.

(** ** The movement phase *)

Lemma move_Returned (i moved : Individual) (nb : list Z) (g g' : Generator) :
  move i nb g = Returned (moved, g') →
  location moved ∈ nb
  ∧ infection_state moved = infection_state i
  ∧ infected_duration moved = infected_duration i
  ∧ ever_hit moved = ever_hit i
  ∧ g' = (next_draw g).2.
Proof.
  unfold move. destruct (next_draw g) as [d g1]. simpl.
  destruct (nb !! _) as [l|] eqn:Hl; [|discriminate].
  intros [= <- <-]. simpl. repeat split.
  eapply list_elem_of_lookup_2. exact Hl.
Qed.

Lemma move_returns (i : Individual) (nb : list Z) (g : Generator) :
  nb ≠ [] → ∃ moved, move i nb g = Returned (moved, (next_draw g).2).
Proof.
  intros Hnb. unfold move. destruct (next_draw g) as [d g1]. simpl.
  assert (Z.to_nat (d `mod` Z.of_nat (length nb)) < length nb) as Hlt.
  { destruct nb; [done|]. simpl length.
    pose proof (Z.mod_pos_bound d (Z.of_nat (S (length nb))) ltac:(lia)). lia. }
  destruct (lookup_lt_is_Some_2 _ _ Hlt) as [l ->]. eauto.
Qed.

Lemma neighborhood_nonempty (m : gmap Z (list Z)) (l : Z) :
  map_closed m → is_Some (m !! l) → l ∈ neighborhood_of m l ∧ neighborhood_of m l ≠ [].
Proof.
  intros Hc [nb Hnb]. unfold neighborhood_of. rewrite Hnb. simpl.
  destruct (Hc l nb Hnb) as [Hl _]. split; [done|].
  intros ->. by apply elem_of_nil in Hl.
Qed.

Lemma moved_within_on_map (m : gmap Z (list Z)) (before after : Individual) :
  map_closed m → is_Some (m !! location before) →
  moved_within m before after → is_Some (m !! location after).
Proof.
  intros Hc [nb Hnb] [Hloc _]. unfold neighborhood_of in Hloc.
  rewrite Hnb in Hloc. simpl in Hloc.
  destruct (Hc _ _ Hnb) as [_ Hall]. auto.
Qed.

Lemma move_all_moved (m : gmap Z (list Z)) (population moved : list Individual)
    (g g' : Generator) :
  move_all m population g = Returned (moved, g') →
  Forall2 (moved_within m) population moved.
Proof.
  revert moved g g'. induction population as [|i rest IH]; intros moved g g' Hrun;
    simpl in Hrun.
  - injection Hrun as <- <-. constructor.
  - outcome_inv Hrun. destruct a as [i' g1].
    outcome_inv Hrun. destruct a as [rest' g2]. injection Hrun as <- <-.
    apply move_Returned in Hrun_step as (? & ? & ? & ? & _).
    constructor; [done|]. by eapply IH.
Qed.

Lemma move_all_returns (m : gmap Z (list Z)) (population : list Individual)
    (g : Generator) :
  map_closed m → on_map m population →
  ∃ moved g', move_all m population g = Returned (moved, g').
Proof.
  intros Hc Hon. revert g. induction Hon as [|i rest Hi _ IH]; intros g; simpl.
  - eauto.
  - destruct (neighborhood_nonempty m _ Hc Hi) as [_ Hne]. unfold get_location.
    destruct (move_returns i _ g Hne) as [moved ->]. simpl.
    destruct (IH (next_draw g).2) as [rest' [g' ->]]. simpl. eauto.
Qed.

Lemma move_iteration_Returned (m : gmap Z (list Z)) (index : nat) (w w' : World) :
  move_iteration m index w = Returned w' →
  ∃ before after,
    individuals w !! index = Some before
    ∧ moved_within m before after
    ∧ individuals w' = <[index := after]> (individuals w)
    ∧ generator w' = (next_draw (generator w)).2.
Proof.
  unfold move_iteration. intros Hrun.
  outcome_inv Hrun. apply at_index_Returned in Hrun_step.
  outcome_inv Hrun. destruct a0 as [after g]. injection Hrun as <-.
  apply move_Returned in Hrun_step0 as (? & ? & ? & ? & ->).
  exists a, after. repeat split; done.
Qed.

Lemma move_iteration_returns (m : gmap Z (list Z)) (index : nat) (w : World) :
  map_closed m → on_map m (individuals w) → index < length (individuals w) →
  ∃ w', move_iteration m index w = Returned w'.
Proof.
  intros Hc Hon Hi. unfold move_iteration.
  destruct (at_index_lt _ _ Hi) as [before [-> Hb]]. simpl.
  assert (is_Some (m !! location before)) as Hs.
  { unfold on_map in Hon. rewrite Forall_lookup in Hon. eauto. }
  destruct (neighborhood_nonempty m _ Hc Hs) as [_ Hne]. unfold get_location.
  destruct (move_returns before _ (generator w) Hne) as [moved ->].
  simpl. eauto.
Qed.

Lemma on_map_insert (m : gmap Z (list Z)) (population : list Individual)
    (index : nat) (i : Individual) :
  on_map m population → is_Some (m !! location i) →
  on_map m (<[index := i]> population).
Proof. intros Hon Hi. by apply Forall_insert. Qed.

(** The movement loop, whatever the interleaving, moves every listed slot
    once and leaves the others alone. *)
Lemma movement_phase_parallel_moved (m : gmap Z (list Z)) (order : list nat)
    (w w' : World) :
  NoDup order →
  movement_phase_parallel m order w = Returned w' →
  length (individuals w') = length (individuals w)
  ∧ ∀ k before after,
      individuals w !! k = Some before → individuals w' !! k = Some after →
      (k ∈ order → moved_within m before after) ∧ (k ∉ order → after = before).
Proof.
  unfold movement_phase_parallel. revert w.
  induction order as [|i order IH]; intros w Hnd Hrun; simpl in Hrun.
  - injection Hrun as <-. split; [done|]. intros k b a Hb Ha.
    split; [intros Hk; by apply elem_of_nil in Hk|congruence].
  - outcome_inv Hrun. apply NoDup_cons in Hnd as [Hi Hnd].
    destruct (IH a Hnd Hrun) as [Hlen Hpt].
    apply move_iteration_Returned in Hrun_step
      as (before_i & after_i & Hbi & Hmoved & Hins & _).
    rewrite Hins, length_insert in Hlen. split; [done|].
    intros k b a' Hb Ha. destruct (decide (k = i)) as [->|Hne].
    + assert (individuals a !! i = Some after_i) as Hmid.
      { rewrite Hins. apply list_lookup_insert_eq. by eapply lookup_lt_Some. }
      destruct (Hpt i after_i a' Hmid Ha) as [_ Hkeep].
      rewrite (Hkeep Hi). assert (b = before_i) as -> by congruence.
      split; [done|]. intros Hn. exfalso. apply Hn. left.
    + assert (individuals a !! k = Some b) as Hmid.
      { rewrite Hins. by rewrite list_lookup_insert_ne. }
      destruct (Hpt k b a' Hmid Ha) as [Hin Hout]. split.
      * intros Hk. apply elem_of_cons in Hk as [?|Hk]; [done|auto].
      * intros Hk. apply Hout. intros Hk'. apply Hk. by right.
Qed.

Lemma movement_phase_parallel_returns (m : gmap Z (list Z)) (order : list nat)
    (w : World) :
  map_closed m → on_map m (individuals w) →
  Forall (λ i, i < length (individuals w)) order →
  ∃ w', movement_phase_parallel m order w = Returned w'
        ∧ on_map m (individuals w')
        ∧ length (individuals w') = length (individuals w).
Proof.
  intros Hc Hon Hb. unfold movement_phase_parallel.
  destruct (for_indices_returns
              (λ s, on_map m (individuals s)
                    ∧ length (individuals s) = length (individuals w))
              (move_iteration m) order w) as [w' [Hrun [? ?]]]; [done| |eauto].
  intros i w1 Hi [Hon1 Hlen1]. rewrite Forall_forall in Hb.
  destruct (move_iteration_returns m i w1 Hc Hon1) as [w2 Hw2];
    [rewrite Hlen1; auto|].
  exists w2. split; [done|].
  apply move_iteration_Returned in Hw2 as (b & a & Hb1 & Hmoved & -> & _).
  rewrite length_insert. split; [|done].
  apply on_map_insert; [done|].
  eapply moved_within_on_map; [done| |done].
  unfold on_map in Hon1. rewrite Forall_lookup in Hon1. eauto.
Qed.

(** C7: a movement phase puts every individual on a location of the
    neighbourhood of the location it had before the phase, and that
    neighbourhood, the location followed by its adjacent locations, contains
    the old location itself.  This holds for the loop of [simulate_serial]
    and, whatever the interleaving of the iterations, for the loop of
    [simulate_parallel]; both phases return on a population that stands on
    the graph. *)
Theorem movement_stays_in_neighborhood (graph : LocationUndirectedGraph)
    (m : gmap Z (list Z)) (population : list Individual) (g : Generator)
    (order : list nat)
    (Hclosed : graph_closed graph)
    (Hmap : get_node_neighborhood_lookup_map graph = Returned m)
    (Hon : on_graph graph population)
    (Horder : order ≡ₚ seq 0 (length population)) :
  (∃ moved g', move_all m population g = Returned (moved, g')
               ∧ Forall2 (stays graph m) population moved)
  ∧ (∃ w', movement_phase_parallel m order
             {| individuals := population; generator := g |} = Returned w'
           ∧ Forall2 (stays graph m) population (individuals w')).
Proof.
  pose proof (lookup_map_closed _ _ Hclosed Hmap) as Hc.
  pose proof (proj1 (on_graph_on_map _ _ population Hmap) Hon) as Hom.
  assert (∀ k before after, population !! k = Some before →
            moved_within m before after → stays graph m before after) as Hstays.
  { intros k before after Hk [Hloc _]. unfold stays.
    assert (location before ∈ vertices graph) as Hv.
    { unfold on_graph in Hon. rewrite Forall_lookup in Hon. eauto. }
    split; [|split; [done|]].
    - unfold neighborhood_of. by rewrite (lookup_map_vertex _ _ _ Hmap Hv).
    - apply neighborhood_nonempty; [done|].
      apply (lookup_map_is_Some _ _ _ Hmap). done. }
  split.
  - destruct (move_all_returns m population g Hc Hom) as [moved [g' Hrun]].
    exists moved, g'. split; [done|].
    pose proof (move_all_moved _ _ _ _ _ Hrun) as Hmoved.
    apply Forall2_same_length_lookup_2; [by eapply Forall2_length|].
    intros k before after Hb Ha. apply (Hstays k); [done|].
    by eapply Forall2_lookup_lr.
  - destruct (movement_phase_parallel_returns m order
                {| individuals := population; generator := g |} Hc Hom)
      as [w' [Hrun [_ Hlen]]].
    { simpl. apply Forall_forall. intros i Hi. rewrite Horder in Hi.
      apply elem_of_seq in Hi. lia. }
    exists w'. split; [done|].
    assert (NoDup order) as Hnd by (rewrite Horder; apply NoDup_seq).
    destruct (movement_phase_parallel_moved m order _ _ Hnd Hrun) as [_ Hpt].
    apply Forall2_same_length_lookup_2; [done|].
    intros k before after Hb Ha. apply (Hstays k); [done|]. simpl in Hpt.
    apply (Hpt k before after Hb Ha). rewrite Horder. apply elem_of_seq.
    apply lookup_lt_Some in Hb. lia.
Qed.

(** ** The advance phase *)

Lemma advance_epoch_location `{DiseaseSettings} (i : Individual) :
  location (advance_epoch i) = location i.
Proof. unfold advance_epoch. by destruct (infection_state i). Qed.

Lemma advance_epoch_ever_hit `{DiseaseSettings} (i : Individual) :
  ever_hit (advance_epoch i) = ever_hit i.
Proof. unfold advance_epoch. by destruct (infection_state i). Qed.

Lemma advance_epoch_hit_consistent `{DiseaseSettings} (i : Individual) :
  hit_consistent i → hit_consistent (advance_epoch i).
Proof.
  unfold hit_consistent, advance_epoch.
  destruct (infection_state i) eqn:Hs; simpl; try congruence.
  auto.
Qed.

(** On a consistent individual the two ways of counting hits agree. *)
Lemma counted_hit_consistent (i : Individual) :
  hit_consistent i → counted_hit i = is_hit i.
Proof.
  unfold hit_consistent, counted_hit, is_hit. intros Hc.
  destruct (is_infected i) eqn:Hi; [|done].
  apply is_infected_true in Hi. rewrite (Hc Hi). done.
Qed.

Lemma advance_iteration_Returned `{DiseaseSettings} (index : nat) (w w' : World)
    (hit infected hit' infected' : Z) :
  advance_iteration index (w, (hit, infected)) = Returned (w', (hit', infected')) →
  ∃ slot,
    individuals w !! index = Some slot
    ∧ individuals w' = <[index := advance_epoch slot]> (individuals w)
    ∧ generator w' = generator w
    ∧ hit' = (hit + if counted_hit (advance_epoch slot) then 1 else 0)%Z
    ∧ infected' = (infected + if is_infected (advance_epoch slot) then 1 else 0)%Z.
Proof.
  unfold advance_iteration. intros Hrun.
  outcome_inv Hrun. apply at_index_Returned in Hrun_step.
  exists a. split; [done|]. unfold counted_hit.
  destruct (is_infected (advance_epoch a)); simpl in *.
  - injection Hrun as <- <- <-. simpl. done.
  - destruct (is_hit (advance_epoch a)); injection Hrun as <- <- <-; simpl;
      repeat split; lia.
Qed.

Lemma advance_iteration_returns `{DiseaseSettings} (index : nat) (w : World)
    (counts : Z * Z) :
  index < length (individuals w) →
  ∃ s', advance_iteration index (w, counts) = Returned s'.
Proof.
  intros Hi. unfold advance_iteration. destruct counts as [h i].
  destruct (at_index_lt _ _ Hi) as [slot [-> _]]. simpl.
  destruct (is_infected (advance_epoch slot)); [eauto|].
  destruct (is_hit (advance_epoch slot)); eauto.
Qed.

Lemma tally_cons (f : Individual → bool) (population : list Individual)
    (k : nat) (order : list nat) :
  tally f population (k :: order)
  = ((if flag_at f population k then 1 else 0) + tally f population order)%Z.
Proof.
  unfold tally. rewrite filter_cons.
  destruct (flag_at f population k); case_decide; try done; simpl length; lia.
Qed.

Lemma tally_ext (f : Individual → bool) (p q : list Individual) (order : list nat) :
  (∀ k, k ∈ order → p !! k = q !! k) → tally f p order = tally f q order.
Proof.
  intros Hext. induction order as [|k order IH]; [done|].
  rewrite !tally_cons. rewrite IH by (intros; apply Hext; by right).
  unfold flag_at. rewrite (Hext k) by left. done.
Qed.

Lemma tally_Permutation (f : Individual → bool) (population : list Individual)
    (o1 o2 : list nat) :
  o1 ≡ₚ o2 → tally f population o1 = tally f population o2.
Proof. intros Hp. unfold tally. by rewrite Hp. Qed.

(** The advance loop, whatever the interleaving: the listed slots are
    advanced, and the two counters grow by the number of listed slots that
    end up counted. *)
Lemma advance_loop_spec `{DiseaseSettings} (order : list nat) (w w' : World)
    (hit infected hit' infected' : Z) :
  NoDup order →
  for_indices advance_iteration order (w, (hit, infected))
    = Returned (w', (hit', infected')) →
  length (individuals w') = length (individuals w)
  ∧ generator w' = generator w
  ∧ (∀ k before after,
       individuals w !! k = Some before → individuals w' !! k = Some after →
       (k ∈ order → after = advance_epoch before) ∧ (k ∉ order → after = before))
  ∧ hit' = (hit + tally counted_hit (individuals w') order)%Z
  ∧ infected' = (infected + tally is_infected (individuals w') order)%Z.
Proof.
  revert w hit infected.
  induction order as [|i order IH]; intros w hit infected Hnd Hrun; simpl in Hrun.
  - injection Hrun as <- <- <-. unfold tally. simpl.
    repeat split; try lia.
    + intros Hk. by apply elem_of_nil in Hk.
    + congruence.
  - outcome_inv Hrun. destruct a as [w1 [h1 i1]].
    apply NoDup_cons in Hnd as [Hi Hnd].
    destruct (IH w1 h1 i1 Hnd Hrun) as (Hlen & Hgen & Hpt & Hh & Hinf).
    apply advance_iteration_Returned in Hrun_step
      as (slot & Hslot & Hins & Hg1 & Hh1 & Hi1).
    assert (individuals w1 !! i = Some (advance_epoch slot)) as Hmid.
    { rewrite Hins. apply list_lookup_insert_eq. by eapply lookup_lt_Some. }
    assert (individuals w' !! i = Some (advance_epoch slot)) as Hfin.
    { assert (i < length (individuals w')) as Hlt.
      { rewrite Hlen. by eapply lookup_lt_Some. }
      destruct (lookup_lt_is_Some_2 _ _ Hlt) as [x Hx].
      destruct (Hpt i _ x Hmid Hx) as [_ Hkeep]. rewrite Hx, (Hkeep Hi). done. }
    rewrite Hins, length_insert in Hlen.
    split; [done|]. split; [congruence|]. split.
    + intros k b a' Hb Ha. destruct (decide (k = i)) as [->|Hne].
      * assert (b = slot) as -> by congruence.
        assert (a' = advance_epoch slot) as -> by congruence.
        split; [done|]. intros Hn. exfalso. apply Hn. left.
      * assert (individuals w1 !! k = Some b) as Hmid'.
        { rewrite Hins. by rewrite list_lookup_insert_ne. }
        destruct (Hpt k b a' Hmid' Ha) as [Hin Hout]. split.
        -- intros Hk. apply elem_of_cons in Hk as [?|Hk]; [done|auto].
        -- intros Hk. apply Hout. intros Hk'. apply Hk. by right.
    + rewrite !tally_cons.
      assert (∀ f, flag_at f (individuals w') i = f (advance_epoch slot)) as Hflag.
      { intros f. unfold flag_at. by rewrite Hfin. }
      rewrite !Hflag. split; lia.
Qed.

Lemma advance_phase_parallel_returns `{DiseaseSettings} (order : list nat) (w : World) :
  Forall (λ i, i < length (individuals w)) order →
  ∃ r, advance_phase_parallel order w = Returned r.
Proof.
  intros Hb. unfold advance_phase_parallel.
  destruct (for_indices_returns
              (λ s, length (individuals s.1) = length (individuals w))
              advance_iteration order (w, (0, 0)%Z)) as [r [Hr _]]; [done| |eauto].
  intros i [w1 [h1 i1]] Hi Hlen. simpl in Hlen. rewrite Forall_forall in Hb.
  destruct (advance_iteration_returns i w1 (h1, i1)) as [[w2 [h2 i2]] Hrun];
    [rewrite Hlen; auto|].
  exists (w2, (h2, i2)). split; [done|].
  apply advance_iteration_Returned in Hrun as (slot & _ & Hins & _).
  simpl. by rewrite Hins, length_insert.
Qed.

Lemma count_cons (f : Individual → bool) (x : Individual) (l : list Individual) :
  count f (x :: l) = ((if f x then 1 else 0) + count f l)%Z.
Proof.
  unfold count. rewrite filter_cons.
  destruct (f x); case_decide; try done; simpl length; lia.
Qed.

(** The advance loop of [simulate_serial]. *)
Lemma advance_all_spec `{DiseaseSettings} (population : list Individual)
    (hit infected : Z) :
  advance_all population hit infected
  = (advance_epoch <$> population,
     ((hit + count is_hit (advance_epoch <$> population))%Z,
      (infected + count is_infected (advance_epoch <$> population))%Z)).
Proof.
  revert hit infected. induction population as [|x l IH]; intros hit infected.
  - simpl. change (count is_hit []) with 0%Z. change (count is_infected []) with 0%Z.
    by rewrite !Z.add_0_r.
  - rewrite fmap_cons, !count_cons. cbn [advance_all]. rewrite IH.
    destruct (is_infected (advance_epoch x)), (is_hit (advance_epoch x));
      (f_equal; apply pair_equal_spec; split; lia).
Qed.

(** ** The infection phase of simulate_serial *)

Lemma meet_Returned `{DiseaseSettings} (i a : nat) (w w' : World)
    (log log' : list TryInfectCall) (start : list Individual) :
  meet i a (w, log) = Returned (w', log') →
  Forall2 kept_or_infected start (individuals w) →
  Forall2 kept_or_infected start (individuals w').
Proof.
  unfold meet. intros Hrun Hstart. case_decide; [|by injection Hrun as <- _].
  outcome_inv Hrun. outcome_inv Hrun. apply at_index_Returned in Hrun_step0.
  case_bool_decide; [|by injection Hrun as <- _].
  pose proof (try_infect_result a1 (generator w)) as Hres.
  destruct (try_infect a1 (generator w)) as [tried g]. simpl in Hres.
  injection Hrun as <- _. simpl.
  destruct (Forall2_lookup_r _ _ _ _ _ Hstart Hrun_step0) as [b [Hb Hrel]].
  eapply Forall2_insert_right; [done|exact Hb|].
  destruct Hres as [->|[Hsus ->]]; [done|].
  destruct Hrel as [->|[_ ->]]; [by right|done].
Qed.

Lemma meet_returns `{DiseaseSettings} (i a : nat) (w : World)
    (log : list TryInfectCall) :
  i < length (individuals w) → a < length (individuals w) →
  ∃ s', meet i a (w, log) = Returned s'
        ∧ length (individuals s'.1) = length (individuals w).
Proof.
  intros Hi Ha. unfold meet. case_decide; [|eauto].
  destruct (at_index_lt _ _ Hi) as [src [-> _]].
  destruct (at_index_lt _ _ Ha) as [tgt [-> _]]. simpl.
  case_bool_decide; [|eauto].
  destruct (try_infect tgt (generator w)) as [tried g].
  eexists. split; [done|]. simpl. apply length_insert.
Qed.

Lemma spread_iteration_Returned `{DiseaseSettings} (i : nat) (w w' : World)
    (log log' : list TryInfectCall) (start : list Individual) :
  spread_iteration i (w, log) = Returned (w', log') →
  Forall2 kept_or_infected start (individuals w) →
  Forall2 kept_or_infected start (individuals w').
Proof.
  unfold spread_iteration. intros Hrun Hstart. outcome_inv Hrun.
  destruct (is_infected a); [|by injection Hrun as <- _].
  apply (for_indices_invariant
           (λ s, Forall2 kept_or_infected start (individuals s.1))
           _ _ _ _) in Hrun; [done|done|].
  intros k [w1 l1] [w2 l2] _ Hinv Hbody. by eapply meet_Returned.
Qed.

Lemma spread_iteration_returns `{DiseaseSettings} (i : nat) (w : World)
    (log : list TryInfectCall) :
  i < length (individuals w) →
  ∃ s', spread_iteration i (w, log) = Returned s'
        ∧ length (individuals s'.1) = length (individuals w).
Proof.
  intros Hi. unfold spread_iteration. simpl.
  destruct (at_index_lt _ _ Hi) as [slot [-> _]]. simpl.
  destruct (is_infected slot); [|eauto].
  apply (for_indices_returns
           (λ s, length (individuals s.1) = length (individuals w))); [done|].
  intros k [w1 l1] Hk Hlen. simpl in Hlen. apply elem_of_seq in Hk.
  destruct (meet_returns i k w1 l1) as [s2 [-> Hs2]]; [lia..|].
  eexists. split; [done|]. congruence.
Qed.

Lemma infection_phase_serial_kept_or_infected `{DiseaseSettings} (w w' : World)
    (log : list TryInfectCall) :
  infection_phase_serial w = Returned (w', log) →
  Forall2 kept_or_infected (individuals w) (individuals w').
Proof.
  unfold infection_phase_serial. intros Hrun.
  apply (for_indices_invariant
           (λ s, Forall2 kept_or_infected (individuals w) (individuals s.1))
           _ _ _ _) in Hrun; [done| |].
  - simpl. apply Forall_Forall2_diag, Forall_forall. intros. apply kept_or_infected_refl.
  - intros i [w1 l1] [w2 l2] _ Hinv Hbody. by eapply spread_iteration_Returned.
Qed.

Lemma infection_phase_serial_returns `{DiseaseSettings} (w : World) :
  ∃ r, infection_phase_serial w = Returned r.
Proof.
  unfold infection_phase_serial.
  destruct (for_indices_returns
              (λ s, length (individuals s.1) = length (individuals w))
              spread_iteration (seq 0 (length (individuals w))) (w, []))
    as [r [Hr _]]; [done| |eauto].
  intros i [w1 l1] Hi Hlen. simpl in Hlen. apply elem_of_seq in Hi.
  destruct (spread_iteration_returns i w1 l1) as [s2 [-> Hs2]]; [lia|].
  eexists. split; [done|]. congruence.
Qed.

(** ** One epoch carries the invariants on *)

Lemma progresses_refl (i : Individual) : progresses i i.
Proof. by split. Qed.

Lemma progresses_trans (a b c : Individual) :
  progresses a b → progresses b c → progresses a c.
Proof. intros [? ?] [? ?]. split; auto. Qed.

Lemma moved_within_progresses (m : gmap Z (list Z)) (b a : Individual) :
  moved_within m b a → progresses b a.
Proof.
  intros (_ & Hs & _ & Hh). unfold progresses, hit_consistent.
  rewrite Hs, Hh. auto.
Qed.

Lemma kept_or_infected_progresses (b a : Individual) :
  kept_or_infected b a → progresses b a.
Proof. intros [->|[_ ->]]; [apply progresses_refl|]. by split. Qed.

Lemma advance_epoch_progresses `{DiseaseSettings} (i : Individual) :
  progresses i (advance_epoch i).
Proof.
  split; [by rewrite advance_epoch_ever_hit|apply advance_epoch_hit_consistent].
Qed.

Lemma Forall2_progresses_refl (l : list Individual) : Forall2 progresses l l.
Proof. apply Forall_Forall2_diag, Forall_forall. intros. apply progresses_refl. Qed.

Lemma Forall2_progresses_trans (l1 l2 l3 : list Individual) :
  Forall2 progresses l1 l2 → Forall2 progresses l2 l3 → Forall2 progresses l1 l3.
Proof. apply Forall2_trans. apply progresses_trans. Qed.

Lemma progresses_hit_consistent (l k : list Individual) :
  Forall2 progresses l k → Forall hit_consistent l → Forall hit_consistent k.
Proof.
  intros HF. induction HF as [|x y l k [_ Hxy] _ IH]; intros Hl; [done|].
  apply Forall_cons in Hl as [Hx Hl]. constructor; auto.
Qed.

Lemma kept_or_infected_location (b a : Individual) :
  kept_or_infected b a → location a = location b.
Proof. by intros [->|[_ ->]]. Qed.

Lemma iteration_order_Permutation (rank : nat → nat) (max_index : Z) :
  iteration_order rank max_index ≡ₚ seq 0 (Z.to_nat max_index).
Proof. unfold iteration_order. apply merge_sort_Permutation. Qed.

Lemma iteration_order_NoDup (rank : nat → nat) (max_index : Z) :
  NoDup (iteration_order rank max_index).
Proof. rewrite iteration_order_Permutation. apply NoDup_seq. Qed.

Lemma iteration_order_below (rank : nat → nat) (max_index : Z) (bound : nat) :
  (max_index ≤ Z.of_nat bound)%Z →
  Forall (λ i, i < bound) (iteration_order rank max_index).
Proof.
  intros Hm. rewrite iteration_order_Permutation. apply seq_below. lia.
Qed.

Lemma on_map_same_locations (m : gmap Z (list Z)) (l k : list Individual) :
  Forall2 (λ b a, location a = location b) l k → on_map m l → on_map m k.
Proof.
  unfold on_map. intros HF. induction HF as [|x y l k Hxy _ IH]; intros Hl; [done|].
  apply Forall_cons in Hl as [Hx Hl]. constructor; [by rewrite Hxy|auto].
Qed.

Lemma tally_nonneg (f : Individual → bool) (p : list Individual) (o : list nat) :
  (0 ≤ tally f p o)%Z.
Proof. unfold tally. lia. Qed.

Lemma tally_le (f g : Individual → bool) (p q : list Individual) (o : list nat) :
  (∀ k, k ∈ o → flag_at f p k = true → flag_at g q k = true) →
  (tally f p o ≤ tally g q o)%Z.
Proof.
  intros Hfg. induction o as [|k o IH]; [done|].
  rewrite !tally_cons.
  assert (tally f p o ≤ tally g q o)%Z by (apply IH; intros; apply Hfg; [by right|done]).
  specialize (Hfg k ltac:(left)).
  destruct (flag_at f p k), (flag_at g q k); try lia.
Qed.

Lemma count_nonneg (f : Individual → bool) (l : list Individual) : (0 ≤ count f l)%Z.
Proof. unfold count. lia. Qed.

Lemma count_le (f g : Individual → bool) (l k : list Individual) :
  Forall2 (λ x y, f x = true → g y = true) l k → (count f l ≤ count g k)%Z.
Proof.
  intros HF. induction HF as [|x y l k Hxy _ IH]; [done|].
  rewrite !count_cons. destruct (f x), (g y); try lia.
Qed.

(** The advance loop of [simulate_parallel] applies [advance_epoch] to the
    slots it lists. *)
Lemma advance_loop_progresses `{DiseaseSettings} (order : list nat) (w w' : World)
    (c c' : Z * Z) :
  NoDup order →
  for_indices advance_iteration order (w, c) = Returned (w', c') →
  Forall2 (λ b a, progresses b a ∧ location a = location b)
          (individuals w) (individuals w').
Proof.
  intros Hnd Hrun. destruct c as [h i], c' as [h' i'].
  destruct (advance_loop_spec _ _ _ _ _ _ _ Hnd Hrun) as (Hlen & _ & Hpt & _).
  apply Forall2_same_length_lookup_2; [done|].
  intros k b a Hb Ha. destruct (Hpt k b a Hb Ha) as [Hin Hout].
  destruct (decide (k ∈ order)) as [Hk|Hk].
  - rewrite (Hin Hk). split; [apply advance_epoch_progresses|].
    apply advance_epoch_location.
  - rewrite (Hout Hk). split; [apply progresses_refl|done].
Qed.

Lemma movement_phase_parallel_progresses (m : gmap Z (list Z)) (order : list nat)
    (w w' : World) :
  NoDup order →
  movement_phase_parallel m order w = Returned w' →
  Forall2 progresses (individuals w) (individuals w').
Proof.
  intros Hnd Hrun.
  destruct (movement_phase_parallel_moved _ _ _ _ Hnd Hrun) as [Hlen Hpt].
  apply Forall2_same_length_lookup_2; [done|].
  intros k b a Hb Ha. destruct (Hpt k b a Hb Ha) as [Hin Hout].
  destruct (decide (k ∈ order)) as [Hk|Hk].
  - eapply moved_within_progresses. eauto.
  - rewrite (Hout Hk). apply progresses_refl.
Qed.

(** What one epoch of [simulate_parallel] leaves behind when it returns. *)
Lemma parallel_epoch_Returned `{DiseaseSettings} (schedule : Z → EpochSchedule)
    (st : Statics) (individual_count : Z) (m : gmap Z (list Z)) (e : Z)
    (w w' : World) (stats stats' : list (Z * Z)) :
  parallel_epoch schedule st individual_count m e (w, stats) = Returned (w', stats') →
  ∃ hit infected,
    stats' = stats ++ [(hit, infected)]
    ∧ length (individuals w') = length (individuals w)
    ∧ Forall2 progresses (individuals w) (individuals w')
    ∧ hit = tally counted_hit (individuals w') (seq 0 (Z.to_nat (max_index st)))
    ∧ infected = tally is_infected (individuals w') (seq 0 (Z.to_nat (max_index st))).
Proof.
  unfold parallel_epoch, omp_for_static. intros Hrun.
  destruct (decide (0 < chunk st)%Z) as [Hchunk|Hchunk]; [|done].
  outcome_inv Hrun. rename a into w1.
  outcome_inv Hrun. destruct a as [w2 log].
  outcome_inv Hrun. destruct a as [w3 [hit infected]].
  injection Hrun as <- <-. exists hit, infected. split; [done|].
  pose proof (movement_phase_parallel_progresses _ _ _ _
                (iteration_order_NoDup _ _) Hrun_step) as H1.
  pose proof (infection_phase_parallel_kept_or_infected _ _ _ _ _ Hrun_step0) as H2.
  unfold advance_phase_parallel in Hrun_step1.
  pose proof (advance_loop_progresses _ _ _ _ _
                (iteration_order_NoDup _ _) Hrun_step1) as H3.
  destruct (advance_loop_spec _ _ _ _ _ _ _
              (iteration_order_NoDup _ _) Hrun_step1) as (_ & _ & _ & Hh & Hi).
  split; [|split; [|split]].
  - apply Forall2_length in H1, H2, H3. congruence.
  - eapply Forall2_progresses_trans; [exact H1|].
    eapply Forall2_progresses_trans.
    + eapply Forall2_impl; [exact H2|]. apply kept_or_infected_progresses.
    + eapply Forall2_impl; [exact H3|]. by intros ? ? [? _].
  - rewrite Hh, Z.add_0_l. apply tally_Permutation, iteration_order_Permutation.
  - rewrite Hi, Z.add_0_l. apply tally_Permutation, iteration_order_Permutation.
Qed.

Lemma parallel_epoch_returns `{DiseaseSettings} (schedule : Z → EpochSchedule)
    (st : Statics) (individual_count : Z) (m : gmap Z (list Z)) (e : Z)
    (w : World) (stats : list (Z * Z)) :
  map_closed m → on_map m (individuals w) →
  (0 < chunk st)%Z →
  (max_index st ≤ Z.of_nat (length (individuals w)))%Z →
  (individual_count ≤ Z.of_nat (length (individuals w)))%Z →
  ∃ w' stats', parallel_epoch schedule st individual_count m e (w, stats)
                 = Returned (w', stats')
               ∧ on_map m (individuals w').
Proof.
  intros Hc Hon Hchunk Hmax Hcount. unfold parallel_epoch, omp_for_static.
  destruct (decide (0 < chunk st)%Z); [|done].
  destruct (movement_phase_parallel_returns m
              (iteration_order (move_rank (schedule e)) (max_index st)) w Hc Hon)
    as [w1 [-> [Hon1 Hlen1]]]; [by apply iteration_order_below|]. simpl.
  destruct (infection_phase_parallel_returns individual_count
              (iteration_order (infect_rank (schedule e)) (max_index st)) w1)
    as [[w2 log] Hr2]; [rewrite Hlen1; by apply iteration_order_below|by rewrite Hlen1|].
  rewrite Hr2. simpl.
  pose proof (infection_phase_parallel_kept_or_infected _ _ _ _ _ Hr2) as H2.
  destruct (advance_phase_parallel_returns
              (iteration_order (advance_rank (schedule e)) (max_index st)) w2)
    as [[w3 [hit infected]] Hr3].
  { apply Forall2_length in H2. rewrite <- H2, Hlen1.
    by apply iteration_order_below. }
  rewrite Hr3. simpl. eexists _, _. split; [done|].
  pose proof (advance_loop_progresses _ _ _ _ _ (iteration_order_NoDup _ _) Hr3) as H3.
  eapply on_map_same_locations; [eapply Forall2_impl; [exact H3|]; by intros ? ? [_ ?]|].
  eapply on_map_same_locations; [|exact Hon1].
  eapply Forall2_impl; [exact H2|]. apply kept_or_infected_location.
Qed.

Lemma move_all_progresses (m : gmap Z (list Z)) (population moved : list Individual)
    (g g' : Generator) :
  move_all m population g = Returned (moved, g') →
  Forall2 progresses population moved.
Proof.
  intros Hrun. eapply Forall2_impl; [by eapply move_all_moved|].
  apply moved_within_progresses.
Qed.

Lemma fmap_advance_progresses `{DiseaseSettings} (l : list Individual) :
  Forall2 progresses l (advance_epoch <$> l).
Proof.
  apply Forall2_fmap_r, Forall_Forall2_diag, Forall_forall.
  intros. apply advance_epoch_progresses.
Qed.

(** What one epoch of [simulate_serial] leaves behind when it returns. *)
Lemma serial_epoch_Returned `{DiseaseSettings} (m : gmap Z (list Z)) (e : Z)
    (w w' : World) (stats stats' : list (Z * Z)) :
  serial_epoch m e (w, stats) = Returned (w', stats') →
  ∃ hit infected,
    stats' = stats ++ [(hit, infected)]
    ∧ length (individuals w') = length (individuals w)
    ∧ Forall2 progresses (individuals w) (individuals w')
    ∧ hit = count is_hit (individuals w')
    ∧ infected = count is_infected (individuals w').
Proof.
  unfold serial_epoch. intros Hrun.
  outcome_inv Hrun. destruct a as [moved g].
  outcome_inv Hrun. destruct a as [w2 log].
  rewrite advance_all_spec in Hrun. injection Hrun as <- <-. simpl.
  eexists _, _. split; [by rewrite !Z.add_0_l|].
  pose proof (move_all_progresses _ _ _ _ _ Hrun_step) as H1.
  pose proof (infection_phase_serial_kept_or_infected _ _ _ Hrun_step0) as H2.
  simpl in H2. split; [|split; [|done]].
  - rewrite length_fmap. apply Forall2_length in H1, H2. congruence.
  - eapply Forall2_progresses_trans; [exact H1|].
    eapply Forall2_progresses_trans; [|apply fmap_advance_progresses].
    eapply Forall2_impl; [exact H2|]. apply kept_or_infected_progresses.
Qed.

Lemma serial_epoch_returns `{DiseaseSettings} (m : gmap Z (list Z)) (e : Z)
    (w : World) (stats : list (Z * Z)) :
  map_closed m → on_map m (individuals w) →
  ∃ w' stats', serial_epoch m e (w, stats) = Returned (w', stats')
               ∧ on_map m (individuals w').
Proof.
  intros Hc Hon. unfold serial_epoch.
  destruct (move_all_returns m (individuals w) (generator w) Hc Hon)
    as [moved [g Hr1]]. rewrite Hr1. simpl.
  destruct (infection_phase_serial_returns {| individuals := moved; generator := g |})
    as [[w2 log] Hr2]. rewrite Hr2. simpl.
  rewrite advance_all_spec. eexists _, _. split; [done|]. simpl.
  pose proof (move_all_moved _ _ _ _ _ Hr1) as H1.
  pose proof (infection_phase_serial_kept_or_infected _ _ _ Hr2) as H2. simpl in H2.
  assert (on_map m moved) as Hon1.
  { unfold on_map in *. rewrite Forall_lookup in Hon. apply Forall_lookup.
    intros k a Ha. destruct (Forall2_lookup_r _ _ _ _ _ H1 Ha) as [b [Hb Hm]].
    eapply moved_within_on_map; eauto. }
  eapply on_map_same_locations with (l := individuals w2).
  - apply Forall2_fmap_r, Forall_Forall2_diag, Forall_forall.
    intros. apply advance_epoch_location.
  - eapply on_map_same_locations; [|exact Hon1].
    eapply Forall2_impl; [exact H2|]. apply kept_or_infected_location.
Qed.

(** ** The epoch loop *)

(** A property indexed by the counter and kept by the body holds when the
    loop is left, and the loop is left with the condition false. *)
Lemma epoch_loop_invariant {St} (Q : Z → St → Prop) (fuel : nat) (next : Z → Z)
    (bound : Z) (body : Z → St → outcome St) (e : Z) (s s' : St) :
  Q e s →
  (∀ e1 s1 s2, (e1 < bound)%Z → Q e1 s1 → body e1 s1 = Returned s2 →
               Q (next e1) s2) →
  epoch_loop fuel next bound body e s = Returned s' →
  ∃ e', (bound ≤ e')%Z ∧ Q e' s'.
Proof.
  intros HQ Hbody. revert e s HQ.
  induction fuel as [|fuel IH]; intros e s HQ Hrun; simpl in Hrun; [discriminate|].
  destruct (Z.ltb_spec e bound) as [Hlt|Hge].
  - outcome_inv Hrun. eapply IH; [|exact Hrun]. eapply Hbody; eauto.
  - injection Hrun as <-. exists e. split; [lia|done].
Qed.

(** A loop whose counter counts up to the bound returns, given fuel. *)
Lemma epoch_loop_returns {St} (P : St → Prop) (fuel : nat) (next : Z → Z)
    (bound : Z) (body : Z → St → outcome St) (e : Z) (s : St) :
  (∀ e', (e ≤ e' < bound)%Z → next e' = (e' + 1)%Z) →
  (Z.max 0 (bound - e) < Z.of_nat fuel)%Z →
  P s →
  (∀ e' s1, P s1 → ∃ s2, body e' s1 = Returned s2 ∧ P s2) →
  ∃ s', epoch_loop fuel next bound body e s = Returned s' ∧ P s'.
Proof.
  intros Hnext Hfuel HP Hbody. revert e s Hnext Hfuel HP.
  induction fuel as [|fuel IH]; intros e s Hnext Hfuel HP; simpl.
  - lia.
  - destruct (Z.ltb_spec e bound) as [Hlt|Hge]; [|eauto].
    destruct (Hbody e s HP) as [s2 [-> HP2]]. simpl.
    rewrite (Hnext e) by lia. apply IH; [|lia|done].
    intros e' He'. apply Hnext. lia.
Qed.

(** With [total_epochs = 255] the condition [current_epoch < 256] holds for
    every value of the [std::uint8_t] counter: the loop is never left. *)
Lemma epoch_loop_uint8_never_returns {St} (fuel : nat) (body : Z → St → outcome St)
    (e : Z) (s s' : St) :
  (0 ≤ e < UINT8_MODULUS)%Z →
  epoch_loop fuel uint8_succ (255 + 1)%Z body e s ≠ Returned s'.
Proof.
  revert e s. induction fuel as [|fuel IH]; intros e s He; simpl; [discriminate|].
  unfold UINT8_MODULUS in He.
  destruct (Z.ltb_spec e (255 + 1)) as [_|Hge]; [|lia].
  destruct (body e s) as [s1| | |]; simpl; try discriminate.
  apply IH. unfold uint8_succ, UINT8_MODULUS.
  apply Z.mod_pos_bound. lia.
Qed.

(** ** Whole runs *)

Lemma nondecreasing_snoc (l : list Z) (x : Z) :
  nondecreasing l → (∀ a, last l = Some a → (a ≤ x)%Z) → nondecreasing (l ++ [x]).
Proof.
  intros Hl Hlast k a b Ha Hb.
  destruct (decide (S k < length l)) as [Hlt|Hge].
  - rewrite lookup_app_l in Ha by lia. rewrite lookup_app_l in Hb by lia. eauto.
  - assert (S k = length l) as Hk.
    { apply lookup_lt_Some in Hb. rewrite length_app in Hb. simpl in Hb. lia. }
    rewrite lookup_app_l in Ha by lia.
    rewrite Hk, lookup_app_r in Hb by lia. rewrite Nat.sub_diag in Hb.
    injection Hb as <-. apply Hlast. rewrite last_lookup.
    rewrite <- Hk. simpl. done.
Qed.

Lemma run_entries_start (prior : list (Z * Z)) : run_entries prior 0 prior [].
Proof. unfold run_entries. by rewrite app_nil_r. Qed.

Lemma run_entries_snoc (prior stats new : list (Z * Z)) (e hit infected : Z) :
  run_entries prior e stats new → (0 ≤ infected)%Z →
  run_entries prior (e + 1) (stats ++ [(hit, infected)]) (new ++ [(hit, infected)]).
Proof.
  intros (-> & <- & Hpos) Hi. unfold run_entries.
  rewrite app_assoc, length_app. simpl. split; [done|]. split; [lia|].
  apply Forall_app. split; [done|]. by constructor.
Qed.

Lemma tally_counted_hit_grows (p q : list Individual) (o : list nat) :
  Forall2 progresses p q → Forall hit_consistent p →
  (tally counted_hit p o ≤ tally counted_hit q o)%Z.
Proof.
  intros Hpq Hp. apply tally_le. intros k _. unfold flag_at.
  destruct (p !! k) as [b|] eqn:Hb; [|discriminate].
  destruct (Forall2_lookup_l _ _ _ _ _ Hpq Hb) as [a [-> [Hhit _]]].
  rewrite Forall_lookup in Hp. rewrite (counted_hit_consistent b) by eauto.
  unfold counted_hit, is_hit. intros Hbh. rewrite (Hhit Hbh). apply orb_true_r.
Qed.

Lemma count_is_hit_grows (p q : list Individual) :
  Forall2 progresses p q → (count is_hit p ≤ count is_hit q)%Z.
Proof.
  intros Hpq. apply count_le. eapply Forall2_impl; [exact Hpq|].
  intros b a [Hhit _]. exact Hhit.
Qed.

Lemma count_infected_le_hit (l : list Individual) :
  Forall hit_consistent l → (count is_infected l ≤ count is_hit l)%Z.
Proof.
  intros Hl. apply count_le. apply Forall_Forall2_diag.
  eapply Forall_impl; [exact Hl|]. intros x Hx Hi.
  apply is_infected_true in Hi. by apply Hx.
Qed.

Lemma tally_infected_le_hit (p : list Individual) (o : list nat) :
  (tally is_infected p o ≤ tally counted_hit p o)%Z.
Proof.
  apply tally_le. intros k _. unfold flag_at, counted_hit.
  destruct (p !! k); [|done]. intros ->. done.
Qed.

Lemma last_snoc_fst (new : list (Z * Z)) (en en' : Z * Z) :
  last (new ++ [en]) = Some en' → en' = en.
Proof. rewrite last_snoc. congruence. Qed.

Lemma parallel_run_inv_step `{DiseaseSettings} (schedule : Z → EpochSchedule)
    (st : Statics) (individual_count : Z) (m : gmap Z (list Z))
    (prior : list (Z * Z)) (start : list Individual) (e : Z)
    (s1 s2 : World * list (Z * Z)) :
  parallel_run_inv prior start (max_index st) e s1 →
  parallel_epoch schedule st individual_count m e s1 = Returned s2 →
  parallel_run_inv prior start (max_index st) (e + 1) s2.
Proof.
  destruct s1 as [w stats], s2 as [w' stats'].
  intros (new & Hent & Hprog & Hle & Hmono) Hrun.
  apply parallel_epoch_Returned in Hrun
    as (hit & infected & -> & Hlen & Hstep & Hhit & Hinf).
  exists (new ++ [(hit, infected)]). simpl in *. split; [|split; [|split]].
  - apply run_entries_snoc; [done|]. rewrite Hinf. apply tally_nonneg.
  - by eapply Forall2_progresses_trans.
  - apply Forall_app. split; [done|]. constructor; [|done]. simpl.
    rewrite Hhit, Hinf. apply tally_infected_le_hit.
  - intros Hcons. destruct (Hmono Hcons) as [Hnd Hlast].
    rewrite fmap_app. simpl. split.
    + apply nondecreasing_snoc; [done|]. intros a Ha.
      rewrite fmap_last in Ha. destruct (last new) as [en|] eqn:Hen; [|done].
      injection Ha as <-. rewrite (Hlast en eq_refl), Hhit.
      apply tally_counted_hit_grows; [done|].
      by eapply progresses_hit_consistent.
    + intros en Hen. apply last_snoc_fst in Hen. by subst en.
Qed.

Lemma serial_run_inv_step `{DiseaseSettings} (m : gmap Z (list Z))
    (start : list Individual) (e : Z) (s1 s2 : World * list (Z * Z)) :
  serial_run_inv start e s1 →
  serial_epoch m e s1 = Returned s2 →
  serial_run_inv start (e + 1) s2.
Proof.
  destruct s1 as [w stats], s2 as [w' stats'].
  intros (new & Hent & Hprog & Hle & Hnd & Hlast) Hrun.
  apply serial_epoch_Returned in Hrun
    as (hit & infected & -> & Hlen & Hstep & Hhit & Hinf).
  exists (new ++ [(hit, infected)]). simpl in *. split; [|split; [|split; [|split]]].
  - apply run_entries_snoc; [done|]. rewrite Hinf. apply count_nonneg.
  - by eapply Forall2_progresses_trans.
  - intros Hcons. apply Forall_app. split; [auto|]. constructor; [|done]. simpl.
    rewrite Hhit, Hinf. apply count_infected_le_hit.
    eapply progresses_hit_consistent; [|exact Hcons].
    by eapply Forall2_progresses_trans.
  - rewrite fmap_app. simpl. apply nondecreasing_snoc; [done|]. intros a Ha.
    rewrite fmap_last in Ha. destruct (last new) as [en|] eqn:Hen; [|done].
    injection Ha as <-. rewrite (Hlast en eq_refl), Hhit.
    by apply count_is_hit_grows.
  - intros en Hen. apply last_snoc_fst in Hen. by subst en.
Qed.

Lemma parallel_run_inv_start (prior : list (Z * Z)) (start : list Individual) (M : Z)
    (w : World) :
  individuals w = start → parallel_run_inv prior start M 0 (w, prior).
Proof.
  intros <-. exists []. simpl. split; [apply run_entries_start|].
  split; [apply Forall2_progresses_refl|]. split; [done|].
  intros _. split; [|done]. intros k a b Ha. done.
Qed.

Lemma serial_run_inv_start (w : World) : serial_run_inv (individuals w) 0 (w, []).
Proof.
  exists []. simpl. split; [apply run_entries_start|].
  split; [apply Forall2_progresses_refl|]. split; [done|].
  split; [|done]. intros k a b Ha. done.
Qed.

(** What a returning call of [simulate_parallel] leaves behind. *)
Lemma simulate_parallel_Returned `{DiseaseSettings} (fuel : nat)
    (schedule : Z → EpochSchedule) (statics : option Statics)
    (individual_count total_epochs : Z) (graph : LocationUndirectedGraph)
    (w w' : World) (prior stats : list (Z * Z)) (st : Statics) :
  (0 ≤ total_epochs ≤ 255)%Z →
  simulate_parallel fuel schedule statics individual_count total_epochs graph w prior
    = Returned (st, w', stats) →
  st = enter_statics statics (individuals w)
  ∧ (total_epochs ≤ 254)%Z
  ∧ parallel_run_inv prior (individuals w) (max_index st) (total_epochs + 1) (w', stats).
Proof.
  intros Hte Hrun. unfold simulate_parallel in Hrun.
  outcome_inv Hrun. rename a into m.
  outcome_inv Hrun. destruct a as [w1 stats1]. injection Hrun as <- <- <-.
  split; [done|].
  destruct (decide (total_epochs = 255%Z)) as [->|Hne].
  { exfalso. by eapply epoch_loop_uint8_never_returns in Hrun_step0. }
  split; [lia|].
  apply (epoch_loop_invariant
           (λ e s, (0 ≤ e ≤ total_epochs + 1)%Z
                   ∧ parallel_run_inv prior (individuals w)
                       (max_index (enter_statics statics (individuals w))) e s))
    in Hrun_step0 as [e' [He' [Hrange Hinv]]].
  - by replace (total_epochs + 1)%Z with e' by lia.
  - split; [lia|]. by eapply parallel_run_inv_start.
  - intros e1 s1 s2 Hlt [Hrange Hinv] Hbody.
    assert (uint8_succ e1 = (e1 + 1)%Z) as ->.
    { unfold uint8_succ, UINT8_MODULUS. apply Z.mod_small. lia. }
    split; [lia|]. by eapply parallel_run_inv_step.
Qed.

(** What a returning call of [simulate_serial] leaves behind. *)
Lemma simulate_serial_Returned `{DiseaseSettings} (fuel : nat)
    (individual_count total_epochs : Z) (graph : LocationUndirectedGraph)
    (w w' : World) (stats : list (Z * Z)) :
  (0 ≤ total_epochs)%Z →
  simulate_serial fuel individual_count total_epochs graph w = Returned (w', stats) →
  total_epochs ≠ INT_MAX
  ∧ serial_run_inv (individuals w) (total_epochs + 1) (w', stats).
Proof.
  intros Hte Hrun. unfold simulate_serial in Hrun.
  outcome_inv Hrun. rename a into m. case_decide; [discriminate|].
  split; [done|].
  apply (epoch_loop_invariant
           (λ e s, (0 ≤ e ≤ total_epochs + 1)%Z ∧ serial_run_inv (individuals w) e s))
    in Hrun as [e' [He' [Hrange Hinv]]].
  - by replace (total_epochs + 1)%Z with e' by lia.
  - split; [lia|]. apply serial_run_inv_start.
  - intros e1 s1 s2 Hlt [Hrange Hinv] Hbody.
    split; [lia|]. replace (Z.succ e1) with (e1 + 1)%Z by lia.
    by eapply serial_run_inv_step.
Qed.

(** [simulate_parallel] returns on a population that stands on the graph,
    when the loops stay within the vector and the epoch counter does not
    wrap. *)
Lemma simulate_parallel_returns `{DiseaseSettings} (fuel : nat)
    (schedule : Z → EpochSchedule) (statics : option Statics)
    (individual_count total_epochs : Z) (graph : LocationUndirectedGraph)
    (w : World) (prior : list (Z * Z)) :
  graph_closed graph → num_vertices graph ≠ 0 → on_graph graph (individuals w) →
  (0 < chunk (enter_statics statics (individuals w)))%Z →
  (max_index (enter_statics statics (individuals w))
   ≤ Z.of_nat (length (individuals w)))%Z →
  (individual_count ≤ Z.of_nat (length (individuals w)))%Z →
  (0 ≤ total_epochs ≤ 254)%Z → (total_epochs + 1 < Z.of_nat fuel)%Z →
  ∃ st w' stats,
    simulate_parallel fuel schedule statics individual_count total_epochs graph w prior
      = Returned (st, w', stats)
    ∧ on_graph graph (individuals w').
Proof.
  intros Hclosed Hnv Hon Hchunk Hmax Hcount Hte Hfuel. unfold simulate_parallel.
  destruct (lookup_map_returns graph Hnv) as [m Hm]. rewrite Hm. simpl.
  pose proof (lookup_map_closed _ _ Hclosed Hm) as Hc.
  set (st := enter_statics statics (individuals w)) in *.
  destruct (epoch_loop_returns
              (λ s : World * list (Z * Z),
                 on_map m (individuals s.1)
                 ∧ length (individuals s.1) = length (individuals w))
              fuel uint8_succ (total_epochs + 1)%Z
              (parallel_epoch schedule st individual_count m) 0%Z (w, prior))
    as [[w' stats] [Hrun [Hon' _]]].
  - intros e' He'. unfold uint8_succ, UINT8_MODULUS. apply Z.mod_small. lia.
  - lia.
  - simpl. split; [|done]. by apply (on_graph_on_map graph m).
  - intros e' [w1 stats1] [Hon1 Hlen1]. simpl in Hon1, Hlen1.
    destruct (parallel_epoch_returns schedule st individual_count m e' w1 stats1)
      as [w2 [stats2 [Hrun Hon2]]]; [done|done|done|by rewrite Hlen1..|].
    exists (w2, stats2). split; [done|]. simpl. split; [done|].
    apply parallel_epoch_Returned in Hrun as (_ & _ & _ & Hlen & _). congruence.
  - rewrite Hrun. simpl. exists st, w', stats. split; [done|].
    by apply (on_graph_on_map graph m).
Qed.

(** [simulate_serial] returns on a population that stands on the graph. *)
Lemma simulate_serial_returns `{DiseaseSettings} (fuel : nat)
    (individual_count total_epochs : Z) (graph : LocationUndirectedGraph) (w : World) :
  graph_closed graph → num_vertices graph ≠ 0 → on_graph graph (individuals w) →
  (0 ≤ total_epochs < INT_MAX)%Z → (total_epochs + 1 < Z.of_nat fuel)%Z →
  ∃ w' stats,
    simulate_serial fuel individual_count total_epochs graph w = Returned (w', stats)
    ∧ on_graph graph (individuals w').
Proof.
  intros Hclosed Hnv Hon Hte Hfuel. unfold simulate_serial.
  destruct (lookup_map_returns graph Hnv) as [m Hm]. rewrite Hm. simpl.
  pose proof (lookup_map_closed _ _ Hclosed Hm) as Hc.
  case_decide; [lia|].
  destruct (epoch_loop_returns
              (λ s : World * list (Z * Z), on_map m (individuals s.1))
              fuel Z.succ (total_epochs + 1)%Z (serial_epoch m) 0%Z (w, []))
    as [[w' stats] [Hrun Hon']].
  - intros. lia.
  - lia.
  - simpl. by apply (on_graph_on_map graph m).
  - intros e' [w1 stats1] Hon1. simpl in Hon1.
    destruct (serial_epoch_returns m e' w1 stats1) as [w2 [stats2 [Hrun Hon2]]];
      [done..|].
    by exists (w2, stats2).
  - exists w', stats. split; [done|]. by apply (on_graph_on_map graph m).
Qed.

(** What a call of [simulate_parallel] on a well-formed input returns: the
    caller's statistics followed by one entry per epoch. *)
Lemma simulate_parallel_appends_once `{DiseaseSettings} (fuel : nat)
    (schedule : Z → EpochSchedule) (statics : option Statics)
    (individual_count total_epochs : Z) (graph : LocationUndirectedGraph)
    (w : World) (prior : list (Z * Z)) :
  graph_closed graph → num_vertices graph ≠ 0 → on_graph graph (individuals w) →
  (0 < chunk (enter_statics statics (individuals w)))%Z →
  (max_index (enter_statics statics (individuals w))
   ≤ Z.of_nat (length (individuals w)))%Z →
  (individual_count ≤ Z.of_nat (length (individuals w)))%Z →
  (0 ≤ total_epochs ≤ 254)%Z → (total_epochs + 1 < Z.of_nat fuel)%Z →
  ∃ w' new,
    simulate_parallel fuel schedule statics individual_count total_epochs graph w prior
      = Returned (enter_statics statics (individuals w), w', prior ++ new)
    ∧ length new = Z.to_nat (total_epochs + 1).
Proof.
  intros Hclosed Hnv Hon Hchunk Hmax Hcount Hte Hfuel.
  destruct (simulate_parallel_returns fuel schedule statics individual_count
              total_epochs graph w prior) as (st & w' & stats & Hrun & _); try done.
  assert (0 ≤ total_epochs ≤ 255)%Z as Hte' by lia.
  destruct (simulate_parallel_Returned _ _ _ _ _ _ _ _ _ _ _ Hte' Hrun)
    as (-> & _ & new & (Hstats & Hlen & _) & _).
  simpl in Hstats. subst stats. exists w', new. split; [done|]. lia.
Qed.

(** C10: [simulate_parallel] appends to the vector of its caller and never
    clears it.  Every call that returns leaves the prior contents of the
    vector followed by [total_epochs + 1] new entries.  A call on a
    well-formed input whose [chunk] is positive does return, and a second
    call that is handed the same vector, with the function's static
    variables as the first call left them, returns the contents the first
    call left followed by its own [total_epochs + 1] entries. *)
Theorem simulate_parallel_accumulates `{DiseaseSettings}
    (prior : list (Z * Z)) (statics : option Statics)
    (fuel1 : nat) (schedule1 : Z → EpochSchedule) (count1 epochs1 : Z)
    (graph1 : LocationUndirectedGraph) (w1 : World)
    (fuel2 : nat) (schedule2 : Z → EpochSchedule) (count2 epochs2 : Z)
    (graph2 : LocationUndirectedGraph) (w2 : World)
    (Hclosed1 : graph_closed graph1) (Hvertices1 : num_vertices graph1 ≠ 0)
    (Hon1 : on_graph graph1 (individuals w1))
    (Hchunk : (0 < chunk (enter_statics statics (individuals w1)))%Z)
    (Hmax1 : (max_index (enter_statics statics (individuals w1))
              ≤ Z.of_nat (length (individuals w1)))%Z)
    (Hcount1 : (count1 ≤ Z.of_nat (length (individuals w1)))%Z)
    (Hepochs1 : (0 ≤ epochs1 ≤ 254)%Z) (Hfuel1 : (epochs1 + 1 < Z.of_nat fuel1)%Z)
    (Hclosed2 : graph_closed graph2) (Hvertices2 : num_vertices graph2 ≠ 0)
    (Hon2 : on_graph graph2 (individuals w2))
    (Hmax2 : (max_index (enter_statics statics (individuals w1))
              ≤ Z.of_nat (length (individuals w2)))%Z)
    (Hcount2 : (count2 ≤ Z.of_nat (length (individuals w2)))%Z)
    (Hepochs2 : (0 ≤ epochs2 ≤ 254)%Z) (Hfuel2 : (epochs2 + 1 < Z.of_nat fuel2)%Z) :
  (∃ st w1' new1 w2' new2,
     simulate_parallel fuel1 schedule1 statics count1 epochs1 graph1 w1 prior
       = Returned (st, w1', prior ++ new1)
     ∧ length new1 = Z.to_nat (epochs1 + 1)
     ∧ simulate_parallel fuel2 schedule2 (Some st) count2 epochs2 graph2 w2
         (prior ++ new1)
       = Returned (st, w2', prior ++ new1 ++ new2)
     ∧ length new2 = Z.to_nat (epochs2 + 1))
  ∧ (∀ fuel schedule previous count epochs graph w before st w' after,
       (0 ≤ epochs ≤ 255)%Z →
       simulate_parallel fuel schedule previous count epochs graph w before
         = Returned (st, w', after) →
       ∃ new, after = before ++ new ∧ length new = Z.to_nat (epochs + 1)).
Proof.
  split.
  - destruct (simulate_parallel_appends_once fuel1 schedule1 statics count1 epochs1
                graph1 w1 prior) as (w1' & new1 & Hrun1 & Hlen1); try done.
    set (st := enter_statics statics (individuals w1)) in *.
    destruct (simulate_parallel_appends_once fuel2 schedule2 (Some st) count2 epochs2
                graph2 w2 (prior ++ new1)) as (w2' & new2 & Hrun2 & Hlen2); try done.
    exists st, w1', new1, w2', new2. simpl in Hrun2.
    rewrite <- app_assoc in Hrun2. done.
  - intros fuel schedule previous count_ epochs graph w before st w' after Hepochs Hrun.
    destruct (simulate_parallel_Returned _ _ _ _ _ _ _ _ _ _ _ Hepochs Hrun)
      as (_ & _ & new & (Hstats & Hlen & _) & _).
    simpl in Hstats. exists new. split; [done|]. lia.
Qed.

(** C6, at the input on which the code fails: with [total_epochs = 255] the
    call of [simulate_parallel] never returns, whatever the fuel, the
    interleaving, the graph and the population, because the
    [std::uint8_t] counter wraps from 255 to 0 and stays below the bound 256;
    no run of 256 entries is produced. *)
Theorem simulate_parallel_255_never_returns `{DiseaseSettings} (fuel : nat)
    (schedule : Z → EpochSchedule) (statics : option Statics) (individual_count : Z)
    (graph : LocationUndirectedGraph) (w : World) (prior : list (Z * Z))
    (result : Statics * World * list (Z * Z)) :
  simulate_parallel fuel schedule statics individual_count 255 graph w prior
  ≠ Returned result.
Proof.
  intros Hrun. unfold simulate_parallel in Hrun.
  outcome_inv Hrun. outcome_inv Hrun.
  by eapply epoch_loop_uint8_never_returns in Hrun_step0.
Qed.

(** The sibling [simulate_serial] counts its epochs with an [int] and
    returns one entry per epoch for every [total_epochs] below [INT_MAX],
    255 included. *)
Lemma simulate_serial_entries `{DiseaseSettings} (fuel : nat)
    (individual_count total_epochs : Z) (graph : LocationUndirectedGraph) (w : World) :
  graph_closed graph → num_vertices graph ≠ 0 → on_graph graph (individuals w) →
  (0 ≤ total_epochs < INT_MAX)%Z → (total_epochs + 1 < Z.of_nat fuel)%Z →
  ∃ w' stats,
    simulate_serial fuel individual_count total_epochs graph w = Returned (w', stats)
    ∧ length stats = Z.to_nat (total_epochs + 1).
Proof.
  intros Hclosed Hnv Hon Hte Hfuel.
  destruct (simulate_serial_returns fuel individual_count total_epochs graph w)
    as (w' & stats & Hrun & _); try done.
  exists w', stats. split; [done|].
  assert (0 ≤ total_epochs)%Z as Hte' by lia.
  destruct (simulate_serial_Returned _ _ _ _ _ _ _ Hte' Hrun)
    as (_ & new & (Hstats & Hlen & _) & _).
  simpl in Hstats. subst stats. lia.
Qed.

(** C3: every entry that a run appends has [infected_count ≤ hit_count].
    For [simulate_parallel] this holds of the entries added to the caller's
    vector by any returning call; for [simulate_serial], which counts the two
    flags separately, it holds of all entries when the population it is
    handed satisfies the class invariant of [Individual]. *)
Theorem infected_count_le_hit_count `{DiseaseSettings}
    (fuel : nat) (schedule : Z → EpochSchedule) (statics : option Statics)
    (individual_count total_epochs : Z) (graph : LocationUndirectedGraph)
    (w w' : World) (prior stats : list (Z * Z)) (st : Statics)
    (fuel_s : nat) (individual_count_s total_epochs_s : Z)
    (graph_s : LocationUndirectedGraph) (ws ws' : World) (stats_s : list (Z * Z))
    (Hepochs : (0 ≤ total_epochs ≤ 255)%Z)
    (Hparallel : simulate_parallel fuel schedule statics individual_count
                   total_epochs graph w prior = Returned (st, w', stats))
    (Hepochs_s : (0 ≤ total_epochs_s)%Z)
    (Hconsistent : Forall hit_consistent (individuals ws))
    (Hserial : simulate_serial fuel_s individual_count_s total_epochs_s graph_s ws
               = Returned (ws', stats_s)) :
  (∃ new, stats = prior ++ new
          ∧ length new = Z.to_nat (total_epochs + 1)
          ∧ Forall (λ entry : Z * Z, entry.2 ≤ entry.1)%Z new)
  ∧ length stats_s = Z.to_nat (total_epochs_s + 1)
  ∧ Forall (λ entry : Z * Z, entry.2 ≤ entry.1)%Z stats_s.
Proof.
  split.
  - destruct (simulate_parallel_Returned _ _ _ _ _ _ _ _ _ _ _ Hepochs Hparallel)
      as (_ & _ & new & (Hstats & Hlen & _) & _ & Hle & _).
    exists new. repeat split; [done|lia|done].
  - destruct (simulate_serial_Returned _ _ _ _ _ _ _ Hepochs_s Hserial)
      as (_ & new & (Hstats & Hlen & _) & _ & Hle & _).
    simpl in Hstats. subst stats_s. split; [lia|auto].
Qed.

(** C4: within one run the hit count never decreases from one entry to the
    next.  For [simulate_serial] this holds of every returning run; for
    [simulate_parallel], which also counts an infected individual as hit, it
    holds of the entries the call appends when the population it is handed
    satisfies the class invariant of [Individual]. *)
Theorem hit_count_never_decreases `{DiseaseSettings}
    (fuel : nat) (schedule : Z → EpochSchedule) (statics : option Statics)
    (individual_count total_epochs : Z) (graph : LocationUndirectedGraph)
    (w w' : World) (prior stats : list (Z * Z)) (st : Statics)
    (fuel_s : nat) (individual_count_s total_epochs_s : Z)
    (graph_s : LocationUndirectedGraph) (ws ws' : World) (stats_s : list (Z * Z))
    (Hepochs : (0 ≤ total_epochs ≤ 255)%Z)
    (Hconsistent : Forall hit_consistent (individuals w))
    (Hparallel : simulate_parallel fuel schedule statics individual_count
                   total_epochs graph w prior = Returned (st, w', stats))
    (Hepochs_s : (0 ≤ total_epochs_s)%Z)
    (Hserial : simulate_serial fuel_s individual_count_s total_epochs_s graph_s ws
               = Returned (ws', stats_s)) :
  (∃ new, stats = prior ++ new
          ∧ length new = Z.to_nat (total_epochs + 1)
          ∧ ∀ k earlier later,
              new !! k = Some earlier → new !! S k = Some later →
              (earlier.1 ≤ later.1)%Z)
  ∧ length stats_s = Z.to_nat (total_epochs_s + 1)
  ∧ ∀ k earlier later,
      stats_s !! k = Some earlier → stats_s !! S k = Some later →
      (earlier.1 ≤ later.1)%Z.
Proof.
  split.
  - destruct (simulate_parallel_Returned _ _ _ _ _ _ _ _ _ _ _ Hepochs Hparallel)
      as (_ & _ & new & (Hstats & Hlen & _) & _ & _ & Hmono).
    destruct (Hmono Hconsistent) as [Hnd _].
    exists new. repeat split; [done|lia|].
    intros k a b Ha Hb. apply (Hnd k); rewrite list_lookup_fmap; [by rewrite Ha|by rewrite Hb].
  - destruct (simulate_serial_Returned _ _ _ _ _ _ _ Hepochs_s Hserial)
      as (_ & new & (Hstats & Hlen & _) & _ & _ & Hnd & _).
    simpl in Hstats. subst stats_s. split; [lia|].
    intros k a b Ha Hb. apply (Hnd k); rewrite list_lookup_fmap; [by rewrite Ha|by rewrite Hb].
Qed.

(** ** Errors are raised before the epoch loop only *)

Lemma never_raises_bind {A B} (m : outcome A) (f : A → outcome B) :
  never_raises m → (∀ a, never_raises (f a)) → never_raises (m ≫= f).
Proof.
  intros Hm Hf e. destruct m as [a| e'| |]; simpl; try discriminate.
  - apply Hf.
  - intros _. by apply (Hm e').
Qed.

Lemma never_raises_Returned {A} (a : A) : never_raises (Returned a).
Proof. intros e. discriminate. Qed.

Lemma never_raises_Undefined {A} : never_raises (@Undefined A).
Proof. intros e. discriminate. Qed.

Lemma never_raises_at_index {A} (v : list A) (i : nat) : never_raises (at_index v i).
Proof. unfold at_index. destruct (v !! i); intros e; discriminate. Qed.

Create HintDb quiet.
#[local] Hint Resolve never_raises_Returned never_raises_Undefined
  never_raises_at_index : quiet.

Ltac quiet_step :=
  first [ apply never_raises_bind; [|intros ?]
        | progress auto with quiet ].

Lemma never_raises_for_indices {St} (body : nat → St → outcome St)
    (order : list nat) (s : St) :
  (∀ i s', never_raises (body i s')) → never_raises (for_indices body order s).
Proof.
  intros Hbody. revert s. induction order as [|i order IH]; intros s; simpl.
  - auto with quiet.
  - apply never_raises_bind; auto.
Qed.

Lemma never_raises_move (i : Individual) (nb : list Z) (g : Generator) :
  never_raises (move i nb g).
Proof.
  unfold move. destruct (next_draw g) as [d g']. destruct (nb !! _); auto with quiet.
Qed.

Lemma never_raises_move_iteration (m : gmap Z (list Z)) (index : nat) (w : World) :
  never_raises (move_iteration m index w).
Proof.
  unfold move_iteration. quiet_step; [quiet_step|].
  apply never_raises_bind; [apply never_raises_move|].
  intros [moved g]. auto with quiet.
Qed.

Lemma never_raises_scan_affecting `{DiseaseSettings} (population : list Individual)
    (index : nat) (affecting : list nat) (current : Individual) (g : Generator) :
  never_raises (scan_affecting population index affecting current g).
Proof.
  revert current g. induction affecting as [|a rest IH]; intros current g; simpl.
  - auto with quiet.
  - apply never_raises_bind; [auto with quiet|]. intros x.
    destruct (is_infected x && _); [|apply IH].
    destruct (try_infect current g) as [tried g1].
    destruct (is_infected tried); [auto with quiet|].
    apply never_raises_bind; [apply IH|]. intros [[saved g2] calls]. auto with quiet.
Qed.

Lemma never_raises_infect_iteration `{DiseaseSettings} (individual_count : Z)
    (index : nat) (s : World * list TryInfectCall) :
  never_raises (infect_iteration individual_count index s).
Proof.
  unfold infect_iteration. destruct s as [w log].
  apply never_raises_bind; [auto with quiet|]. intros slot.
  destruct (is_infected slot); [auto with quiet|].
  apply never_raises_bind; [apply never_raises_scan_affecting|].
  intros [[saved g] calls]. auto with quiet.
Qed.

Lemma never_raises_advance_iteration `{DiseaseSettings} (index : nat)
    (s : World * (Z * Z)) :
  never_raises (advance_iteration index s).
Proof.
  unfold advance_iteration. destruct s as [w [h i]].
  apply never_raises_bind; [auto with quiet|]. intros slot.
  destruct (is_infected _); [auto with quiet|].
  destruct (is_hit _); auto with quiet.
Qed.

Lemma never_raises_parallel_epoch `{DiseaseSettings} (schedule : Z → EpochSchedule)
    (st : Statics) (individual_count : Z) (m : gmap Z (list Z)) (e : Z)
    (s : World * list (Z * Z)) :
  never_raises (parallel_epoch schedule st individual_count m e s).
Proof.
  unfold parallel_epoch, omp_for_static. destruct s as [w stats].
  destruct (decide (0 < chunk st)%Z); [|by intros ?].
  apply never_raises_bind.
  { apply never_raises_for_indices. intros. apply never_raises_move_iteration. }
  intros w1. apply never_raises_bind.
  { apply never_raises_for_indices. intros. apply never_raises_infect_iteration. }
  intros [w2 log]. apply never_raises_bind.
  { apply never_raises_for_indices. intros. apply never_raises_advance_iteration. }
  intros [w3 [h i]]. auto with quiet.
Qed.

Lemma never_raises_move_all (m : gmap Z (list Z)) (population : list Individual)
    (g : Generator) :
  never_raises (move_all m population g).
Proof.
  revert g. induction population as [|x l IH]; intros g; simpl; [auto with quiet|].
  apply never_raises_bind; [apply never_raises_move|]. intros [moved g1].
  apply never_raises_bind; [apply IH|]. intros [rest g2]. auto with quiet.
Qed.

Lemma never_raises_meet `{DiseaseSettings} (i a : nat) (s : World * list TryInfectCall) :
  never_raises (meet i a s).
Proof.
  unfold meet. destruct s as [w log]. case_decide; [|auto with quiet].
  apply never_raises_bind; [auto with quiet|]. intros src.
  apply never_raises_bind; [auto with quiet|]. intros tgt.
  case_bool_decide; [|auto with quiet].
  destruct (try_infect tgt (generator w)). auto with quiet.
Qed.

Lemma never_raises_spread_iteration `{DiseaseSettings} (i : nat)
    (s : World * list TryInfectCall) :
  never_raises (spread_iteration i s).
Proof.
  unfold spread_iteration. apply never_raises_bind; [auto with quiet|]. intros slot.
  destruct (is_infected slot); [|auto with quiet].
  apply never_raises_for_indices. intros. apply never_raises_meet.
Qed.

Lemma never_raises_serial_epoch `{DiseaseSettings} (m : gmap Z (list Z)) (e : Z)
    (s : World * list (Z * Z)) :
  never_raises (serial_epoch m e s).
Proof.
  unfold serial_epoch. destruct s as [w stats].
  apply never_raises_bind; [apply never_raises_move_all|]. intros [moved g].
  apply never_raises_bind.
  { apply never_raises_for_indices. intros. apply never_raises_spread_iteration. }
  intros [w2 log]. destruct (advance_all _ _ _). auto with quiet.
Qed.

Lemma never_raises_epoch_loop {St} (fuel : nat) (next : Z → Z) (bound : Z)
    (body : Z → St → outcome St) (e : Z) (s : St) :
  (∀ e' s', never_raises (body e' s')) →
  never_raises (epoch_loop fuel next bound body e s).
Proof.
  intros Hbody. revert e s. induction fuel as [|fuel IH]; intros e s; simpl.
  - intros x. discriminate.
  - destruct (e <? bound)%Z; [|auto with quiet].
    apply never_raises_bind; auto.
Qed.

(** The only error the two drivers can raise is [InvalidGraph], raised when
    the look-up map is built, before the first epoch. *)
Lemma simulate_parallel_Raised `{DiseaseSettings} (fuel : nat)
    (schedule : Z → EpochSchedule) (statics : option Statics)
    (individual_count total_epochs : Z) (graph : LocationUndirectedGraph)
    (w : World) (prior : list (Z * Z)) (e : failure) :
  simulate_parallel fuel schedule statics individual_count total_epochs graph w prior
    = Raised e →
  e = InvalidGraph ∧ num_vertices graph = 0.
Proof.
  unfold simulate_parallel, get_node_neighborhood_lookup_map.
  destruct (decide (num_vertices graph = 0)); simpl; [intros [= <-]; done|].
  intros Hrun. exfalso. revert Hrun.
  apply never_raises_bind.
  - apply never_raises_epoch_loop. intros. apply never_raises_parallel_epoch.
  - intros [w' stats]. auto with quiet.
Qed.

Lemma simulate_serial_Raised `{DiseaseSettings} (fuel : nat)
    (individual_count total_epochs : Z) (graph : LocationUndirectedGraph)
    (w : World) (e : failure) :
  simulate_serial fuel individual_count total_epochs graph w = Raised e →
  e = InvalidGraph ∧ num_vertices graph = 0.
Proof.
  unfold simulate_serial, get_node_neighborhood_lookup_map.
  destruct (decide (num_vertices graph = 0)); simpl; [intros [= <-]; done|].
  case_decide; [intros ?; discriminate|].
  intros Hrun. exfalso. revert Hrun.
  apply never_raises_epoch_loop. intros. apply never_raises_serial_epoch.
Qed.

(** ** reset_input *)

Lemma random_population_spec (n : nat) (location_count : Z) (g : Generator) :
  length (random_population n location_count g).1 = n
  ∧ Forall (fresh location_count) (random_population n location_count g).1.
Proof.
  revert g. induction n as [|n IH]; intros g; simpl; [done|].
  destruct (next_draw g) as [d g1]. specialize (IH g1).
  destruct (random_population n location_count g1) as [rest g2]. simpl in *.
  destruct IH as [Hlen Hall]. split; [by rewrite Hlen|].
  constructor; [|done]. repeat split; simpl; try done;
    apply Z.mod_pos_bound; done.
Qed.

Lemma infect_slot_middle (done_ todo : list Individual) (x : Individual) :
  infect_slot (length done_) (done_ ++ x :: todo)
  = Returned ((done_ ++ [infect x]) ++ todo).
Proof.
  unfold infect_slot, at_index. rewrite list_lookup_middle by done. simpl.
  f_equal. rewrite <- app_assoc. simpl.
  replace (length done_) with (length done_ + 0) at 1 by lia.
  by rewrite insert_app_r.
Qed.

Lemma infect_loop_spec (done_ todo : list Individual) (k : nat) :
  k ≤ length todo →
  for_indices infect_slot (seq (length done_) k) (done_ ++ todo)
  = Returned (done_ ++ (infect <$> take k todo) ++ drop k todo).
Proof.
  revert done_ todo. induction k as [|k IH]; intros done_ todo Hk.
  - simpl. by rewrite drop_0.
  - destruct todo as [|x todo]; [simpl in Hk; lia|]. simpl in Hk.
    cbn [seq for_indices]. rewrite infect_slot_middle. simpl.
    replace (S (length done_)) with (length (done_ ++ [infect x]))
      by (rewrite length_app; simpl; lia).
    rewrite IH by lia. by rewrite <- app_assoc.
Qed.

Lemma count_app (f : Individual → bool) (l k : list Individual) :
  count f (l ++ k) = (count f l + count f k)%Z.
Proof. unfold count. rewrite filter_app, length_app. lia. Qed.

Lemma count_all (f : Individual → bool) (l : list Individual) :
  Forall (λ x, f x = true) l → count f l = Z.of_nat (length l).
Proof.
  induction 1 as [|x l Hx _ IH]; [done|].
  rewrite count_cons, Hx, IH. simpl length. lia.
Qed.

Lemma count_none (f : Individual → bool) (l : list Individual) :
  Forall (λ x, f x = false) l → count f l = 0%Z.
Proof.
  induction 1 as [|x l Hx _ IH]; [done|].
  rewrite count_cons, Hx, IH. done.
Qed.

Lemma fresh_not_infected (location_count : Z) (l : list Individual) :
  Forall (fresh location_count) l → Forall (λ x, is_infected x = false) l.
Proof.
  intros HF. eapply Forall_impl; [exact HF|].
  intros x (Hs & _). apply is_infected_false. congruence.
Qed.

(** What [reset_input] returns for a valid configuration: the first
    [INITIAL_INFECTED_COUNT] individuals infected, the others as drawn. *)
Lemma reset_input_Returned `{DiseaseSettings} (graph : LocationUndirectedGraph)
    (individual_count : Z) (g : Generator) :
  (0 < individual_count)%Z →
  (0 ≤ INITIAL_INFECTED_COUNT ≤ individual_count)%Z →
  let drawn := random_population (Z.to_nat individual_count)
                 (Z.of_nat (num_vertices graph)) g in
  let seeds := Z.to_nat INITIAL_INFECTED_COUNT in
  reset_input graph individual_count g
  = Returned (Z.of_nat (num_vertices graph), Z.of_nat (length (m_edges graph)), graph,
              {| individuals := (infect <$> take seeds drawn.1) ++ drop seeds drawn.1;
                 generator := drawn.2 |}).
Proof.
  intros Hpos Hseed. simpl. unfold reset_input, get_random_individuals.
  case_decide; [lia|]. simpl.
  pose proof (random_population_spec (Z.to_nat individual_count)
                (Z.of_nat (num_vertices graph)) g) as [Hlen _].
  destruct (random_population (Z.to_nat individual_count)
              (Z.of_nat (num_vertices graph)) g) as [population g'].
  simpl in *.
  pose proof (infect_loop_spec [] population (Z.to_nat INITIAL_INFECTED_COUNT))
    as Hloop.
  simpl in Hloop. rewrite Hloop by lia. done.
Qed.

(** The population that [reset_input] builds satisfies what the runs
    assume: it stands on the graph and satisfies the class invariant. *)
Lemma reset_input_well_formed `{DiseaseSettings} (graph : LocationUndirectedGraph)
    (individual_count : Z) (g : Generator) (location_count edge_count : Z)
    (graph' : LocationUndirectedGraph) (w : World) :
  num_vertices graph ≠ 0 →
  reset_input graph individual_count g
  = Returned (location_count, edge_count, graph', w) →
  graph' = graph ∧ on_graph graph (individuals w)
  ∧ Forall hit_consistent (individuals w).
Proof.
  intros Hnv Hrun. unfold reset_input in Hrun.
  outcome_inv Hrun. destruct a as [population g'].
  outcome_inv Hrun. injection Hrun as <- <- <- <-. split; [done|].
  unfold get_random_individuals in Hrun_step. case_decide; [discriminate|].
  injection Hrun_step as Hpop.
  pose proof (random_population_spec (Z.to_nat individual_count)
                (Z.of_nat (num_vertices graph)) g) as [_ Hfresh].
  rewrite Hpop in Hfresh. simpl in Hfresh.
  assert (Forall (λ x, (0 ≤ location x < Z.of_nat (num_vertices graph))%Z
                       ∧ hit_consistent x) population) as Hstart.
  { eapply Forall_impl; [exact Hfresh|]. intros x (Hs & _ & Hloc).
    split; [apply Hloc; lia|]. unfold hit_consistent. congruence. }
  apply (for_indices_invariant
           (λ p, Forall (λ x, (0 ≤ location x < Z.of_nat (num_vertices graph))%Z
                              ∧ hit_consistent x) p) _ _ _ _ Hstart) in Hrun_step0.
  - simpl. split.
    + eapply Forall_impl; [exact Hrun_step0|]. intros x [Hloc _].
      unfold vertices. apply list_elem_of_fmap. exists (Z.to_nat (location x)).
      split; [lia|]. apply elem_of_seq. lia.
    + eapply Forall_impl; [exact Hrun_step0|]. by intros x [_ ?].
  - intros i p1 p2 _ Hp1 Hbody. unfold infect_slot in Hbody.
    outcome_inv Hbody. apply at_index_Returned in Hbody_step.
    injection Hbody as <-. apply Forall_insert; [done|].
    rewrite Forall_lookup in Hp1. destruct (Hp1 _ _ Hbody_step) as [Hloc _].
    split; [done|]. done.
Qed.

(** C8: the seed cases are validated when the population is constructed.
    A configuration with more seed cases than individuals makes
    [reset_input] fail with [InvalidConfiguration]; a configuration with a
    positive population and at most that many seed cases makes it return a
    population of [individual_count] individuals of which exactly the first
    [INITIAL_INFECTED_COUNT] are infected; and neither driver can raise
    [InvalidConfiguration] afterwards, the check being part of the
    construction alone. *)
Theorem reset_input_seed_cases `{DiseaseSettings} (graph : LocationUndirectedGraph)
    (individual_count : Z) (g : Generator) :
  ((individual_count < INITIAL_INFECTED_COUNT)%Z →
   reset_input graph individual_count g = Raised InvalidConfiguration)
  ∧ ((0 < individual_count)%Z →
     (0 ≤ INITIAL_INFECTED_COUNT ≤ individual_count)%Z →
     ∃ w, reset_input graph individual_count g
          = Returned (Z.of_nat (num_vertices graph),
                      Z.of_nat (length (m_edges graph)), graph, w)
          ∧ Z.of_nat (length (individuals w)) = individual_count
          ∧ count is_infected (individuals w) = INITIAL_INFECTED_COUNT
          ∧ ∀ k x, individuals w !! k = Some x →
                   is_infected x = bool_decide (Z.of_nat k < INITIAL_INFECTED_COUNT)%Z)
  ∧ (∀ fuel schedule statics count epochs graph' w prior,
       simulate_parallel fuel schedule statics count epochs graph' w prior
       ≠ Raised InvalidConfiguration)
  ∧ (∀ fuel count epochs graph' w,
       simulate_serial fuel count epochs graph' w ≠ Raised InvalidConfiguration).
Proof.
  split; [|split; [|split]].
  - intros Hmany. unfold reset_input, get_random_individuals.
    case_decide; [done|lia].
  - intros Hpos Hseed. eexists. split; [by apply reset_input_Returned|]. simpl.
    pose proof (random_population_spec (Z.to_nat individual_count)
                  (Z.of_nat (num_vertices graph)) g) as [Hlen Hfresh].
    set (drawn := (random_population _ _ g).1) in *.
    set (seeds := Z.to_nat INITIAL_INFECTED_COUNT).
    assert (length (take seeds drawn) = seeds) as Htake
      by (rewrite length_take; unfold seeds; lia).
    split; [|split].
    + rewrite length_app, length_fmap, length_drop, Htake. unfold seeds. lia.
    + rewrite count_app. rewrite count_all.
      * rewrite count_none; [rewrite length_fmap, Htake; unfold seeds; lia|].
        apply (fresh_not_infected (Z.of_nat (num_vertices graph))).
        by apply Forall_drop.
      * apply Forall_fmap, Forall_forall. intros. apply infect_is_infected.
    + intros k x Hx. destruct (decide (k < seeds)) as [Hk|Hk].
      * rewrite lookup_app_l in Hx by (rewrite length_fmap; lia).
        rewrite list_lookup_fmap in Hx.
        destruct (take seeds drawn !! k); [|discriminate]. injection Hx as <-.
        rewrite infect_is_infected. symmetry. apply bool_decide_eq_true.
        unfold seeds in Hk. lia.
      * rewrite lookup_app_r in Hx by (rewrite length_fmap; lia).
        apply list_elem_of_lookup_2 in Hx.
        assert (is_infected x = false) as ->.
        { pose proof (fresh_not_infected _ _ Hfresh) as Hni.
          apply (Forall_drop _ seeds) in Hni.
          rewrite Forall_forall in Hni. by apply Hni. }
        symmetry. apply bool_decide_eq_false. unfold seeds in Hk. lia.
  - intros fuel schedule statics count_ epochs graph' w prior Hrun.
    by apply simulate_parallel_Raised in Hrun as [? _].
  - intros fuel count_ epochs graph' w Hrun.
    by apply simulate_serial_Raised in Hrun as [? _].
Qed.

(** ** Which invocations of try_infect a scan makes *)

Lemma matches_cons (population : list Individual) (current : Individual)
    (a : nat) (affecting : list nat) :
  matches population current (a :: affecting)
  = if flag_at (meets current) population a
    then a :: matches population current affecting
    else matches population current affecting.
Proof.
  unfold matches. rewrite filter_cons.
  destruct (flag_at (meets current) population a); case_decide; done.
Qed.

Lemma flag_at_lookup (f : Individual → bool) (population : list Individual)
    (k : nat) (x : Individual) :
  population !! k = Some x → flag_at f population k = f x.
Proof. unfold flag_at. by intros ->. Qed.

Lemma scan_affecting_calls `{DiseaseSettings} (population : list Individual)
    (index : nat) (affecting : list nat) (current : Individual) (g g' : Generator)
    (saved : option Individual) (calls : list TryInfectCall) :
  is_infected current = false →
  scan_affecting population index affecting current g = Returned (saved, g', calls) →
  Forall (λ c, call_target c = index ∧ call_before c = current) calls
  ∧ call_source <$> calls `prefix_of` matches population current affecting
  ∧ (saved = None → call_source <$> calls = matches population current affecting)
  ∧ (deterministic_spread → infection_state current = Susceptible →
     call_source <$> calls = take 1 (matches population current affecting)
     ∧ (calls ≠ [] → saved = Some (infect current))).
Proof.
  intros Hcur. revert g g' saved calls.
  induction affecting as [|a rest IH]; intros g g' saved calls Hscan; simpl in Hscan.
  - injection Hscan as <- <- <-. simpl. repeat split; try done.
  - outcome_inv Hscan. apply at_index_Returned in Hscan_step.
    rewrite matches_cons, (flag_at_lookup _ _ _ _ Hscan_step).
    change (is_infected a0 && bool_decide (get_location current = get_location a0))
      with (meets current a0) in Hscan.
    destruct (meets current a0) eqn:Hmeet; [|by apply (IH _ _ _ _ Hscan)].
    pose proof (try_infect_not_infected current g) as Hfail.
    pose proof (try_infect_cases current g) as Hcases.
    destruct (try_infect current g) as [tried g1]. simpl in Hfail.
    destruct (is_infected tried) eqn:Htried.
    + injection Hscan as <- <- <-. simpl. repeat split; try done.
      * constructor; [done|constructor].
      * apply prefix_cons, prefix_nil.
      * destruct Hcases as [[Heq _]|[_ [[Heq _]|[Heq _]]]];
          injection Heq as <- _; congruence.
    + specialize (Hfail eq_refl). subst tried.
      outcome_inv Hscan. destruct a1 as [[saved1 g2] calls1].
      injection Hscan as <- <- <-.
      destruct (IH _ _ _ _ Hscan_step0) as (Hall & Hpre & Hnone & _).
      assert (deterministic_spread → infection_state current = Susceptible → False)
        as Hcontra.
      { intros Hdet Hsus.
        destruct Hcases as [[_ Hns]|[_ [[Heq _]|[_ Hno]]]]; [done| |].
        - injection Heq as Heq _. rewrite Heq in Htried. done.
        - rewrite Hdet in Hno. done. }
      rewrite fmap_cons. cbn [call_source]. repeat split.
      * constructor; done.
      * by apply prefix_cons.
      * intros Hs. by rewrite Hnone.
      * exfalso. auto.
      * exfalso. auto.
Qed.

Lemma try_infect_location `{DiseaseSettings} (i : Individual) (g : Generator) :
  location (try_infect i g).1 = location i.
Proof. destruct (try_infect_result i g) as [->|[_ ->]]; done. Qed.

Lemma flag_at_shares_location (source : Individual) (p q : list Individual) (a : nat) :
  location <$> p = location <$> q →
  flag_at (shares_location source) p a = flag_at (shares_location source) q a.
Proof.
  intros Hloc. unfold flag_at.
  assert ((location <$> p) !! a = (location <$> q) !! a) as Ha by (by rewrite Hloc).
  rewrite !list_lookup_fmap in Ha.
  destruct (p !! a) as [x|], (q !! a) as [y|]; simpl in Ha; try done.
  injection Ha as Ha. unfold shares_location, get_location. by rewrite Ha.
Qed.

Lemma contacts_cons (population : list Individual) (i : nat) (source : Individual)
    (a : nat) (others : list nat) :
  contacts population i source (a :: others)
  = if bool_decide (i ≠ a) && flag_at (shares_location source) population a
    then a :: contacts population i source others
    else contacts population i source others.
Proof.
  unfold contacts. rewrite filter_cons.
  destruct (decide (a ≠ i ∧ flag_at (shares_location source) population a = true))
    as [[Hne Hflag]|Hno].
  - rewrite Hflag, bool_decide_true by done. done.
  - destruct (decide (i = a)) as [->|Hne].
    + by rewrite bool_decide_false by (intros Hx; by apply Hx).
    + rewrite bool_decide_true by done.
      destruct (flag_at (shares_location source) population a); [|done].
      exfalso. apply Hno. split; done.
Qed.

Lemma contacts_locations (p q : list Individual) (i : nat) (source : Individual)
    (others : list nat) :
  location <$> p = location <$> q →
  contacts p i source others = contacts q i source others.
Proof.
  intros Hloc. induction others as [|a others IH]; [done|].
  rewrite !contacts_cons, IH. by rewrite (flag_at_shares_location source p q a).
Qed.

Lemma meet_calls `{DiseaseSettings} (i a : nat) (w w' : World)
    (log log' : list TryInfectCall) (slot : Individual) :
  individuals w !! i = Some slot →
  meet i a (w, log) = Returned (w', log') →
  location <$> individuals w' = location <$> individuals w
  ∧ individuals w' !! i = Some slot
  ∧ ∃ calls,
      log' = log ++ calls
      ∧ call_target <$> calls = contacts (individuals w) i slot [a]
      ∧ Forall (λ c, call_source c = i
                     ∧ individuals w !! call_target c = Some (call_before c)) calls.
Proof.
  intros Hslot Hrun. unfold meet in Hrun. rewrite contacts_cons.
  change (contacts (individuals w) i slot []) with (@nil nat).
  case_decide as Hia.
  - outcome_inv Hrun. outcome_inv Hrun.
    apply at_index_Returned in Hrun_step, Hrun_step0.
    assert (a0 = slot) as -> by congruence.
    rewrite (flag_at_lookup _ _ _ _ Hrun_step0). rewrite bool_decide_true by done.
    simpl. fold (shares_location slot a1) in Hrun.
    destruct (shares_location slot a1).
    + pose proof (try_infect_location a1 (generator w)) as Hloc.
      destruct (try_infect a1 (generator w)) as [tried g]. simpl in Hloc.
      injection Hrun as <- <-. simpl. split; [|split].
      * rewrite list_fmap_insert, Hloc. apply list_insert_id.
        by rewrite list_lookup_fmap, Hrun_step0.
      * by rewrite list_lookup_insert_ne.
      * eexists [_]. split; [done|]. split; [done|].
        constructor; [|done]. simpl. by split.
    + injection Hrun as <- <-. split; [done|]. split; [done|].
      exists []. by rewrite app_nil_r.
  - injection Hrun as <- <-. rewrite bool_decide_false by (intros Hx; by apply Hx).
    simpl. split; [done|]. split; [done|]. exists []. by rewrite app_nil_r.
Qed.

Lemma spread_calls `{DiseaseSettings} (i : nat) (others : list nat) (w w' : World)
    (log log' : list TryInfectCall) (slot : Individual) :
  individuals w !! i = Some slot →
  for_indices (meet i) others (w, log) = Returned (w', log') →
  location <$> individuals w' = location <$> individuals w
  ∧ individuals w' !! i = Some slot
  ∧ ∃ calls,
      log' = log ++ calls
      ∧ call_target <$> calls = contacts (individuals w) i slot others
      ∧ Forall (λ c, call_source c = i) calls.
Proof.
  revert w log. induction others as [|a others IH]; intros w log Hslot Hrun;
    simpl in Hrun.
  - injection Hrun as <- <-. split; [done|]. split; [done|].
    exists []. by rewrite app_nil_r.
  - outcome_inv Hrun. destruct a0 as [w1 log1].
    destruct (meet_calls _ _ _ _ _ _ _ Hslot Hrun_step)
      as (Hloc1 & Hslot1 & calls1 & -> & Hcalls1 & Hsrc1).
    destruct (IH _ _ Hslot1 Hrun) as (Hloc2 & Hslot2 & calls2 & -> & Hcalls2 & Hsrc2).
    split; [congruence|]. split; [done|].
    exists (calls1 ++ calls2). split; [by rewrite app_assoc|]. split.
    + rewrite fmap_app, Hcalls1, Hcalls2.
      rewrite (contacts_locations _ _ _ _ _ Hloc1).
      rewrite !contacts_cons.
      change (contacts (individuals w) i slot []) with (@nil nat).
      by destruct (_ && _).
    + apply Forall_app. split; [|done].
      eapply Forall_impl; [exact Hsrc1|]. by intros c [? _].
Qed.

(** C5, as the code has it.  In the infection loop of [simulate_parallel] a
    scan is made for every individual that is not Infected, Recovered ones
    included: [try_infect] is invoked on the individual, as it was when its
    scan began, once for each infected individual at its location that the
    scan meets, in index order; the scan runs through all of them unless an
    attempt leaves the individual Infected, and when every attempt on a
    susceptible succeeds, the scan of a Susceptible individual stops at the
    first of them.  In the infection loop of [simulate_serial] nothing is
    invoked for an individual that is not Infected, and an Infected
    individual has [try_infect] invoked once on every other individual at
    its location, whatever the state of that individual, without stopping. *)
Theorem try_infect_invocations `{DiseaseSettings}
    (individual_count : Z) (index : nat) (w w' : World) (log log' : list TryInfectCall)
    (individual_index : nat) (ws ws' : World) (logs logs' : list TryInfectCall)
    (Hparallel : infect_iteration individual_count index (w, log) = Returned (w', log'))
    (Hserial : spread_iteration individual_index (ws, logs) = Returned (ws', logs')) :
  (∃ slot calls,
     individuals w !! index = Some slot
     ∧ log' = log ++ calls
     ∧ (is_infected slot = true → calls = [])
     ∧ Forall (λ c, call_target c = index ∧ call_before c = slot) calls
     ∧ call_source <$> calls
         `prefix_of` matches (individuals w) slot (seq 0 (Z.to_nat individual_count))
     ∧ (is_infected slot = false → individuals w' !! index = Some slot →
        call_source <$> calls
        = matches (individuals w) slot (seq 0 (Z.to_nat individual_count)))
     ∧ (deterministic_spread → infection_state slot = Susceptible →
        call_source <$> calls
        = take 1 (matches (individuals w) slot (seq 0 (Z.to_nat individual_count)))))
  ∧ (∃ slot calls,
       individuals ws !! individual_index = Some slot
       ∧ logs' = logs ++ calls
       ∧ Forall (λ c, call_source c = individual_index) calls
       ∧ call_target <$> calls
         = if is_infected slot
           then contacts (individuals ws) individual_index slot
                         (seq 0 (length (individuals ws)))
           else []).
Proof.
  split.
  - unfold infect_iteration in Hparallel. outcome_inv Hparallel.
    apply at_index_Returned in Hparallel_step. exists a.
    destruct (is_infected a) eqn:Hinf.
    + injection Hparallel as <- <-. exists []. rewrite app_nil_r.
      apply is_infected_true in Hinf.
      repeat split; try done; try apply prefix_nil; intros; congruence.
    + outcome_inv Hparallel. destruct a0 as [[saved g] calls].
      injection Hparallel as <- <-. exists calls.
      destruct (scan_affecting_calls _ _ _ _ _ _ _ _ Hinf Hparallel_step0)
        as (Hall & Hpre & Hnone & Hdet).
      repeat split; try done.
      * intros _ Hkept. apply Hnone. destruct saved as [x|]; [|done].
        exfalso. simpl in Hkept.
        destruct (scan_affecting_saved _ _ _ _ _ _ _ _ Hparallel_step0 Hinf x eq_refl)
          as [_ ->].
        rewrite list_lookup_insert_eq in Hkept by (by eapply lookup_lt_Some).
        injection Hkept as Hkept. rewrite <- Hkept in Hinf. done.
      * intros Hd Hs. by destruct (Hdet Hd Hs).
  - unfold spread_iteration in Hserial. outcome_inv Hserial. simpl in *.
    apply at_index_Returned in Hserial_step. exists a.
    destruct (is_infected a).
    + destruct (spread_calls _ _ _ _ _ _ _ Hserial_step Hserial)
        as (_ & _ & calls & -> & Htargets & Hsrc).
      by exists calls.
    + injection Hserial as <- <-. exists []. by rewrite app_nil_r.
Qed.

(** ** The infection phase when every attempt succeeds *)

Lemma next_draw_drop (g : Generator) : (next_draw g).2 = drop 1 g.
Proof. by destruct g. Qed.

Lemma try_infect_deterministic `{DiseaseSettings} (i : Individual) (g : Generator) :
  deterministic_spread →
  try_infect i g
  = if bool_decide (infection_state i = Susceptible)
    then (infect i, drop 1 g) else (i, g).
Proof.
  intros Hdet. unfold try_infect.
  destruct (infection_state i); try done.
  rewrite bool_decide_true by done. rewrite <- next_draw_drop.
  destruct (next_draw g) as [d g']. by rewrite Hdet.
Qed.

Lemma scan_affecting_deterministic `{DiseaseSettings} (population : list Individual)
    (index : nat) (affecting : list nat) (current : Individual) (g g' : Generator)
    (saved : option Individual) (calls : list TryInfectCall) :
  deterministic_spread →
  is_infected current = false →
  scan_affecting population index affecting current g = Returned (saved, g', calls) →
  if bool_decide (infection_state current = Susceptible)
     && bool_decide (matches population current affecting ≠ [])
  then saved = Some (infect current) ∧ g' = drop 1 g
  else saved = None ∧ g' = g.
Proof.
  intros Hdet Hcur. revert g g' saved calls.
  induction affecting as [|a rest IH]; intros g g' saved calls Hscan; simpl in Hscan.
  - injection Hscan as <- <- <-. rewrite andb_false_r. done.
  - outcome_inv Hscan. apply at_index_Returned in Hscan_step.
    rewrite matches_cons, (flag_at_lookup _ _ _ _ Hscan_step).
    change (is_infected a0 && bool_decide (get_location current = get_location a0))
      with (meets current a0) in Hscan.
    destruct (meets current a0) eqn:Hmeet; [|by apply (IH _ _ _ _ Hscan)].
    rewrite (try_infect_deterministic _ _ Hdet) in Hscan.
    rewrite (bool_decide_true (_ :: _ ≠ [])) by done. rewrite andb_true_r.
    case_bool_decide as Hsus.
    + rewrite infect_is_infected in Hscan. by injection Hscan as <- <- <-.
    + rewrite Hcur in Hscan. outcome_inv Hscan. destruct a1 as [[saved1 g2] calls1].
      injection Hscan as <- <- <-.
      specialize (IH _ _ _ _ Hscan_step0).
      rewrite ?(bool_decide_false (infection_state current = Susceptible)) in IH
        by done.
      done.
Qed.

Lemma settle_location (snapshot : list Individual) (x : Individual) :
  location (settle snapshot x) = location x.
Proof. unfold settle. by destruct (exposed snapshot x). Qed.

Lemma exposed_susceptible (snapshot : list Individual) (x : Individual) :
  exposed snapshot x = true → infection_state x = Susceptible.
Proof.
  unfold exposed. intros Hx. apply andb_true_iff in Hx as [Hs _].
  by apply bool_decide_eq_true in Hs.
Qed.

Lemma settle_infected (snapshot : list Individual) (x : Individual) :
  is_infected x = true → settle snapshot x = x.
Proof.
  intros Hx. unfold settle. destruct (exposed snapshot x) eqn:He; [|done].
  apply exposed_susceptible in He. apply is_infected_true in Hx. congruence.
Qed.

Lemma exposed_meets (snapshot : list Individual) (x : Individual) :
  exposed snapshot x = true → ∃ j, j ∈ snapshot ∧ meets x j = true.
Proof.
  unfold exposed. intros Hx. apply andb_true_iff in Hx as [_ He].
  apply bool_decide_eq_true in He. by apply Exists_exists in He.
Qed.

Lemma meets_true (x y : Individual) :
  meets x y = true ↔ infection_state y = Infected ∧ location x = location y.
Proof.
  unfold meets, get_location. rewrite andb_true_iff, is_infected_true.
  by rewrite bool_decide_eq_true.
Qed.

Lemma matches_nonempty (population : list Individual) (current : Individual)
    (affecting : list nat) :
  matches population current affecting ≠ []
  ↔ ∃ a y, a ∈ affecting ∧ population !! a = Some y ∧ meets current y = true.
Proof.
  unfold matches. split.
  - intros Hne. destruct (filter _ affecting) as [|a l] eqn:Hf; [done|].
    assert (a ∈ filter (λ a, flag_at (meets current) population a = true) affecting)
      as Ha by (rewrite Hf; left).
    apply list_elem_of_filter in Ha as [Hflag Ha]. unfold flag_at in Hflag.
    destruct (population !! a) as [y|] eqn:Hy; [|done]. eauto.
  - intros (a & y & Ha & Hy & Hm) Hnil.
    assert (a ∈ filter (λ a, flag_at (meets current) population a = true) affecting)
      as Hin.
    { apply list_elem_of_filter. split; [|done]. by rewrite (flag_at_lookup _ _ _ _ Hy). }
    rewrite Hnil in Hin. by apply elem_of_nil in Hin.
Qed.

(** While a phase is under way, an individual meets an infected individual
    in the live array exactly when it meets one in the snapshot. *)
Lemma settled_on_matches (snapshot : list Individual) (D : list nat) (g : Generator)
    (cur : World) (x : Individual) :
  settled_on snapshot D g cur →
  matches (individuals cur) x (seq 0 (length snapshot)) ≠ []
  ↔ Exists (λ j, meets x j = true) snapshot.
Proof.
  intros (Hlen & Hpt & _). rewrite matches_nonempty, Exists_exists. split.
  - intros (a & y & Ha & Hy & Hm). apply elem_of_seq in Ha.
    destruct (lookup_lt_is_Some_2 snapshot a ltac:(lia)) as [z Hz].
    rewrite (Hpt _ _ Hz) in Hy. injection Hy as <-.
    apply meets_true in Hm as [Hinf Hloc].
    destruct (bool_decide (a ∈ D)); [|].
    + unfold settle in *. destruct (exposed snapshot z) eqn:He.
      * destruct (exposed_meets _ _ He) as (j & Hj & Hmj).
        exists j. split; [done|]. apply meets_true in Hmj as [? ?].
        apply meets_true. simpl in Hloc. split; congruence.
      * exists z. split; [by eapply list_elem_of_lookup_2|]. by apply meets_true.
    + exists z. split; [by eapply list_elem_of_lookup_2|]. by apply meets_true.
  - intros (j & Hj & Hm). apply list_elem_of_lookup_1 in Hj as [a Ha].
    exists a, j. split; [|split; [|done]].
    + apply elem_of_seq. apply lookup_lt_Some in Ha. lia.
    + rewrite (Hpt _ _ Ha). apply meets_true in Hm as [Hinf _].
      rewrite settle_infected by (by apply is_infected_true).
      by destruct (bool_decide _).
Qed.

(** A loop invariant that may mention the iterations already run. *)
Lemma for_indices_processed {St} (P : list nat → St → Prop)
    (body : nat → St → outcome St) (order : list nat) (s s' : St) :
  P [] s →
  (∀ done_ i rest s1 s2, order = done_ ++ i :: rest → P done_ s1 →
                         body i s1 = Returned s2 → P (done_ ++ [i]) s2) →
  for_indices body order s = Returned s' → P order s'.
Proof.
  intros Hstart Hstep.
  assert (∀ rest done_ s1, order = done_ ++ rest → P done_ s1 →
            for_indices body rest s1 = Returned s' → P order s') as Hgen.
  { induction rest as [|i rest IH]; intros done_ s1 Horder HP Hrun; simpl in Hrun.
    - injection Hrun as <-. by rewrite Horder, app_nil_r.
    - outcome_inv Hrun. apply (IH (done_ ++ [i]) a); [|by eapply Hstep|done].
      by rewrite <- app_assoc. }
  by apply (Hgen order [] s).
Qed.

Lemma tally_app (f : Individual → bool) (p : list Individual) (o1 o2 : list nat) :
  tally f p (o1 ++ o2) = (tally f p o1 + tally f p o2)%Z.
Proof. unfold tally. rewrite filter_app, length_app. lia. Qed.

Lemma tally_singleton (f : Individual → bool) (p : list Individual) (k : nat) :
  tally f p [k] = if flag_at f p k then 1%Z else 0%Z.
Proof.
  rewrite tally_cons. change (tally f p []) with 0%Z.
  destruct (flag_at f p k); lia.
Qed.

Lemma settled_on_start (snapshot : list Individual) (g : Generator) :
  settled_on snapshot [] g {| individuals := snapshot; generator := g |}.
Proof.
  split; [done|]. split; [|done]. intros k x Hx.
  rewrite bool_decide_false; [done|]. apply not_elem_of_nil.
Qed.

(** Settling one more slot. *)
Lemma settled_on_extend (snapshot : list Individual) (D : list nat) (g : Generator)
    (cur : World) (i : nat) (x : Individual) :
  settled_on snapshot D g cur → snapshot !! i = Some x → i ∉ D →
  settled_on snapshot (D ++ [i]) g
    {| individuals := <[i := settle snapshot x]> (individuals cur);
       generator := drop (if exposed snapshot x then 1 else 0) (generator cur) |}.
Proof.
  intros (Hlen & Hpt & Hgen) Hx Hi. split; [|split]; simpl.
  - by rewrite length_insert.
  - intros k y Hy. destruct (decide (k = i)) as [->|Hne].
    + rewrite list_lookup_insert_eq by (rewrite Hlen; by eapply lookup_lt_Some).
      rewrite bool_decide_true by (apply elem_of_app; right; left). congruence.
    + rewrite list_lookup_insert_ne by done. rewrite (Hpt _ _ Hy).
      destruct (decide (k ∈ D)) as [Hk|Hk].
      * rewrite !bool_decide_true; [done| |done]. apply elem_of_app. by left.
      * rewrite !bool_decide_false; [done| |done]. intros Hin.
        apply elem_of_app in Hin as [?|Hin]; [done|].
        apply list_elem_of_singleton in Hin. done.
  - rewrite Hgen, drop_drop, tally_app, tally_singleton.
    rewrite (flag_at_lookup _ _ _ _ Hx). f_equal.
    pose proof (tally_nonneg (exposed snapshot) snapshot D).
    destruct (exposed snapshot x); lia.
Qed.

Lemma settled_on_lookup (snapshot : list Individual) (D : list nat) (g : Generator)
    (cur : World) (i : nat) (y : Individual) :
  settled_on snapshot D g cur → individuals cur !! i = Some y → i ∉ D →
  snapshot !! i = Some y.
Proof.
  intros (Hlen & Hpt & _) Hy Hi.
  destruct (lookup_lt_is_Some_2 snapshot i) as [x Hx].
  { rewrite <- Hlen. by eapply lookup_lt_Some. }
  rewrite (Hpt _ _ Hx), bool_decide_false in Hy by done. congruence.
Qed.

Lemma exposed_as_scan (snapshot : list Individual) (D : list nat) (g : Generator)
    (cur : World) (x : Individual) :
  settled_on snapshot D g cur →
  bool_decide (infection_state x = Susceptible)
  && bool_decide (matches (individuals cur) x (seq 0 (length snapshot)) ≠ [])
  = exposed snapshot x.
Proof.
  intros Hs. unfold exposed. f_equal. apply bool_decide_ext.
  by eapply settled_on_matches.
Qed.

Lemma infect_iteration_settles `{DiseaseSettings} (snapshot : list Individual)
    (D : list nat) (g : Generator) (individual_count : Z) (i : nat) (cur cur' : World)
    (log log' : list TryInfectCall) :
  deterministic_spread →
  individual_count = Z.of_nat (length snapshot) →
  settled_on snapshot D g cur → i ∉ D →
  infect_iteration individual_count i (cur, log) = Returned (cur', log') →
  settled_on snapshot (D ++ [i]) g cur'.
Proof.
  intros Hdet -> Hs Hi Hrun. unfold infect_iteration in Hrun.
  outcome_inv Hrun. apply at_index_Returned in Hrun_step. rename a into x.
  pose proof (settled_on_lookup _ _ _ _ _ _ Hs Hrun_step Hi) as Hx.
  pose proof (settled_on_extend _ _ _ _ _ _ Hs Hx Hi) as Hext.
  destruct (is_infected x) eqn:Hinf.
  - injection Hrun as <- _. rewrite settle_infected in Hext by done.
    rewrite list_insert_id in Hext by done.
    assert (exposed snapshot x = false) as He.
    { destruct (exposed snapshot x) eqn:He; [|done].
      apply exposed_susceptible in He. apply is_infected_true in Hinf. congruence. }
    rewrite He, drop_0 in Hext. by destruct cur.
  - outcome_inv Hrun. destruct a as [[saved g1] calls]. injection Hrun as <- _.
    rewrite Nat2Z.id in Hrun_step0.
    pose proof (scan_affecting_deterministic _ _ _ _ _ _ _ _ Hdet Hinf Hrun_step0)
      as Hscan.
    rewrite (exposed_as_scan _ _ _ _ _ Hs) in Hscan.
    unfold settle in Hext. destruct (exposed snapshot x).
    + by destruct Hscan as [-> ->].
    + destruct Hscan as [-> ->]. rewrite list_insert_id, drop_0 in Hext by done.
      by destruct cur.
Qed.

Lemma tally_seq (f : Individual → bool) (pre l : list Individual) :
  tally f (pre ++ l) (seq (length pre) (length l)) = count f l.
Proof.
  revert pre. induction l as [|x l IH]; intros pre; [done|].
  simpl length. cbn [seq]. rewrite tally_cons, count_cons.
  rewrite (flag_at_lookup f _ _ x) by (by apply list_lookup_middle).
  specialize (IH (pre ++ [x])). rewrite <- app_assoc in IH. simpl in IH.
  rewrite length_app in IH. simpl in IH.
  replace (length pre + 1) with (S (length pre)) in IH by lia.
  by rewrite IH.
Qed.

Lemma tally_seq_0 (f : Individual → bool) (l : list Individual) :
  tally f l (seq 0 (length l)) = count f l.
Proof. apply (tally_seq f [] l). Qed.

(** What a finished phase leaves, read off the invariant. *)
Lemma settled_on_all (snapshot : list Individual) (D : list nat) (g : Generator)
    (cur : World) :
  settled_on snapshot D g cur →
  (∀ k, k < length snapshot → k ∈ D) →
  individuals cur = settle snapshot <$> snapshot.
Proof.
  intros (Hlen & Hpt & _) Hall. apply list_eq. intros k.
  rewrite list_lookup_fmap. destruct (snapshot !! k) as [x|] eqn:Hx.
  - rewrite (Hpt _ _ Hx). rewrite bool_decide_true; [done|].
    apply Hall. by eapply lookup_lt_Some.
  - simpl. apply lookup_ge_None. rewrite Hlen. by apply lookup_ge_None.
Qed.

(** With every attempt succeeding, the infection loop of
    [simulate_parallel] computes the outcome of the snapshot rule, whatever
    the interleaving. *)
Lemma infection_phase_parallel_deterministic `{DiseaseSettings}
    (individual_count : Z) (order : list nat) (w w' : World)
    (log : list TryInfectCall) :
  deterministic_spread →
  individual_count = Z.of_nat (length (individuals w)) →
  order ≡ₚ seq 0 (length (individuals w)) →
  infection_phase_parallel individual_count order w = Returned (w', log) →
  individuals w' = settle (individuals w) <$> individuals w
  ∧ generator w'
    = drop (Z.to_nat (count (exposed (individuals w)) (individuals w))) (generator w).
Proof.
  intros Hdet Hcount Horder Hrun. unfold infection_phase_parallel in Hrun.
  assert (NoDup order) as Hnd by (rewrite Horder; apply NoDup_seq).
  apply (for_indices_processed
           (λ done_ s, settled_on (individuals w) done_ (generator w) s.1)) in Hrun.
  - simpl in Hrun. split.
    + eapply settled_on_all; [exact Hrun|]. intros k Hk.
      rewrite Horder. apply elem_of_seq. lia.
    + destruct Hrun as (_ & _ & ->).
      by rewrite (tally_Permutation _ _ _ _ Horder), tally_seq_0.
  - simpl. destruct w. apply settled_on_start.
  - intros done_ i rest [w1 l1] [w2 l2] Hsplit Hs Hbody. simpl in *.
    apply (infect_iteration_settles (individuals w) done_ (generator w)
             individual_count i w1 w2 l1 l2 Hdet Hcount Hs); [|exact Hbody].
    rewrite Hsplit in Hnd. apply NoDup_app in Hnd as (_ & Hnot & _).
    intros Hi. apply (Hnot i Hi). left.
Qed.

(** With every attempt succeeding, the snapshot rule infects exactly the
    exposed individuals and spends one draw on each. *)
Lemma snapshot_scan_deterministic `{DiseaseSettings} (snapshot todo : list Individual)
    (g : Generator) :
  deterministic_spread →
  snapshot_scan snapshot todo g
  = (settle snapshot <$> todo, drop (Z.to_nat (count (exposed snapshot) todo)) g).
Proof.
  intros Hdet. revert g. induction todo as [|x todo IH]; intros g.
  - simpl. by rewrite drop_0.
  - cbn [snapshot_scan]. rewrite fmap_cons, count_cons. unfold settle at 1.
    pose proof (count_nonneg (exposed snapshot) todo) as Hpos.
    destruct (exposed snapshot x) eqn:He.
    + rewrite (try_infect_deterministic _ _ Hdet).
      rewrite bool_decide_true by (by eapply exposed_susceptible).
      rewrite IH, drop_drop. do 2 f_equal. lia.
    + by rewrite IH.
Qed.

Lemma meets_location (x y j : Individual) :
  location x = location y → meets x j = meets y j.
Proof. unfold meets, get_location. by intros ->. Qed.

Lemma exposed_true (snapshot : list Individual) (x : Individual) :
  exposed snapshot x = true
  ↔ infection_state x = Susceptible ∧ Exists (λ j, meets x j = true) snapshot.
Proof.
  unfold exposed. by rewrite andb_true_iff, !bool_decide_eq_true.
Qed.

(** A slot that is infected in the live array stands at a location where
    the snapshot has an infected individual. *)
Lemma settled_on_infected_hot (snapshot : list Individual) (D : list nat)
    (g : Generator) (cur : World) (i : nat) (slot : Individual) :
  settled_on snapshot D g cur →
  individuals cur !! i = Some slot → is_infected slot = true →
  Exists (λ j, meets slot j = true) snapshot.
Proof.
  intros (Hlen & Hpt & _) Hslot Hinf.
  destruct (lookup_lt_is_Some_2 snapshot i) as [x Hx].
  { rewrite <- Hlen. by eapply lookup_lt_Some. }
  rewrite (Hpt _ _ Hx) in Hslot. injection Hslot as Hslot.
  assert (slot = x ∨ slot = infect x ∧ exposed snapshot x = true) as [->|[-> He]].
  { destruct (bool_decide (i ∈ D)); [|by left]. unfold settle in Hslot.
    destruct (exposed snapshot x); [right|left]; done. }
  - apply Exists_exists. exists x. split; [by eapply list_elem_of_lookup_2|].
    apply meets_true. split; [by apply is_infected_true|done].
  - apply exposed_true in He as [_ He]. eapply Exists_impl; [exact He|].
    intros j Hj. by rewrite (meets_location _ x).
Qed.

Lemma spreading_step `{DiseaseSettings} (snapshot : list Individual) (g : Generator)
    (i : nat) (slot : Individual) (D0 processed : list nat) (a : nat)
    (s1 s2 : World * list TryInfectCall) :
  deterministic_spread →
  Exists (λ j, meets slot j = true) snapshot →
  spreading snapshot g i slot D0 processed s1 →
  meet i a s1 = Returned s2 →
  spreading snapshot g i slot D0 (processed ++ [a]) s2.
Proof.
  intros Hdet Hhot (D & Hnd & Hexp & Hs & Hslot & Hsub & Hmet) Hrun.
  destruct s1 as [w log]. simpl in *.
  (* the state does not change *)
  assert ((∀ xa, a ≠ i → snapshot !! a = Some xa →
                 infection_state xa = Susceptible →
                 location xa = location slot → a ∈ D) →
          spreading snapshot g i slot D0 (processed ++ [a]) (w, log)) as Hsame.
  { intros Ha. exists D. do 5 (split; [done|]).
    intros a' xa Hin. apply elem_of_app in Hin as [Hin|Hin]; [by eapply Hmet|].
    apply list_elem_of_singleton in Hin as ->. apply Ha. }
  unfold meet in Hrun. case_decide as Hia.
  2: { injection Hrun as <-. apply Hsame. intros xa Hne. by subst. }
  outcome_inv Hrun. outcome_inv Hrun.
  apply at_index_Returned in Hrun_step, Hrun_step0.
  assert (a0 = slot) as -> by congruence. rename a1 into y.
  destruct Hs as (Hlen & Hpt & Hgen).
  assert (∀ xa, snapshot !! a = Some xa →
            y = (if bool_decide (a ∈ D) then settle snapshot xa else xa)) as Hy.
  { intros xa Hxa. rewrite (Hpt _ _ Hxa) in Hrun_step0. congruence. }
  destruct (bool_decide (get_location slot = get_location y)) eqn:Hloc.
  2: { apply bool_decide_eq_false in Hloc.
       injection Hrun as <-. apply Hsame. intros xa _ Hxa _ Hl. exfalso.
       apply Hloc. unfold get_location. rewrite (Hy _ Hxa).
       destruct (bool_decide (a ∈ D)); [rewrite settle_location|]; done. }
  apply bool_decide_eq_true in Hloc.
  rewrite (try_infect_deterministic _ _ Hdet) in Hrun.
  destruct (bool_decide (infection_state y = Susceptible)) eqn:Hsus;
    [apply bool_decide_eq_true in Hsus|apply bool_decide_eq_false in Hsus].
  - (* a susceptible is met and infected *)
    assert (a ∉ D) as HaD.
    { intros HaD. specialize (Hexp _ HaD). unfold flag_at in Hexp.
      destruct (snapshot !! a) as [xa|] eqn:Hxa; [|done].
      rewrite (Hy _ eq_refl), bool_decide_true in Hsus by done.
      unfold settle in Hsus. rewrite Hexp in Hsus. done. }
    assert (snapshot !! a = Some y) as Hxa.
    { eapply settled_on_lookup; [|exact Hrun_step0|exact HaD]. done. }
    assert (exposed snapshot y = true) as He.
    { apply exposed_true. split; [done|]. eapply Exists_impl; [exact Hhot|].
      intros j Hj. by rewrite (meets_location _ slot). }
    pose proof (settled_on_extend snapshot D g w a y (conj Hlen (conj Hpt Hgen))
                  Hxa HaD) as Hext.
    unfold settle in Hext. rewrite He in Hext.
    injection Hrun as <-. exists (D ++ [a]). simpl.
    split; [|split; [|split; [exact Hext|split; [|split]]]].
    + apply NoDup_app. repeat split; [done| |apply NoDup_singleton].
      intros d Hd Hd'. apply list_elem_of_singleton in Hd' as ->. done.
    + intros d Hd. apply elem_of_app in Hd as [Hd|Hd]; [auto|].
      apply list_elem_of_singleton in Hd as ->.
      by rewrite (flag_at_lookup _ _ _ _ Hxa).
    + rewrite list_lookup_insert_ne; [done|]. intros ->. by apply Hia.
    + intros d Hd. apply elem_of_app. left. auto.
    + intros a' xa Hin Hne Hxa' Hs' Hl'. apply elem_of_app.
      apply elem_of_app in Hin as [Hin|Hin]; [left; by eapply Hmet|].
      right. done.
  - (* the individual met is not susceptible *)
    injection Hrun as <-.
    rewrite list_insert_id by done.
    assert ({| individuals := individuals w; generator := generator w |} = w) as ->
      by (by destruct w).
    apply Hsame. intros xa _ Hxa Hs' _.
    destruct (decide (a ∈ D)) as [|Hno]; [done|]. exfalso.
    rewrite (Hy _ Hxa), bool_decide_false in Hsus by done. done.
Qed.

Lemma spread_so_far_step `{DiseaseSettings} (snapshot : list Individual)
    (g : Generator) (processed : list nat) (i : nat)
    (s1 s2 : World * list TryInfectCall) :
  deterministic_spread →
  spread_so_far snapshot g processed s1 →
  spread_iteration i s1 = Returned s2 →
  spread_so_far snapshot g (processed ++ [i]) s2.
Proof.
  intros Hdet (D & Hnd & Hexp & Hs & Hprog) Hrun.
  unfold spread_iteration in Hrun. outcome_inv Hrun.
  apply at_index_Returned in Hrun_step. rename a into slot.
  pose proof Hs as (Hlen & Hpt & _).
  destruct (is_infected slot) eqn:Hinf.
  - pose proof (settled_on_infected_hot _ _ _ _ _ _ Hs Hrun_step Hinf) as Hhot.
    apply (for_indices_processed (spreading snapshot g i slot D)) in Hrun.
    + destruct Hrun as (D' & Hnd' & Hexp' & Hs' & _ & Hsub & Hmet).
      exists D'. do 3 (split; [done|]).
      intros b xb k xk Hb Hxb Hib Hxk Hsus Hloc.
      apply elem_of_app in Hb as [Hb|Hb]; [apply Hsub; by eapply Hprog|].
      apply list_elem_of_singleton in Hb as ->.
      assert (slot = xb) as ->.
      { rewrite (Hpt _ _ Hxb), settle_infected in Hrun_step by done.
        destruct (bool_decide (i ∈ D)); congruence. }
      destruct (decide (k = i)) as [->|Hne].
      * apply is_infected_true in Hib. congruence.
      * apply (Hmet k xk); try done. apply elem_of_seq.
        apply lookup_lt_Some in Hxk. lia.
    + exists D. do 4 (split; [done|]). split; [done|].
      intros a xa Ha. by apply elem_of_nil in Ha.
    + intros done_ a rest s3 s4 _ Hsp Hbody. by eapply spreading_step.
  - injection Hrun as <-. exists D. do 3 (split; [done|]).
    intros b xb k xk Hb Hxb Hib Hxk Hsus Hloc.
    apply elem_of_app in Hb as [Hb|Hb]; [by eapply Hprog|].
    apply list_elem_of_singleton in Hb as ->. exfalso.
    rewrite (Hpt _ _ Hxb), settle_infected in Hrun_step by done.
    assert (slot = xb) as -> by (destruct (bool_decide (i ∈ D)); congruence).
    congruence.
Qed.

(** With every attempt succeeding, the infection loop of
    [simulate_serial] computes the outcome of the snapshot rule as well. *)
Lemma infection_phase_serial_deterministic `{DiseaseSettings} (w w' : World)
    (log : list TryInfectCall) :
  deterministic_spread →
  infection_phase_serial w = Returned (w', log) →
  individuals w' = settle (individuals w) <$> individuals w
  ∧ generator w'
    = drop (Z.to_nat (count (exposed (individuals w)) (individuals w))) (generator w).
Proof.
  intros Hdet Hrun. unfold infection_phase_serial in Hrun.
  set (snapshot := individuals w) in *.
  apply (for_indices_processed (spread_so_far snapshot (generator w))) in Hrun.
  - destruct Hrun as (D & Hnd & Hexp & Hs & Hprog). simpl in Hs.
    assert (∀ k x, snapshot !! k = Some x → exposed snapshot x = true → k ∈ D)
      as Hall.
    { intros k x Hx He. destruct (exposed_meets _ _ He) as (j & Hj & Hm).
      apply list_elem_of_lookup_1 in Hj as [b Hb].
      apply meets_true in Hm as [Hinf Hloc].
      apply (Hprog b j k x); try done.
      - apply elem_of_seq. apply lookup_lt_Some in Hb. lia.
      - by apply is_infected_true.
      - by eapply exposed_susceptible. }
    destruct Hs as (Hlen & Hpt & Hgen). split.
    + apply list_eq. intros k. rewrite list_lookup_fmap.
      destruct (snapshot !! k) as [x|] eqn:Hx.
      * rewrite (Hpt _ _ Hx). simpl. case_bool_decide as Hk; [done|].
        unfold settle. destruct (exposed snapshot x) eqn:He; [|done].
        exfalso. apply Hk. by eapply Hall.
      * simpl. apply lookup_ge_None. rewrite Hlen. by apply lookup_ge_None.
    + rewrite Hgen. f_equal. f_equal. rewrite <- tally_seq_0.
      unfold tally. f_equal. apply Permutation_length.
      apply NoDup_Permutation.
      * by apply NoDup_filter.
      * apply NoDup_filter, NoDup_seq.
      * intros k. rewrite !list_elem_of_filter. split.
        -- intros [Hf Hk]. split; [done|]. apply elem_of_seq.
           unfold flag_at in Hf. destruct (snapshot !! k) eqn:Hx; [|done].
           apply lookup_lt_Some in Hx. lia.
        -- intros [Hf _]. split; [done|]. unfold flag_at in Hf.
           destruct (snapshot !! k) as [x|] eqn:Hx; [|done]. by eapply Hall.
  - exists []. split; [apply NoDup_nil_2|]. split.
    + intros d Hd. by apply elem_of_nil in Hd.
    + split.
      * simpl. subst snapshot. destruct w. apply settled_on_start.
      * intros b xb k xk Hb. by apply elem_of_nil in Hb.
  - intros done_ i rest s1 s2 _ Hs Hbody. by eapply spread_so_far_step.
Qed.

Lemma infection_phase_snapshot_deterministic `{DiseaseSettings} (w : World) :
  deterministic_spread →
  infection_phase_snapshot w
  = {| individuals := settle (individuals w) <$> individuals w;
       generator := drop (Z.to_nat (count (exposed (individuals w)) (individuals w)))
                         (generator w) |}.
Proof.
  intros Hdet. unfold infection_phase_snapshot.
  by rewrite (snapshot_scan_deterministic _ _ _ Hdet).
Qed.

(** C2, as the code has it.  The two infection loops read the live array,
    not a snapshot.  When every attempt on a susceptible succeeds
    (infection probability 1.0) this cannot be observed: the loop of
    [simulate_serial], and the loop of [simulate_parallel] under every
    interleaving of its iterations, return exactly the population and the
    generator that the snapshot rule gives, so the individuals that become
    Infected are a function of the population at the start of the phase. *)
Theorem infection_phase_deterministic_snapshot `{DiseaseSettings} (w : World)
    (individual_count : Z) (order : list nat)
    (Hdet : deterministic_spread)
    (Hcount : individual_count = Z.of_nat (length (individuals w)))
    (Horder : order ≡ₚ seq 0 (length (individuals w))) :
  (∃ log, infection_phase_serial w = Returned (infection_phase_snapshot w, log))
  ∧ (∃ log, infection_phase_parallel individual_count order w
            = Returned (infection_phase_snapshot w, log)).
Proof.
  rewrite (infection_phase_snapshot_deterministic _ Hdet). split.
  - destruct (infection_phase_serial_returns w) as [[w' log] Hrun].
    exists log. rewrite Hrun.
    destruct (infection_phase_serial_deterministic _ _ _ Hdet Hrun) as [Hi Hg].
    destruct w'. simpl in *. by rewrite Hi, Hg.
  - destruct (infection_phase_parallel_returns individual_count order w)
      as [[w' log] Hrun].
    { apply Forall_forall. intros i Hi. rewrite Horder in Hi.
      apply elem_of_seq in Hi. lia. }
    { lia. }
    exists log. rewrite Hrun.
    destruct (infection_phase_parallel_deterministic _ _ _ _ _ Hdet Hcount Horder Hrun)
      as [Hi Hg].
    destruct w'. simpl in *. by rewrite Hi, Hg.
Qed.

(** ** simulate_parallel in index order against simulate_serial *)

#[local] Instance earlier_id_transitive : Transitive (earlier id).
Proof. intros x y z. unfold earlier, id. lia. Qed.

#[local] Instance earlier_id_antisymm : AntiSymm (=) (earlier id).
Proof. intros x y. unfold earlier, id. lia. Qed.

#[local] Instance earlier_id_total : Total (earlier id).
Proof. intros x y. unfold earlier, id. lia. Qed.

Lemma seq_Sorted (j n : nat) : Sorted (earlier id) (seq j n).
Proof.
  revert j. induction n as [|n IH]; intros j; simpl; [constructor|].
  constructor; [apply IH|].
  destruct n; simpl; constructor. unfold earlier, id. lia.
Qed.

(** One thread, or threads that take turns in index order. *)
Lemma iteration_order_id (max_index : Z) :
  iteration_order id max_index = seq 0 (Z.to_nat max_index).
Proof.
  unfold iteration_order. apply (Sorted_unique (earlier id)).
  - apply Sorted_merge_sort. apply _.
  - apply seq_Sorted.
  - apply merge_sort_Permutation.
Qed.

Lemma move_iteration_middle (m : gmap Z (list Z)) (done_ todo : list Individual)
    (x : Individual) (g : Generator) :
  move_iteration m (length done_) {| individuals := done_ ++ x :: todo; generator := g |}
  = '(moved, g') ← move x (neighborhood_of m (get_location x)) g;
    Returned {| individuals := (done_ ++ [moved]) ++ todo; generator := g' |}.
Proof.
  unfold move_iteration, at_index. simpl.
  rewrite list_lookup_middle by done. simpl.
  destruct (move x _ g) as [[moved g']| | |]; simpl; try done.
  do 2 f_equal. rewrite <- app_assoc. simpl.
  replace (length done_) with (length done_ + 0) at 1 by lia.
  by rewrite insert_app_r.
Qed.

(** The movement loop of [simulate_parallel], run in index order, is the
    movement loop of [simulate_serial]. *)
Lemma move_all_as_loop (m : gmap Z (list Z)) (done_ todo : list Individual)
    (g : Generator) :
  for_indices (move_iteration m) (seq (length done_) (length todo))
    {| individuals := done_ ++ todo; generator := g |}
  = '(moved, g') ← move_all m todo g;
    Returned {| individuals := done_ ++ moved; generator := g' |}.
Proof.
  revert done_ g. induction todo as [|x todo IH]; intros done_ g.
  - done.
  - simpl length. cbn [seq for_indices move_all].
    rewrite move_iteration_middle.
    destruct (move x _ g) as [[moved g1]| | |]; simpl; try done.
    replace (S (length done_)) with (length (done_ ++ [moved]))
      by (rewrite length_app; simpl; lia).
    rewrite IH. destruct (move_all m todo g1) as [[rest g2]| | |]; simpl; try done.
    by rewrite <- app_assoc.
Qed.

Lemma advance_iteration_middle `{DiseaseSettings} (done_ todo : list Individual)
    (x : Individual) (g : Generator) (hit infected : Z) :
  advance_iteration (length done_)
    ({| individuals := done_ ++ x :: todo; generator := g |}, (hit, infected))
  = Returned ({| individuals := (done_ ++ [advance_epoch x]) ++ todo; generator := g |},
              ((hit + if counted_hit (advance_epoch x) then 1 else 0)%Z,
               (infected + if is_infected (advance_epoch x) then 1 else 0)%Z)).
Proof.
  unfold advance_iteration, at_index. simpl.
  rewrite list_lookup_middle by done. simpl.
  assert (<[length done_:=advance_epoch x]> (done_ ++ x :: todo)
          = (done_ ++ [advance_epoch x]) ++ todo) as ->.
  { rewrite <- app_assoc. simpl.
    replace (length done_) with (length done_ + 0) at 1 by lia.
    by rewrite insert_app_r. }
  unfold counted_hit.
  destruct (is_infected (advance_epoch x)); simpl.
  - done.
  - destruct (is_hit (advance_epoch x)); by rewrite ?Z.add_0_r.
Qed.

(** The advance loop of [simulate_parallel], run in index order. *)
Lemma advance_as_loop `{DiseaseSettings} (done_ todo : list Individual)
    (g : Generator) (hit infected : Z) :
  for_indices advance_iteration (seq (length done_) (length todo))
    ({| individuals := done_ ++ todo; generator := g |}, (hit, infected))
  = Returned ({| individuals := done_ ++ (advance_epoch <$> todo); generator := g |},
              ((hit + count counted_hit (advance_epoch <$> todo))%Z,
               (infected + count is_infected (advance_epoch <$> todo))%Z)).
Proof.
  revert done_ hit infected. induction todo as [|x todo IH]; intros done_ hit infected.
  - simpl. change (count counted_hit []) with 0%Z.
    change (count is_infected []) with 0%Z. by rewrite !Z.add_0_r.
  - rewrite fmap_cons, !count_cons.
    simpl length. cbn [seq for_indices]. rewrite advance_iteration_middle.
    rewrite bind_Returned_l.
    replace (S (length done_)) with (length (done_ ++ [advance_epoch x]))
      by (rewrite length_app; simpl; lia).
    rewrite IH, <- app_assoc.
    f_equal. apply pair_equal_spec. split; [done|].
    apply pair_equal_spec. split; lia.
Qed.

Lemma count_ext (f g : Individual → bool) (l : list Individual) :
  Forall (λ x, f x = g x) l → count f l = count g l.
Proof.
  induction 1 as [|x l Hx _ IH]; [done|]. by rewrite !count_cons, Hx, IH.
Qed.

Lemma tally_prefix (f : Individual → bool) (A D : list Individual) (n : nat) :
  n = length A → tally f (A ++ D) (seq 0 n) = count f A.
Proof.
  intros ->. rewrite <- (tally_seq_0 f A). apply tally_ext.
  intros k Hk. apply elem_of_seq in Hk. apply lookup_app_l. lia.
Qed.

(** The advance loop of [simulate_parallel] run in any order over the
    first [n] slots. *)
Lemma advance_phase_parallel_closed `{DiseaseSettings} (order : list nat)
    (n : nat) (w : World) :
  order ≡ₚ seq 0 n → n ≤ length (individuals w) →
  advance_phase_parallel order w
  = Returned ({| individuals := (advance_epoch <$> take n (individuals w))
                                ++ drop n (individuals w);
                 generator := generator w |},
              (count counted_hit (advance_epoch <$> take n (individuals w)),
               count is_infected (advance_epoch <$> take n (individuals w)))).
Proof.
  intros Horder Hn.
  assert (NoDup order) as Hnd by (rewrite Horder; apply NoDup_seq).
  assert (Forall (λ i, i < length (individuals w)) order) as Hin.
  { apply Forall_forall. intros i Hi. rewrite Horder in Hi.
    apply elem_of_seq in Hi. lia. }
  destruct (advance_phase_parallel_returns order w Hin) as [[w' [hit inf]] Hrun].
  rewrite Hrun. unfold advance_phase_parallel in Hrun.
  destruct (advance_loop_spec _ _ _ _ _ _ _ Hnd Hrun) as (Hlen & Hgen & Hadv & Hh & Hi).
  assert (length (advance_epoch <$> take n (individuals w)) = n) as HlenA
    by (rewrite length_fmap, length_take; lia).
  assert (individuals w' = (advance_epoch <$> take n (individuals w))
                           ++ drop n (individuals w)) as Hind.
  { apply (list_eq_same_length _ _ (length (individuals w))); [|done|].
    - rewrite length_app, HlenA, length_drop. lia.
    - intros k x y Hk Hx Hy.
      destruct (lookup_lt_is_Some_2 (individuals w) k Hk) as [b Hb].
      destruct (Hadv k b x Hb Hx) as [Hin' Hout].
      destruct (decide (k < n)) as [Hkn|Hkn].
      + rewrite lookup_app_l in Hy by lia.
        rewrite list_lookup_fmap, lookup_take_lt, Hb in Hy by lia.
        injection Hy as <-. apply Hin'. rewrite Horder. apply elem_of_seq. lia.
      + rewrite lookup_app_r in Hy by lia. rewrite HlenA, lookup_drop in Hy.
        replace (n + (k - n)) with k in Hy by lia.
        rewrite Hb in Hy. injection Hy as <-. apply Hout.
        rewrite Horder, elem_of_seq. lia. }
  destruct w' as [ind gen]. simpl in Hgen, Hind, Hh, Hi. subst ind gen.
  rewrite (tally_Permutation _ _ _ _ Horder), tally_prefix in Hh by done.
  rewrite (tally_Permutation _ _ _ _ Horder), tally_prefix in Hi by done.
  by rewrite Hh, Hi, !Z.add_0_l.
Qed.

(** One epoch of [simulate_parallel] whose movement loop runs in index
    order is one epoch of [simulate_serial], when every attempt succeeds and
    the population satisfies the class invariant; the interleavings of the
    infection loop and of the advance loop do not matter. *)
Lemma epoch_agree `{DiseaseSettings} (schedule : Z → EpochSchedule) (st : Statics)
    (individual_count : Z) (m : gmap Z (list Z)) (e : Z) (w : World)
    (prior stats : list (Z * Z)) :
  deterministic_spread →
  Forall hit_consistent (individuals w) →
  (0 < chunk st)%Z →
  max_index st = Z.of_nat (length (individuals w)) →
  individual_count = Z.of_nat (length (individuals w)) →
  iteration_order (move_rank (schedule e)) (max_index st)
  = seq 0 (Z.to_nat (max_index st)) →
  parallel_epoch schedule st individual_count m e (w, prior ++ stats)
  = '(w', stats') ← serial_epoch m e (w, stats); Returned (w', prior ++ stats').
Proof.
  intros Hdet Hcons Hchunk Hmax Hcount Hmove. destruct w as [pop g].
  simpl in Hcons, Hmax, Hcount.
  unfold parallel_epoch, omp_for_static, serial_epoch, movement_phase_parallel.
  destruct (decide (0 < chunk st)%Z); [|done].
  cbv zeta. rewrite Hmove, Hmax, Nat2Z.id.
  cbn [individuals generator].
  pose proof (move_all_as_loop m [] pop g) as Hloop. simpl in Hloop. rewrite Hloop.
  destruct (move_all m pop g) as [[moved g1]| | |] eqn:Hmoved; try done.
  rewrite !bind_Returned_l.
  assert (length moved = length pop) as Hlen1.
  { symmetry. eapply Forall2_length. by eapply move_all_moved. }
  set (w1 := {| individuals := moved; generator := g1 |}).
  set (order_i := iteration_order (infect_rank (schedule e)) (Z.of_nat (length pop))).
  set (order_a := iteration_order (advance_rank (schedule e)) (Z.of_nat (length pop))).
  assert (order_i ≡ₚ seq 0 (length pop)) as Hpi.
  { unfold order_i. by rewrite iteration_order_Permutation, Nat2Z.id. }
  assert (order_a ≡ₚ seq 0 (length pop)) as Hpa.
  { unfold order_a. by rewrite iteration_order_Permutation, Nat2Z.id. }
  destruct (infection_phase_serial_returns w1) as [[w2 log] Hs]. rewrite Hs.
  destruct (infection_phase_parallel_returns individual_count order_i w1)
    as [[w2' log'] Hp].
  { simpl. rewrite Hlen1. apply Forall_forall. intros i Hi. rewrite Hpi in Hi.
    apply elem_of_seq in Hi. lia. }
  { simpl. lia. }
  rewrite Hp, !bind_Returned_l.
  destruct (infection_phase_serial_deterministic _ _ _ Hdet Hs) as [Hi Hg].
  destruct (infection_phase_parallel_deterministic individual_count
              order_i w1 w2' log' Hdet) as [Hi' Hg'];
    [simpl; lia|simpl; by rewrite Hlen1|done|].
  assert (w2' = w2) as ->.
  { destruct w2, w2'. simpl in *. congruence. }
  assert (length (individuals w2) = length pop) as Hlen2.
  { rewrite Hi, length_fmap. done. }
  rewrite (advance_phase_parallel_closed order_a (length pop) w2 Hpa) by lia.
  rewrite take_ge, drop_ge, app_nil_r by lia.
  rewrite advance_all_spec, !bind_Returned_l, !Z.add_0_l.
  rewrite (count_ext counted_hit is_hit).
  - by rewrite app_assoc.
  - apply Forall_fmap.
    assert (Forall hit_consistent (individuals w2)) as Hc2.
    { eapply progresses_hit_consistent; [|exact Hcons].
      eapply Forall2_progresses_trans; [by eapply move_all_progresses|].
      eapply Forall2_impl;
        [exact (infection_phase_serial_kept_or_infected w1 w2 log Hs)|].
      apply kept_or_infected_progresses. }
    eapply Forall_impl; [exact Hc2|]. intros x Hx. simpl.
    apply counted_hit_consistent. by apply advance_epoch_hit_consistent.
Qed.

Lemma loops_agree `{DiseaseSettings} (schedule : Z → EpochSchedule) (st : Statics)
    (individual_count total_epochs : Z)
    (m : gmap Z (list Z)) (prior : list (Z * Z)) (fuel : nat) (e : Z) (w : World)
    (stats : list (Z * Z)) :
  deterministic_spread →
  (total_epochs ≤ 254)%Z → (0 ≤ e)%Z →
  Forall hit_consistent (individuals w) →
  (0 < chunk st)%Z →
  max_index st = Z.of_nat (length (individuals w)) →
  individual_count = Z.of_nat (length (individuals w)) →
  (∀ e', iteration_order (move_rank (schedule e')) (max_index st)
         = seq 0 (Z.to_nat (max_index st))) →
  epoch_loop fuel uint8_succ (total_epochs + 1)
    (parallel_epoch schedule st individual_count m) e (w, prior ++ stats)
  = '(w', stats') ← epoch_loop fuel Z.succ (total_epochs + 1) (serial_epoch m) e
                      (w, stats);
    Returned (w', prior ++ stats').
Proof.
  intros Hdet Hte. revert e w stats.
  induction fuel as [|fuel IH]; intros e w stats He Hcons Hchunk Hmax Hcount Hmove;
    [done|].
  cbn [epoch_loop]. destruct (Z.ltb_spec e (total_epochs + 1)) as [Hlt|Hge]; [|done].
  rewrite epoch_agree by done.
  destruct (serial_epoch m e (w, stats)) as [[w1 stats1]| | |] eqn:Hep; try done.
  rewrite !bind_Returned_l.
  apply serial_epoch_Returned in Hep as (hit & inf & _ & Hlen & Hprog & _).
  assert (uint8_succ e = Z.succ e) as ->.
  { unfold uint8_succ, UINT8_MODULUS. rewrite Z.mod_small; lia. }
  apply IH; [lia| |done|congruence|congruence|done].
  by eapply progresses_hit_consistent.
Qed.

(** With every attempt succeeding and the movement loops run in index
    order, [simulate_parallel] computes what [simulate_serial] computes and
    appends it to the vector of its caller. *)
Lemma simulate_agree `{DiseaseSettings} (fuel : nat) (schedule : Z → EpochSchedule)
    (statics : option Statics)
    (individual_count individual_count_s total_epochs : Z)
    (graph : LocationUndirectedGraph) (w : World) (prior : list (Z * Z)) :
  deterministic_spread →
  (0 ≤ total_epochs ≤ 254)%Z →
  Forall hit_consistent (individuals w) →
  (0 < chunk (enter_statics statics (individuals w)))%Z →
  max_index (enter_statics statics (individuals w))
  = Z.of_nat (length (individuals w)) →
  individual_count = Z.of_nat (length (individuals w)) →
  (∀ e, iteration_order (move_rank (schedule e))
          (max_index (enter_statics statics (individuals w)))
        = seq 0 (Z.to_nat (max_index (enter_statics statics (individuals w))))) →
  simulate_parallel fuel schedule statics individual_count total_epochs
    graph w prior
  = '(w', stats) ← simulate_serial fuel individual_count_s total_epochs graph w;
    Returned (enter_statics statics (individuals w), w', prior ++ stats).
Proof.
  intros Hdet Hte Hcons Hchunk Hmax Hcount Hmove.
  unfold simulate_parallel, simulate_serial.
  destruct (get_node_neighborhood_lookup_map graph) as [m| | |]; try done.
  rewrite !bind_Returned_l. case_decide; [unfold INT_MAX in *; lia|].
  pose proof (loops_agree schedule (enter_statics statics (individuals w))
                individual_count total_epochs m prior fuel 0 w [] Hdet) as Hloops.
  rewrite app_nil_r in Hloops. rewrite Hloops by (done || lia).
  by destruct (epoch_loop fuel Z.succ _ _ 0%Z (w, [])) as [[w' stats]| | |].
Qed.

(** C1, as the code has it.  When every attempt on a susceptible succeeds
    (infection probability 1.0) and the movement loop of every epoch runs
    its iterations in index order, so that the shared generator is drawn
    from in the order of [simulate_serial], a run of [simulate_parallel]
    leaves the population that [simulate_serial] leaves and appends the
    entries that [simulate_serial] computes; in particular the two final
    entries, hit count and infected count, are equal.  The interleavings of
    the infection loop and of the advance loop are arbitrary.  The run is
    on a well-formed input: the graph has a vertex and its edges join
    vertices, the individuals stand on vertices, whoever is infected is
    flagged as hit, [individual_count] and the static [max_index] are the
    size of the population, the static [chunk] is positive (a first call
    has at least [DEFAULT_NUMBER_OF_THREADS] individuals), and
    [total_epochs] is at most 254. *)
Theorem serial_parallel_agree_deterministic `{DiseaseSettings} (fuel : nat)
    (schedule : Z → EpochSchedule)
    (statics : option Statics) (individual_count individual_count_s total_epochs : Z)
    (graph : LocationUndirectedGraph) (w : World) (prior : list (Z * Z))
    (Hdet : deterministic_spread)
    (Hmove : ∀ e, iteration_order (move_rank (schedule e))
                    (max_index (enter_statics statics (individuals w)))
                  = seq 0 (Z.to_nat (max_index (enter_statics statics
                                                  (individuals w)))))
    (Hepochs : (0 ≤ total_epochs ≤ 254)%Z)
    (Hconsistent : Forall hit_consistent (individuals w))
    (Hchunk : (0 < chunk (enter_statics statics (individuals w)))%Z)
    (Hstatics : max_index (enter_statics statics (individuals w))
                = Z.of_nat (length (individuals w)))
    (Hcount : individual_count = Z.of_nat (length (individuals w)))
    (Hclosed : graph_closed graph) (Hvertices : num_vertices graph ≠ 0)
    (Hon : on_graph graph (individuals w))
    (Hfuel : (total_epochs + 1 < Z.of_nat fuel)%Z) :
  ∃ w' stats final,
    simulate_serial fuel individual_count_s total_epochs graph w = Returned (w', stats)
    ∧ simulate_parallel fuel schedule statics individual_count total_epochs
        graph w prior
      = Returned (enter_statics statics (individuals w), w', prior ++ stats)
    ∧ last stats = Some final
    ∧ last (prior ++ stats) = Some final.
Proof.
  destruct (simulate_serial_entries fuel individual_count_s total_epochs graph w)
    as (w' & stats & Hrun & Hlen); try done; [unfold INT_MAX; lia|].
  destruct (last stats) as [final|] eqn:Hlast.
  - exists w', stats, final. split; [done|]. split.
    + rewrite (simulate_agree fuel schedule statics individual_count
                 individual_count_s) by done.
      by rewrite Hrun.
    + split; [done|]. rewrite last_app, Hlast. done.
  - apply last_None in Hlast. subst stats. simpl in Hlen. lia.
Qed.

(** ** Sample runs *)

Lemma one_room_closed : graph_closed one_room.
Proof. intros e He. by apply elem_of_nil in He. Qed.

Lemma two_rooms_closed : graph_closed two_rooms.
Proof.
  intros e He. apply list_elem_of_singleton in He as ->.
  split; [left|right; left].
Qed.

Lemma outbreak_on_one_room : on_graph one_room outbreak.
Proof. unfold on_graph, outbreak. repeat constructor. Qed.

Lemma outbreak_consistent : Forall hit_consistent outbreak.
Proof. unfold outbreak. repeat constructor; by intros ?. Qed.

Lemma certain_deterministic : deterministic_spread (H := certain).
Proof. intros d. reflexivity. Qed.

(** C1 fails on the code.  With infection probability one half, four
    threads that take their turns in index order, as [schedule(static, 1)]
    admits, leave 3 individuals hit where [simulate_serial] leaves 4, on
    the same configuration and the same draws.  With infection probability
    1.0, an allowed interleaving in which thread 1 moves before thread 0
    leaves 3 individuals hit where [simulate_serial] leaves 1. *)
Lemma serial_parallel_disagree :
  (∃ ws wp,
     simulate_serial (H := coin) 2 4 0 one_room outbreak_world
       = Returned (ws, [(4, 4)%Z])
     ∧ simulate_parallel (H := coin) 2 (λ _, in_order) None 4 0 one_room
         outbreak_world []
       = Returned ({| max_index := 4; chunk := 1 |}, wp, [(3, 3)%Z])
     ∧ conforming 4 1 4 in_order = true)
  ∧ (∃ ws wp,
       simulate_serial (H := certain) 2 4 0 two_rooms parting_world
         = Returned (ws, [(1, 1)%Z])
       ∧ simulate_parallel (H := certain) 2 (λ _, second_first) None 4 0 two_rooms
           parting_world []
         = Returned ({| max_index := 4; chunk := 1 |}, wp, [(3, 3)%Z])
       ∧ conforming 4 1 4 second_first = true).
Proof.
  split; eexists _, _; (split; [vm_compute; reflexivity|]);
    (split; [vm_compute; reflexivity|]); vm_compute; reflexivity.
Qed.

(** C2 fails on the code.  With infection probability one half the loop
    of [simulate_serial] infects all three susceptible individuals of the
    outbreak and the loop of [simulate_parallel], in index order, infects
    the first and the third, where the snapshot rule infects the first
    only; and another allowed interleaving of the parallel loop infects
    the second and the third. *)
Lemma infection_phase_reads_live_state :
  ∃ ws log_s wp log_p wq log_q,
    infection_phase_serial (H := coin) outbreak_phase = Returned (ws, log_s)
    ∧ infection_phase_parallel (H := coin) 4 [0; 1; 2; 3] outbreak_phase
      = Returned (wp, log_p)
    ∧ infection_phase_parallel (H := coin) 4 [0; 2; 1; 3] outbreak_phase
      = Returned (wq, log_q)
    ∧ static_schedule 4 1 4 [0; 1; 2; 3] = true
    ∧ static_schedule 4 1 4 [0; 2; 1; 3] = true
    ∧ infection_state <$> individuals (infection_phase_snapshot (H := coin) outbreak_phase)
      = [Infected; Infected; Susceptible; Susceptible]
    ∧ infection_state <$> individuals ws = [Infected; Infected; Infected; Infected]
    ∧ infection_state <$> individuals wp = [Infected; Infected; Susceptible; Infected]
    ∧ infection_state <$> individuals wq = [Infected; Susceptible; Infected; Infected].
Proof.
  eexists _, _, _, _, _, _.
  repeat (split; [vm_compute; reflexivity|]). vm_compute. reflexivity.
Qed.

(** C5 fails on the code.  In a room with two infected, one recovered and
    one susceptible individual, on draws that make every attempt fail, the
    loop of [simulate_parallel] invokes [try_infect] twice on the recovered
    and twice on the susceptible individual, and the loop of
    [simulate_serial] invokes it on infected and recovered individuals too:
    individuals that are not susceptible are invoked, and no scan stops at
    its first match. *)
Lemma try_infect_invoked_beyond_the_claim :
  ∃ wp log_p ws log_s,
    infection_phase_parallel (H := coin) 4 [0; 1; 2; 3] ward_phase
      = Returned (wp, log_p)
    ∧ infection_phase_serial (H := coin) ward_phase = Returned (ws, log_s)
    ∧ ¬ invoked_on_susceptibles log_p ∧ ¬ scans_stop_at_first_match log_p
    ∧ ¬ invoked_on_susceptibles log_s ∧ ¬ scans_stop_at_first_match log_s.
Proof.
  eexists _, _, _, _.
  split; [vm_compute; reflexivity|]. split; [vm_compute; reflexivity|].
  unfold invoked_on_susceptibles, scans_stop_at_first_match.
  repeat split; intros Hclaim; pose proof (bool_decide_pack _ Hclaim) as Hfalse;
    vm_compute in Hfalse; exact Hfalse.
Qed.

(** C3 on the two sample runs of the outbreak. *)
Lemma infected_count_le_hit_count_witness :
  (0 ≤ 1 ≤ 255)%Z
  ∧ simulate_parallel (H := coin) 3 (λ _, in_order) None 4 1 one_room
      outbreak_world []
    = Returned (outbreak_parallel_run.1.1, outbreak_parallel_run.1.2,
                outbreak_parallel_run.2)
  ∧ (0 ≤ 1)%Z
  ∧ Forall hit_consistent (individuals outbreak_world)
  ∧ simulate_serial (H := coin) 3 4 1 one_room outbreak_world
    = Returned (outbreak_serial_run.1, outbreak_serial_run.2)
  ∧ ((∃ new, outbreak_parallel_run.2 = [] ++ new
             ∧ length new = Z.to_nat (1 + 1)
             ∧ Forall (λ entry : Z * Z, entry.2 ≤ entry.1)%Z new)
     ∧ length outbreak_serial_run.2 = Z.to_nat (1 + 1)
     ∧ Forall (λ entry : Z * Z, entry.2 ≤ entry.1)%Z outbreak_serial_run.2).
Proof.
  assert (0 ≤ 1 ≤ 255)%Z as H1 by lia.
  assert (simulate_parallel (H := coin) 3 (λ _, in_order) None 4 1 one_room
            outbreak_world []
          = Returned (outbreak_parallel_run.1.1, outbreak_parallel_run.1.2,
                      outbreak_parallel_run.2)) as H2 by (vm_compute; reflexivity).
  assert (0 ≤ 1)%Z as H3 by lia.
  pose proof outbreak_consistent as H4.
  assert (simulate_serial (H := coin) 3 4 1 one_room outbreak_world
          = Returned (outbreak_serial_run.1, outbreak_serial_run.2)) as H5
    by (vm_compute; reflexivity).
  exact (conj H1 (conj H2 (conj H3 (conj H4 (conj H5
    (infected_count_le_hit_count (H := coin) 3 (λ _, in_order) None 4 1 one_room
       outbreak_world _ [] _ _ 3 4 1 one_room outbreak_world _ _
       H1 H2 H3 H4 H5)))))).
Defined.

(** C4 on the two sample runs of the outbreak. *)
Lemma hit_count_never_decreases_witness :
  (0 ≤ 1 ≤ 255)%Z
  ∧ Forall hit_consistent (individuals outbreak_world)
  ∧ simulate_parallel (H := coin) 3 (λ _, in_order) None 4 1 one_room
      outbreak_world []
    = Returned (outbreak_parallel_run.1.1, outbreak_parallel_run.1.2,
                outbreak_parallel_run.2)
  ∧ (0 ≤ 1)%Z
  ∧ simulate_serial (H := coin) 3 4 1 one_room outbreak_world
    = Returned (outbreak_serial_run.1, outbreak_serial_run.2)
  ∧ ((∃ new, outbreak_parallel_run.2 = [] ++ new
             ∧ length new = Z.to_nat (1 + 1)
             ∧ ∀ k earlier later,
                 new !! k = Some earlier → new !! S k = Some later →
                 (earlier.1 ≤ later.1)%Z)
     ∧ length outbreak_serial_run.2 = Z.to_nat (1 + 1)
     ∧ ∀ k earlier later,
         outbreak_serial_run.2 !! k = Some earlier →
         outbreak_serial_run.2 !! S k = Some later →
         (earlier.1 ≤ later.1)%Z).
Proof.
  assert (0 ≤ 1 ≤ 255)%Z as H1 by lia.
  pose proof outbreak_consistent as H2.
  assert (simulate_parallel (H := coin) 3 (λ _, in_order) None 4 1 one_room
            outbreak_world []
          = Returned (outbreak_parallel_run.1.1, outbreak_parallel_run.1.2,
                      outbreak_parallel_run.2)) as H3 by (vm_compute; reflexivity).
  assert (0 ≤ 1)%Z as H4 by lia.
  assert (simulate_serial (H := coin) 3 4 1 one_room outbreak_world
          = Returned (outbreak_serial_run.1, outbreak_serial_run.2)) as H5
    by (vm_compute; reflexivity).
  exact (conj H1 (conj H2 (conj H3 (conj H4 (conj H5
    (hit_count_never_decreases (H := coin) 3 (λ _, in_order) None 4 1 one_room
       outbreak_world _ [] _ _ 3 4 1 one_room outbreak_world _ _
       H1 H2 H3 H4 H5)))))).
Defined.

Lemma outbreak_on_two_rooms : on_graph two_rooms outbreak.
Proof. unfold on_graph, outbreak. repeat constructor. Qed.

(** C7 on the outbreak moving over two rooms, thread 1 first. *)
Lemma movement_stays_in_neighborhood_witness :
  graph_closed two_rooms
  ∧ get_node_neighborhood_lookup_map two_rooms = Returned two_rooms_map
  ∧ on_graph two_rooms outbreak
  ∧ [1; 0; 2; 3] ≡ₚ seq 0 (length outbreak)
  ∧ ((∃ moved g', move_all two_rooms_map outbreak [0; 1; 1; 1]%Z = Returned (moved, g')
                  ∧ Forall2 (stays two_rooms two_rooms_map) outbreak moved)
     ∧ (∃ w', movement_phase_parallel two_rooms_map [1; 0; 2; 3]
                {| individuals := outbreak; generator := [0; 1; 1; 1]%Z |}
              = Returned w'
              ∧ Forall2 (stays two_rooms two_rooms_map) outbreak (individuals w'))).
Proof.
  pose proof two_rooms_closed as H1.
  assert (get_node_neighborhood_lookup_map two_rooms = Returned two_rooms_map) as H2
    by (vm_compute; reflexivity).
  pose proof outbreak_on_two_rooms as H3.
  assert ([1; 0; 2; 3] ≡ₚ seq 0 (length outbreak)) as H4 by apply perm_swap.
  exact (conj H1 (conj H2 (conj H3 (conj H4
    (movement_stays_in_neighborhood two_rooms two_rooms_map outbreak
       [0; 1; 1; 1]%Z [1; 0; 2; 3] H1 H2 H3 H4))))).
Defined.

(** C8 on five seed cases for four individuals, and on one seed case. *)
Lemma reset_input_seed_cases_witness :
  (4 < INITIAL_INFECTED_COUNT (DiseaseSettings := overseeded))%Z
  ∧ reset_input (H := overseeded) one_room 4 [3; 1; 4; 1]%Z
    = Raised InvalidConfiguration
  ∧ (0 < 4)%Z
  ∧ (0 ≤ INITIAL_INFECTED_COUNT (DiseaseSettings := coin) ≤ 4)%Z
  ∧ ∃ w, reset_input (H := coin) two_rooms 4 [3; 1; 4; 1]%Z
         = Returned (Z.of_nat (num_vertices two_rooms),
                     Z.of_nat (length (m_edges two_rooms)), two_rooms, w)
         ∧ Z.of_nat (length (individuals w)) = 4%Z
         ∧ count is_infected (individuals w)
           = INITIAL_INFECTED_COUNT (DiseaseSettings := coin)
         ∧ ∀ k x, individuals w !! k = Some x →
                  is_infected x
                  = bool_decide (Z.of_nat k
                                 < INITIAL_INFECTED_COUNT (DiseaseSettings := coin))%Z.
Proof.
  assert (4 < INITIAL_INFECTED_COUNT (DiseaseSettings := overseeded))%Z as H1
    by reflexivity.
  assert (0 < 4)%Z as H2 by reflexivity.
  assert (0 ≤ INITIAL_INFECTED_COUNT (DiseaseSettings := coin) ≤ 4)%Z as H3
    by (split; discriminate).
  exact (conj H1 (conj
    (proj1 (reset_input_seed_cases (H := overseeded) one_room 4 [3; 1; 4; 1]%Z) H1)
    (conj H2 (conj H3
    (proj1 (proj2 (reset_input_seed_cases (H := coin) two_rooms 4 [3; 1; 4; 1]%Z))
       H2 H3))))).
Defined.

(** C9 on the infection phase of the outbreak. *)
Lemma infection_phase_parallel_frame_witness :
  Forall (λ i, i < length (individuals outbreak_phase)) [0; 1; 2; 3]
  ∧ (4 ≤ Z.of_nat (length (individuals outbreak_phase)))%Z
  ∧ ∃ w' log,
      infection_phase_parallel (H := coin) 4 [0; 1; 2; 3] outbreak_phase
        = Returned (w', log)
      ∧ length (individuals w') = length (individuals outbreak_phase)
      ∧ ∀ index before after,
          individuals outbreak_phase !! index = Some before →
          individuals w' !! index = Some after →
          (infection_state before ≠ Susceptible → after = before)
          ∧ (infection_state after ≠ Infected → after = before)
          ∧ (after ≠ before →
             infection_state before = Susceptible
             ∧ infection_state after = Infected
             ∧ location after = location before).
Proof.
  assert (Forall (λ i, i < length (individuals outbreak_phase)) [0; 1; 2; 3]) as H1
    by (repeat constructor).
  assert (4 ≤ Z.of_nat (length (individuals outbreak_phase)))%Z as H2
    by discriminate.
  exact (conj H1 (conj H2
    (infection_phase_parallel_frame (H := coin) 4 [0; 1; 2; 3] outbreak_phase H1 H2))).
Defined.

(** C10 on two calls in a row that share the vector of statistics. *)
Lemma simulate_parallel_accumulates_witness :
  graph_closed one_room ∧ num_vertices one_room ≠ 0
  ∧ on_graph one_room (individuals outbreak_world)
  ∧ (0 < chunk (enter_statics None (individuals outbreak_world)))%Z
  ∧ (max_index (enter_statics None (individuals outbreak_world))
     ≤ Z.of_nat (length (individuals outbreak_world)))%Z
  ∧ (4 ≤ Z.of_nat (length (individuals outbreak_world)))%Z
  ∧ (0 ≤ 1 ≤ 254)%Z ∧ (1 + 1 < Z.of_nat 3)%Z
  ∧ graph_closed two_rooms ∧ num_vertices two_rooms ≠ 0
  ∧ on_graph two_rooms (individuals parting_world)
  ∧ (max_index (enter_statics None (individuals outbreak_world))
     ≤ Z.of_nat (length (individuals parting_world)))%Z
  ∧ (4 ≤ Z.of_nat (length (individuals parting_world)))%Z
  ∧ (0 ≤ 0 ≤ 254)%Z ∧ (0 + 1 < Z.of_nat 2)%Z
  ∧ (∃ st w1' new1 w2' new2,
       simulate_parallel (H := coin) 3 (λ _, in_order) None 4 1 one_room
         outbreak_world [(9, 9)%Z]
         = Returned (st, w1', [(9, 9)%Z] ++ new1)
       ∧ length new1 = Z.to_nat (1 + 1)
       ∧ simulate_parallel (H := coin) 2 (λ _, second_first) (Some st) 4 0 two_rooms
           parting_world ([(9, 9)%Z] ++ new1)
         = Returned (st, w2', [(9, 9)%Z] ++ new1 ++ new2)
       ∧ length new2 = Z.to_nat (0 + 1))
  ∧ (∀ fuel schedule previous count epochs graph w before st w' after,
       (0 ≤ epochs ≤ 255)%Z →
       simulate_parallel (H := coin) fuel schedule previous count epochs graph w
         before
         = Returned (st, w', after) →
       ∃ new, after = before ++ new ∧ length new = Z.to_nat (epochs + 1)).
Proof.
  pose proof one_room_closed as H1.
  assert (num_vertices one_room ≠ 0) as H2 by discriminate.
  pose proof outbreak_on_one_room as H3.
  assert (0 < chunk (enter_statics None (individuals outbreak_world)))%Z as Hc
    by reflexivity.
  assert (max_index (enter_statics None (individuals outbreak_world))
          ≤ Z.of_nat (length (individuals outbreak_world)))%Z as H4 by discriminate.
  assert (4 ≤ Z.of_nat (length (individuals outbreak_world)))%Z as H5 by discriminate.
  assert (0 ≤ 1 ≤ 254)%Z as H6 by (split; discriminate).
  assert (1 + 1 < Z.of_nat 3)%Z as H7 by reflexivity.
  pose proof two_rooms_closed as H8.
  assert (num_vertices two_rooms ≠ 0) as H9 by discriminate.
  pose proof outbreak_on_two_rooms as H10.
  assert (max_index (enter_statics None (individuals outbreak_world))
          ≤ Z.of_nat (length (individuals parting_world)))%Z as H11 by discriminate.
  assert (4 ≤ Z.of_nat (length (individuals parting_world)))%Z as H12 by discriminate.
  assert (0 ≤ 0 ≤ 254)%Z as H13 by (split; discriminate).
  assert (0 + 1 < Z.of_nat 2)%Z as H14 by reflexivity.
  exact (conj H1 (conj H2 (conj H3 (conj Hc (conj H4 (conj H5 (conj H6 (conj H7
    (conj H8 (conj H9 (conj H10 (conj H11 (conj H12 (conj H13 (conj H14
    (simulate_parallel_accumulates (H := coin) [(9, 9)%Z] None
       3 (λ _, in_order) 4 1 one_room outbreak_world
       2 (λ _, second_first) 4 0 two_rooms parting_world
       H1 H2 H3 Hc H4 H5 H6 H7 H8 H9 H10 H11 H12 H13 H14)))))))))))))))).
Defined.

(** C1, amended, on the outbreak moving over two rooms for two epochs, the
    infection loop and the advance loop out of index order. *)
Lemma serial_parallel_agree_deterministic_witness :
  deterministic_spread (H := certain)
  ∧ (∀ e : Z, iteration_order (move_rank ((λ _ : Z, moves_in_order) e))
                (max_index (enter_statics None (individuals parting_world)))
              = seq 0 (Z.to_nat (max_index (enter_statics None
                                              (individuals parting_world)))))
  ∧ (0 ≤ 1 ≤ 254)%Z
  ∧ Forall hit_consistent (individuals parting_world)
  ∧ (0 < chunk (enter_statics None (individuals parting_world)))%Z
  ∧ max_index (enter_statics None (individuals parting_world))
    = Z.of_nat (length (individuals parting_world))
  ∧ 4%Z = Z.of_nat (length (individuals parting_world))
  ∧ graph_closed two_rooms ∧ num_vertices two_rooms ≠ 0
  ∧ on_graph two_rooms (individuals parting_world)
  ∧ (1 + 1 < Z.of_nat 3)%Z
  ∧ ∃ w' stats final,
      simulate_serial (H := certain) 3 4 1 two_rooms parting_world
        = Returned (w', stats)
      ∧ simulate_parallel (H := certain) 3 (λ _, moves_in_order) None 4 1 two_rooms
          parting_world []
        = Returned (enter_statics None (individuals parting_world), w', [] ++ stats)
      ∧ last stats = Some final
      ∧ last ([] ++ stats) = Some final.
Proof.
  pose proof certain_deterministic as H1.
  assert (∀ e : Z, iteration_order (move_rank ((λ _ : Z, moves_in_order) e))
                     (max_index (enter_statics None (individuals parting_world)))
                   = seq 0 (Z.to_nat (max_index (enter_statics None
                                                   (individuals parting_world)))))
    as Hm by (intros e; vm_compute; reflexivity).
  assert (0 ≤ 1 ≤ 254)%Z as H2 by (split; discriminate).
  pose proof outbreak_consistent as H3.
  assert (0 < chunk (enter_statics None (individuals parting_world)))%Z as Hc
    by reflexivity.
  assert (max_index (enter_statics None (individuals parting_world))
          = Z.of_nat (length (individuals parting_world))) as H4 by reflexivity.
  assert (4%Z = Z.of_nat (length (individuals parting_world))) as H5 by reflexivity.
  pose proof two_rooms_closed as H6.
  assert (num_vertices two_rooms ≠ 0) as H7 by discriminate.
  pose proof outbreak_on_two_rooms as H8.
  assert (1 + 1 < Z.of_nat 3)%Z as H9 by reflexivity.
  exact (conj H1 (conj Hm (conj H2 (conj H3 (conj Hc (conj H4 (conj H5 (conj H6
    (conj H7 (conj H8 (conj H9
    (serial_parallel_agree_deterministic (H := certain) 3 (λ _, moves_in_order)
       None 4 4 1 two_rooms
       parting_world [] H1 Hm H2 H3 Hc H4 H5 H6 H7 H8 H9)))))))))))).
Defined.

(** C2, amended, on the outbreak with an interleaving out of index order. *)
Lemma infection_phase_deterministic_snapshot_witness :
  deterministic_spread (H := certain)
  ∧ 4%Z = Z.of_nat (length (individuals outbreak_phase))
  ∧ [0; 2; 1; 3] ≡ₚ seq 0 (length (individuals outbreak_phase))
  ∧ (∃ log, infection_phase_serial (H := certain) outbreak_phase
            = Returned (infection_phase_snapshot (H := certain) outbreak_phase, log))
  ∧ (∃ log, infection_phase_parallel (H := certain) 4 [0; 2; 1; 3] outbreak_phase
            = Returned (infection_phase_snapshot (H := certain) outbreak_phase, log)).
Proof.
  pose proof certain_deterministic as H1.
  assert (4%Z = Z.of_nat (length (individuals outbreak_phase))) as H2 by reflexivity.
  assert ([0; 2; 1; 3] ≡ₚ seq 0 (length (individuals outbreak_phase))) as H3
    by (apply perm_skip, perm_swap).
  exact (conj H1 (conj H2 (conj H3
    (infection_phase_deterministic_snapshot (H := certain) outbreak_phase 4
       [0; 2; 1; 3] H1 H2 H3)))).
Defined.

(** C5, amended, on the scan of the recovered individual of the ward and
    on the turn of its first infected individual. *)
Lemma try_infect_invocations_witness :
  infect_iteration (H := coin) 4 2 (ward_phase, []) = Returned (ward_scan.1, ward_scan.2)
  ∧ spread_iteration (H := coin) 0 (ward_phase, [])
    = Returned (ward_spread.1, ward_spread.2)
  ∧ (∃ slot calls,
       individuals ward_phase !! 2 = Some slot
       ∧ ward_scan.2 = [] ++ calls
       ∧ (is_infected slot = true → calls = [])
       ∧ Forall (λ c, call_target c = 2 ∧ call_before c = slot) calls
       ∧ call_source <$> calls
           `prefix_of` matches (individuals ward_phase) slot (seq 0 (Z.to_nat 4))
       ∧ (is_infected slot = false → individuals ward_scan.1 !! 2 = Some slot →
          call_source <$> calls
          = matches (individuals ward_phase) slot (seq 0 (Z.to_nat 4)))
       ∧ (deterministic_spread (H := coin) → infection_state slot = Susceptible →
          call_source <$> calls
          = take 1 (matches (individuals ward_phase) slot (seq 0 (Z.to_nat 4)))))
  ∧ (∃ slot calls,
       individuals ward_phase !! 0 = Some slot
       ∧ ward_spread.2 = [] ++ calls
       ∧ Forall (λ c, call_source c = 0) calls
       ∧ call_target <$> calls
         = if is_infected slot
           then contacts (individuals ward_phase) 0 slot
                         (seq 0 (length (individuals ward_phase)))
           else []).
Proof.
  assert (infect_iteration (H := coin) 4 2 (ward_phase, [])
          = Returned (ward_scan.1, ward_scan.2)) as H1 by (vm_compute; reflexivity).
  assert (spread_iteration (H := coin) 0 (ward_phase, [])
          = Returned (ward_spread.1, ward_spread.2)) as H2
    by (vm_compute; reflexivity).
  exact (conj H1 (conj H2
    (try_infect_invocations (H := coin) 4 2 ward_phase _ [] _ 0 ward_phase _ [] _
       H1 H2))).
Defined.

(** * Further properties of the drivers *)

(** ** Induction over the epochs of a run *)

(** A property of the population and the statistics that every epoch of
    [simulate_parallel] keeps holds when the call returns. *)
Lemma simulate_parallel_induction `{DiseaseSettings}
    (P : World * list (Z * Z) → Prop) (fuel : nat)
    (schedule : Z → EpochSchedule) (statics : option Statics)
    (individual_count total_epochs : Z) (graph : LocationUndirectedGraph)
    (w w' : World) (prior stats : list (Z * Z)) (st : Statics) :
  P (w, prior) →
  (∀ m e s1 s2,
     get_node_neighborhood_lookup_map graph = Returned m → P s1 →
     parallel_epoch schedule (enter_statics statics (individuals w))
       individual_count m e s1 = Returned s2 →
     P s2) →
  simulate_parallel fuel schedule statics individual_count total_epochs graph w prior
    = Returned (st, w', stats) →
  P (w', stats).
Proof.
  intros Hstart Hstep Hrun. unfold simulate_parallel in Hrun.
  outcome_inv Hrun. rename a into m.
  outcome_inv Hrun. destruct a as [w1 stats1]. injection Hrun as <- <- <-.
  apply (epoch_loop_invariant (λ _ s, P s)) in Hrun_step0 as [_ [_ HP]]; [done|done|].
  intros e1 s1 s2 _ HP Hbody. by eapply Hstep.
Qed.

(** The same for [simulate_serial]. *)
Lemma simulate_serial_induction `{DiseaseSettings}
    (P : World * list (Z * Z) → Prop) (fuel : nat)
    (individual_count total_epochs : Z) (graph : LocationUndirectedGraph)
    (w w' : World) (stats : list (Z * Z)) :
  P (w, []) →
  (∀ m e s1 s2,
     get_node_neighborhood_lookup_map graph = Returned m → P s1 →
     serial_epoch m e s1 = Returned s2 → P s2) →
  simulate_serial fuel individual_count total_epochs graph w = Returned (w', stats) →
  P (w', stats).
Proof.
  intros Hstart Hstep Hrun. unfold simulate_serial in Hrun.
  outcome_inv Hrun. rename a into m. case_decide; [discriminate|].
  apply (epoch_loop_invariant (λ _ s, P s)) in Hrun as [_ [_ HP]]; [done|done|].
  intros e1 s1 s2 _ HP Hbody. by eapply Hstep.
Qed.

(** ** The counters stay within the population *)

Lemma count_le_length (f : Individual → bool) (l : list Individual) :
  (count f l ≤ Z.of_nat (length l))%Z.
Proof. unfold count. pose proof (length_filter (λ x, f x = true) l). lia. Qed.

Lemma tally_le_length (f : Individual → bool) (p : list Individual) (o : list nat) :
  NoDup o → (tally f p o ≤ Z.of_nat (length p))%Z.
Proof.
  intros Hnd. unfold tally.
  assert (filter (λ k, flag_at f p k = true) o ⊆+ seq 0 (length p)) as Hsub.
  { apply NoDup_submseteq; [by apply NoDup_filter|].
    intros k Hk. apply list_elem_of_filter in Hk as [Hflag _].
    apply elem_of_seq. unfold flag_at in Hflag.
    destruct (p !! k) eqn:Hk; [|done]. apply lookup_lt_Some in Hk. lia. }
  apply submseteq_length in Hsub. rewrite length_seq in Hsub. lia.
Qed.

(** X1: every entry of [simulate_serial] counts between 0 and the number
    of individuals, for the hit and for the infected, and the last entry
    counts the hit and the infected individuals of the population that the
    call leaves behind. *)
Theorem simulate_serial_counts `{DiseaseSettings} (fuel : nat)
    (individual_count total_epochs : Z) (graph : LocationUndirectedGraph)
    (w w' : World) (stats : list (Z * Z))
    (Hepochs : (0 ≤ total_epochs)%Z)
    (Hrun : simulate_serial fuel individual_count total_epochs graph w
            = Returned (w', stats)) :
  length (individuals w') = length (individuals w)
  ∧ Forall (λ entry : Z * Z,
              (0 ≤ entry.1 ≤ Z.of_nat (length (individuals w)))%Z
              ∧ (0 ≤ entry.2 ≤ Z.of_nat (length (individuals w)))%Z) stats
  ∧ last stats = Some (count is_hit (individuals w'),
                       count is_infected (individuals w')).
Proof.
  pose proof (simulate_serial_Returned _ _ _ _ _ _ _ Hepochs Hrun)
    as (_ & new & (Hstats & Hlen & _) & _).
  simpl in Hstats. subst new.
  apply (simulate_serial_induction
           (λ s, length (individuals s.1) = length (individuals w)
                 ∧ Forall (λ entry : Z * Z,
                             (0 ≤ entry.1 ≤ Z.of_nat (length (individuals w)))%Z
                             ∧ (0 ≤ entry.2 ≤ Z.of_nat (length (individuals w)))%Z)
                          s.2
                 ∧ (s.2 = [] ∨ last s.2 = Some (count is_hit (individuals s.1),
                                                count is_infected (individuals s.1)))))
    in Hrun.
  - destruct Hrun as (Hl & Hall & [Hnil|Hlast]); simpl in *.
    + subst stats. simpl in Hlen. lia.
    + done.
  - simpl. split; [done|]. split; [constructor|by left].
  - intros m e [w1 stats1] [w2 stats2] _ (Hl & Hall & _) Hbody.
    apply serial_epoch_Returned in Hbody as (hit & inf & -> & Hl2 & _ & -> & ->).
    simpl in *.
    split; [congruence|]. split.
    + apply Forall_app. split; [done|]. constructor; [|done]. simpl.
      pose proof (count_le_length is_hit (individuals w2)).
      pose proof (count_le_length is_infected (individuals w2)).
      pose proof (count_nonneg is_hit (individuals w2)).
      pose proof (count_nonneg is_infected (individuals w2)).
      rewrite <- Hl, <- Hl2. lia.
    + right. apply last_snoc.
Qed.

(** X2: every entry that [simulate_parallel] appends satisfies
    [0 ≤ infected_count ≤ hit_count ≤ individuals.size()], whatever the
    static [max_index], the interleavings and the population; the counters,
    [int]s in the source, cannot overflow. *)
Theorem simulate_parallel_counts_bounded `{DiseaseSettings} (fuel : nat)
    (schedule : Z → EpochSchedule) (statics : option Statics)
    (individual_count total_epochs : Z) (graph : LocationUndirectedGraph)
    (w w' : World) (prior stats : list (Z * Z)) (st : Statics)
    (Hrun : simulate_parallel fuel schedule statics individual_count total_epochs
              graph w prior = Returned (st, w', stats)) :
  length (individuals w') = length (individuals w)
  ∧ ∃ new, stats = prior ++ new
           ∧ Forall (λ entry : Z * Z,
                       (0 ≤ entry.2 ≤ entry.1)%Z
                       ∧ (entry.1 ≤ Z.of_nat (length (individuals w)))%Z) new.
Proof.
  apply (simulate_parallel_induction
           (λ s, length (individuals s.1) = length (individuals w)
                 ∧ ∃ new, s.2 = prior ++ new
                          ∧ Forall (λ entry : Z * Z,
                                      (0 ≤ entry.2 ≤ entry.1)%Z
                                      ∧ (entry.1 ≤ Z.of_nat (length (individuals w)))%Z)
                                   new)) in Hrun; [done| |].
  - simpl. split; [done|]. exists []. by rewrite app_nil_r.
  - intros m e [w1 stats1] [w2 stats2] _ (Hl & new & Hnew & Hall) Hbody.
    simpl in Hl, Hnew. subst stats1.
    apply parallel_epoch_Returned in Hbody as (hit & inf & -> & Hl2 & _ & Hh & Hi).
    simpl.
    split; [congruence|]. exists (new ++ [(hit, inf)]).
    split; [by rewrite app_assoc|].
    apply Forall_app. split; [done|]. constructor; [|done]. simpl.
    rewrite Hh, Hi.
    pose proof (tally_nonneg is_infected (individuals w2)
                  (seq 0 (Z.to_nat (max_index (enter_statics statics (individuals w)))))).
    pose proof (tally_infected_le_hit (individuals w2)
                  (seq 0 (Z.to_nat (max_index (enter_statics statics (individuals w)))))).
    pose proof (tally_le_length counted_hit (individuals w2)
                  (seq 0 (Z.to_nat (max_index (enter_statics statics (individuals w)))))
                  (NoDup_seq _ _)).
    rewrite <- Hl, <- Hl2. lia.
Qed.

Lemma count_counted_hit_consistent (l : list Individual) :
  Forall hit_consistent l → count counted_hit l = count is_hit l.
Proof.
  intros Hl. apply count_ext. eapply Forall_impl; [exact Hl|].
  intros x Hx. by apply counted_hit_consistent.
Qed.

(** X3: when the static [max_index] is the size of the population and the
    population satisfies the class invariant, the last entry that
    [simulate_parallel] appends counts the hit and the infected individuals
    of the population that the call leaves behind. *)
Theorem simulate_parallel_reports_population `{DiseaseSettings} (fuel : nat)
    (schedule : Z → EpochSchedule) (statics : option Statics)
    (individual_count total_epochs : Z) (graph : LocationUndirectedGraph)
    (w w' : World) (prior stats : list (Z * Z)) (st : Statics)
    (Hepochs : (0 ≤ total_epochs ≤ 255)%Z)
    (Hconsistent : Forall hit_consistent (individuals w))
    (Hstatics : max_index (enter_statics statics (individuals w))
                = Z.of_nat (length (individuals w)))
    (Hrun : simulate_parallel fuel schedule statics individual_count total_epochs
              graph w prior = Returned (st, w', stats)) :
  ∃ new, stats = prior ++ new
         ∧ last new = Some (count is_hit (individuals w'),
                            count is_infected (individuals w')).
Proof.
  pose proof (simulate_parallel_Returned _ _ _ _ _ _ _ _ _ _ _ Hepochs Hrun)
    as (_ & _ & new0 & (Hstats0 & Hlen0 & _) & Hprog & _).
  simpl in Hstats0, Hprog.
  apply (simulate_parallel_induction
           (λ s, length (individuals s.1) = length (individuals w)
                 ∧ ∃ new, s.2 = prior ++ new
                          ∧ (new = []
                             ∨ last new
                               = Some (tally counted_hit (individuals s.1)
                                         (seq 0 (length (individuals w))),
                                       tally is_infected (individuals s.1)
                                         (seq 0 (length (individuals w)))))))
    in Hrun.
  - destruct Hrun as (Hl & new & Hstats & Hlast). simpl in *.
    assert (new = new0) as -> by (apply (app_inv_head prior); congruence).
    exists new0. split; [done|]. destruct Hlast as [->|Hlast].
    + simpl in Hlen0. lia.
    + rewrite Hlast, <- Hl, !tally_seq_0.
      rewrite count_counted_hit_consistent; [done|].
      by eapply progresses_hit_consistent.
  - simpl. split; [done|]. exists []. rewrite app_nil_r. split; [done|by left].
  - intros m e [w1 stats1] [w2 stats2] _ (Hl & new & Hnew & _) Hbody.
    simpl in Hl, Hnew. subst stats1.
    apply parallel_epoch_Returned in Hbody as (hit & inf & -> & Hl2 & _ & Hh & Hi).
    simpl.
    split; [congruence|]. exists (new ++ [(hit, inf)]).
    split; [by rewrite app_assoc|]. right.
    rewrite last_snoc, Hh, Hi, Hstatics, Nat2Z.id. done.
Qed.

(** ** Infection is local *)

Lemma caught_from_refl (start : list Individual) (i : Individual) :
  caught_from start i i.
Proof. by left. Qed.

(** An infected individual of the live array stands where the population
    at the start of the phase has an infected individual. *)
Lemma caught_from_hot (start cur : list Individual) (a : nat) (y : Individual) :
  Forall2 (caught_from start) start cur →
  cur !! a = Some y → is_infected y = true →
  Exists (λ j, meets y j = true) start.
Proof.
  intros HF Hy Hinf.
  destruct (Forall2_lookup_r _ _ _ _ _ HF Hy) as [b [Hb [->|[He ->]]]].
  - apply Exists_exists. exists b. split; [by eapply list_elem_of_lookup_2|].
    apply meets_true. split; [by apply is_infected_true|done].
  - apply exposed_true in He as [_ He]. eapply Exists_impl; [exact He|].
    intros j Hj. by rewrite (meets_location _ b).
Qed.

Lemma scan_affecting_source `{DiseaseSettings} (population : list Individual)
    (index : nat) (affecting : list nat) (current x : Individual) (g g' : Generator)
    (calls : list TryInfectCall) :
  is_infected current = false →
  scan_affecting population index affecting current g = Returned (Some x, g', calls) →
  ∃ a y, population !! a = Some y ∧ meets current y = true.
Proof.
  intros Hcur. revert g g' calls.
  induction affecting as [|a rest IH]; intros g g' calls Hscan; simpl in Hscan.
  - discriminate.
  - outcome_inv Hscan. apply at_index_Returned in Hscan_step.
    change (is_infected a0 && bool_decide (get_location current = get_location a0))
      with (meets current a0) in Hscan.
    destruct (meets current a0) eqn:Hmeet; [eauto|].
    by eapply IH.
Qed.

Lemma infect_iteration_local `{DiseaseSettings} (individual_count : Z) (index : nat)
    (w w' : World) (log log' : list TryInfectCall) (start : list Individual) :
  infect_iteration individual_count index (w, log) = Returned (w', log') →
  Forall2 (caught_from start) start (individuals w) →
  Forall2 (caught_from start) start (individuals w').
Proof.
  intros Hrun Hstart. unfold infect_iteration in Hrun.
  outcome_inv Hrun. apply at_index_Returned in Hrun_step.
  destruct (is_infected a) eqn:Hinf.
  - by injection Hrun as <- _.
  - outcome_inv Hrun. destruct a0 as [[saved g] calls].
    injection Hrun as <- _. simpl.
    destruct saved as [x|]; [|done].
    destruct (scan_affecting_saved _ _ _ _ _ _ _ _ Hrun_step0 Hinf x eq_refl)
      as [Hsus ->].
    destruct (scan_affecting_source _ _ _ _ _ _ _ _ Hinf Hrun_step0)
      as (src & y & Hy & Hm).
    pose proof Hm as Hm'. apply meets_true in Hm' as [Hyinf Hloc].
    pose proof (caught_from_hot _ _ _ _ Hstart Hy
                  (proj2 (is_infected_true y) Hyinf)) as Hhot.
    destruct (Forall2_lookup_r _ _ _ _ _ Hstart Hrun_step) as [b [Hb Hrel]].
    assert (a = b) as ->.
    { destruct Hrel as [->|[_ ->]]; [done|]. done. }
    eapply Forall2_insert_right; [done|exact Hb|]. right. split; [|done].
    apply exposed_true. split; [done|]. eapply Exists_impl; [exact Hhot|].
    intros j Hj. by rewrite (meets_location _ y).
Qed.

Lemma meet_local `{DiseaseSettings} (i a : nat) (w w' : World)
    (log log' : list TryInfectCall) (start : list Individual) (slot : Individual) :
  individuals w !! i = Some slot → is_infected slot = true →
  meet i a (w, log) = Returned (w', log') →
  Forall2 (caught_from start) start (individuals w) →
  Forall2 (caught_from start) start (individuals w')
  ∧ individuals w' !! i = Some slot.
Proof.
  intros Hslot Hinf Hrun Hstart.
  pose proof (caught_from_hot _ _ _ _ Hstart Hslot Hinf) as Hhot.
  unfold meet in Hrun. case_decide as Hia; [|by injection Hrun as <- _].
  outcome_inv Hrun. outcome_inv Hrun. apply at_index_Returned in Hrun_step, Hrun_step0.
  assert (a0 = slot) as -> by congruence. rename a1 into y.
  destruct (bool_decide (get_location slot = get_location y)) eqn:Hloc;
    [|by injection Hrun as <- _].
  apply bool_decide_eq_true in Hloc.
  pose proof (try_infect_result y (generator w)) as Hres.
  destruct (try_infect y (generator w)) as [tried g]. simpl in Hres.
  injection Hrun as <- _. simpl.
  split; [|by rewrite list_lookup_insert_ne].
  destruct (Forall2_lookup_r _ _ _ _ _ Hstart Hrun_step0) as [b [Hb Hrel]].
  eapply Forall2_insert_right; [done|exact Hb|].
  destruct Hres as [->|[Hsus ->]]; [done|].
  assert (y = b) as ->.
  { destruct Hrel as [->|[_ ->]]; [done|]. done. }
  right. split; [|done]. apply exposed_true. split; [done|].
  eapply Exists_impl; [exact Hhot|]. intros j Hj.
  by rewrite (meets_location _ slot).
Qed.

Lemma spread_iteration_local `{DiseaseSettings} (i : nat) (w w' : World)
    (log log' : list TryInfectCall) (start : list Individual) :
  spread_iteration i (w, log) = Returned (w', log') →
  Forall2 (caught_from start) start (individuals w) →
  Forall2 (caught_from start) start (individuals w').
Proof.
  unfold spread_iteration. intros Hrun Hstart. outcome_inv Hrun.
  apply at_index_Returned in Hrun_step. simpl in Hrun_step.
  destruct (is_infected a) eqn:Hinf; [|by injection Hrun as <- _].
  apply (for_indices_invariant
           (λ s, Forall2 (caught_from start) start (individuals s.1)
                 ∧ individuals s.1 !! i = Some a)) in Hrun; [by destruct Hrun|done|].
  intros k [w1 l1] [w2 l2] _ [Hinv Hslot] Hbody. simpl in *.
  by eapply meet_local.
Qed.

(** X4: infection is local.  Whatever the draws and the interleaving, an
    infection phase changes a slot only by infecting a susceptible individual
    that shares its location with an individual that was infected when the
    phase began; this holds for the loop of [simulate_parallel] and for the
    loop of [simulate_serial], although both read the live array. *)
Theorem infection_is_local `{DiseaseSettings} (individual_count : Z)
    (order : list nat) (w : World)
    (Horder : Forall (λ i, i < length (individuals w)) order)
    (Hcount : (individual_count ≤ Z.of_nat (length (individuals w)))%Z) :
  (∃ w' log,
     infection_phase_parallel individual_count order w = Returned (w', log)
     ∧ Forall2 (caught_from (individuals w)) (individuals w) (individuals w'))
  ∧ (∃ w' log,
       infection_phase_serial w = Returned (w', log)
       ∧ Forall2 (caught_from (individuals w)) (individuals w) (individuals w')).
Proof.
  assert (Forall2 (caught_from (individuals w)) (individuals w) (individuals w))
    as Hstart.
  { apply Forall_Forall2_diag, Forall_forall. intros. apply caught_from_refl. }
  split.
  - destruct (infection_phase_parallel_returns individual_count order w Horder Hcount)
      as [[w' log] Hrun].
    exists w', log. split; [done|]. unfold infection_phase_parallel in Hrun.
    apply (for_indices_invariant
             (λ s, Forall2 (caught_from (individuals w)) (individuals w)
                           (individuals s.1))) in Hrun; [done|done|].
    intros i [w1 l1] [w2 l2] _ Hinv Hbody. by eapply infect_iteration_local.
  - destruct (infection_phase_serial_returns w) as [[w' log] Hrun].
    exists w', log. split; [done|]. unfold infection_phase_serial in Hrun.
    apply (for_indices_invariant
             (λ s, Forall2 (caught_from (individuals w)) (individuals w)
                           (individuals s.1))) in Hrun; [done|done|].
    intros i [w1 l1] [w2 l2] _ Hinv Hbody. by eapply spread_iteration_local.
Qed.

(** ** The further properties on the sample runs *)

(** X1 on the serial run of the outbreak. *)
Lemma simulate_serial_counts_witness :
  (0 ≤ 1)%Z
  ∧ simulate_serial (H := coin) 3 4 1 one_room outbreak_world
    = Returned (outbreak_serial_run.1, outbreak_serial_run.2)
  ∧ (length (individuals outbreak_serial_run.1) = length (individuals outbreak_world)
     ∧ Forall (λ entry : Z * Z,
                 (0 ≤ entry.1 ≤ Z.of_nat (length (individuals outbreak_world)))%Z
                 ∧ (0 ≤ entry.2 ≤ Z.of_nat (length (individuals outbreak_world)))%Z)
              outbreak_serial_run.2
     ∧ last outbreak_serial_run.2
       = Some (count is_hit (individuals outbreak_serial_run.1),
               count is_infected (individuals outbreak_serial_run.1))).
Proof.
  assert (0 ≤ 1)%Z as H1 by lia.
  assert (simulate_serial (H := coin) 3 4 1 one_room outbreak_world
          = Returned (outbreak_serial_run.1, outbreak_serial_run.2)) as H2
    by (vm_compute; reflexivity).
  exact (conj H1 (conj H2
    (simulate_serial_counts (H := coin) 3 4 1 one_room outbreak_world _ _ H1 H2))).
Defined.

(** X2 on the parallel run of the outbreak. *)
Lemma simulate_parallel_counts_bounded_witness :
  simulate_parallel (H := coin) 3 (λ _, in_order) None 4 1 one_room
    outbreak_world []
  = Returned (outbreak_parallel_run.1.1, outbreak_parallel_run.1.2,
              outbreak_parallel_run.2)
  ∧ (length (individuals outbreak_parallel_run.1.2)
     = length (individuals outbreak_world)
     ∧ ∃ new, outbreak_parallel_run.2 = [] ++ new
              ∧ Forall (λ entry : Z * Z,
                          (0 ≤ entry.2 ≤ entry.1)%Z
                          ∧ (entry.1 ≤ Z.of_nat (length (individuals outbreak_world)))%Z)
                       new).
Proof.
  assert (simulate_parallel (H := coin) 3 (λ _, in_order) None 4 1 one_room
            outbreak_world []
          = Returned (outbreak_parallel_run.1.1, outbreak_parallel_run.1.2,
                      outbreak_parallel_run.2)) as H1 by (vm_compute; reflexivity).
  exact (conj H1
    (simulate_parallel_counts_bounded (H := coin) 3 (λ _, in_order) None 4 1
       one_room outbreak_world _ [] _ _ H1)).
Defined.

(** X3 on the parallel run of the outbreak. *)
Lemma simulate_parallel_reports_population_witness :
  (0 ≤ 1 ≤ 255)%Z
  ∧ Forall hit_consistent (individuals outbreak_world)
  ∧ max_index (enter_statics None (individuals outbreak_world))
    = Z.of_nat (length (individuals outbreak_world))
  ∧ simulate_parallel (H := coin) 3 (λ _, in_order) None 4 1 one_room
      outbreak_world []
    = Returned (outbreak_parallel_run.1.1, outbreak_parallel_run.1.2,
                outbreak_parallel_run.2)
  ∧ ∃ new, outbreak_parallel_run.2 = [] ++ new
           ∧ last new = Some (count is_hit (individuals outbreak_parallel_run.1.2),
                              count is_infected (individuals outbreak_parallel_run.1.2)).
Proof.
  assert (0 ≤ 1 ≤ 255)%Z as H1 by lia.
  pose proof outbreak_consistent as H2.
  assert (max_index (enter_statics None (individuals outbreak_world))
          = Z.of_nat (length (individuals outbreak_world))) as H3 by reflexivity.
  assert (simulate_parallel (H := coin) 3 (λ _, in_order) None 4 1 one_room
            outbreak_world []
          = Returned (outbreak_parallel_run.1.1, outbreak_parallel_run.1.2,
                      outbreak_parallel_run.2)) as H4 by (vm_compute; reflexivity).
  exact (conj H1 (conj H2 (conj H3 (conj H4
    (simulate_parallel_reports_population (H := coin) 3 (λ _, in_order) None 4 1
       one_room outbreak_world _ [] _ _ H1 H2 H3 H4))))).
Defined.

(** X4 on the infection phase of the outbreak. *)
Lemma infection_is_local_witness :
  Forall (λ i, i < length (individuals outbreak_phase)) [0; 1; 2; 3]
  ∧ (4 ≤ Z.of_nat (length (individuals outbreak_phase)))%Z
  ∧ ((∃ w' log,
        infection_phase_parallel (H := coin) 4 [0; 1; 2; 3] outbreak_phase
        = Returned (w', log)
        ∧ Forall2 (caught_from (individuals outbreak_phase))
            (individuals outbreak_phase) (individuals w'))
     ∧ (∃ w' log,
          infection_phase_serial (H := coin) outbreak_phase = Returned (w', log)
          ∧ Forall2 (caught_from (individuals outbreak_phase))
              (individuals outbreak_phase) (individuals w'))).
Proof.
  assert (Forall (λ i, i < length (individuals outbreak_phase)) [0; 1; 2; 3]) as H1
    by (repeat constructor).
  assert (4 ≤ Z.of_nat (length (individuals outbreak_phase)))%Z as H2
    by (vm_compute; discriminate).
  exact (conj H1 (conj H2
    (infection_is_local (H := coin) 4 [0; 1; 2; 3] outbreak_phase H1 H2))).
Defined.

(** ** Without an infected individual nothing happens *)

Lemma scan_affecting_no_source `{DiseaseSettings} (population : list Individual)
    (index : nat) (affecting : list nat) (current : Individual) (g : Generator)
    (r : option Individual * Generator * list TryInfectCall) :
  (∀ a y, a ∈ affecting → population !! a = Some y → is_infected y = false) →
  scan_affecting population index affecting current g = Returned r →
  r = (None, g, []).
Proof.
  induction affecting as [|a rest IH]; intros Hnone Hscan; simpl in Hscan.
  - by injection Hscan as <-.
  - outcome_inv Hscan. apply at_index_Returned in Hscan_step.
    rewrite (Hnone a a0) in Hscan; [|left|done]. simpl in Hscan.
    apply IH; [|done]. intros k y Hk. apply Hnone. by right.
Qed.

Lemma infect_iteration_no_source `{DiseaseSettings} (individual_count : Z)
    (index : nat) (w : World) (log : list TryInfectCall)
    (s' : World * list TryInfectCall) :
  (∀ a y, (Z.of_nat a < individual_count)%Z → individuals w !! a = Some y →
          is_infected y = false) →
  infect_iteration individual_count index (w, log) = Returned s' →
  s' = (w, log).
Proof.
  intros Hnone Hrun. unfold infect_iteration in Hrun. outcome_inv Hrun.
  destruct (is_infected a); [by injection Hrun as <-|].
  outcome_inv Hrun. apply scan_affecting_no_source in Hrun_step0 as ->.
  - injection Hrun as <-. rewrite app_nil_r. by destruct w.
  - intros k y Hk. apply Hnone. apply elem_of_seq in Hk. lia.
Qed.

Lemma infection_phase_parallel_no_source `{DiseaseSettings} (individual_count : Z)
    (order : list nat) (w : World) (r : World * list TryInfectCall) :
  (∀ a y, (Z.of_nat a < individual_count)%Z → individuals w !! a = Some y →
          is_infected y = false) →
  infection_phase_parallel individual_count order w = Returned r →
  r = (w, []).
Proof.
  intros Hnone Hrun. unfold infection_phase_parallel in Hrun.
  apply (for_indices_invariant (λ s, s = (w, []))) in Hrun; [done|done|].
  intros i s1 s2 _ -> Hbody. by eapply infect_iteration_no_source.
Qed.

Lemma infection_phase_serial_no_source `{DiseaseSettings} (w : World)
    (r : World * list TryInfectCall) :
  Forall (λ x, is_infected x = false) (individuals w) →
  infection_phase_serial w = Returned r →
  r = (w, []).
Proof.
  intros Hnone Hrun. unfold infection_phase_serial in Hrun.
  apply (for_indices_invariant (λ s, s = (w, []))) in Hrun; [done|done|].
  intros i s1 s2 _ -> Hbody. unfold spread_iteration in Hbody.
  outcome_inv Hbody. apply at_index_Returned in Hbody_step. simpl in Hbody_step.
  rewrite Forall_lookup in Hnone. rewrite (Hnone _ _ Hbody_step) in Hbody.
  by injection Hbody as <-.
Qed.

(** X5: the infection loop of [simulate_parallel] looks for infected
    individuals among the first [individual_count] slots only.  When none
    of them is infected the phase does nothing, whatever the interleaving:
    the population and the generator are as before and [try_infect] is not
    invoked, so that an infected individual stored behind these slots
    infects nobody. *)
Theorem infection_phase_without_source `{DiseaseSettings} (individual_count : Z)
    (order : list nat) (w : World)
    (Horder : Forall (λ i, i < length (individuals w)) order)
    (Hcount : (individual_count ≤ Z.of_nat (length (individuals w)))%Z)
    (Hnone : ∀ a y, (Z.of_nat a < individual_count)%Z →
                    individuals w !! a = Some y → is_infected y = false) :
  infection_phase_parallel individual_count order w = Returned (w, []).
Proof.
  destruct (infection_phase_parallel_returns individual_count order w Horder Hcount)
    as [r Hrun].
  rewrite Hrun. f_equal. by eapply infection_phase_parallel_no_source.
Qed.

Lemma same_health_refl (i : Individual) : same_health i i.
Proof. done. Qed.

Lemma same_health_trans (a b c : Individual) :
  same_health a b → same_health b c → same_health a c.
Proof. unfold same_health. intros (? & ? & ?) (? & ? & ?). repeat split; congruence. Qed.

Lemma moved_within_same_health (m : gmap Z (list Z)) (b a : Individual) :
  moved_within m b a → same_health b a.
Proof. by intros (_ & ? & ? & ?). Qed.

Lemma same_health_not_infected (l k : list Individual) :
  Forall2 same_health l k →
  Forall (λ x, is_infected x = false) l → Forall (λ x, is_infected x = false) k.
Proof.
  induction 1 as [|x y l k [Hxy _] _ IH]; [done|].
  intros Hl. apply Forall_cons in Hl as [Hx Hl]. constructor; [|by apply IH].
  unfold is_infected in *. by rewrite Hxy.
Qed.

Lemma count_same (f g : Individual → bool) (l k : list Individual) :
  Forall2 (λ x y, f x = g y) l k → count f l = count g k.
Proof.
  induction 1 as [|x y l k Hxy _ IH]; [done|].
  by rewrite !count_cons, Hxy, IH.
Qed.

Lemma same_health_hit_count (l k : list Individual) :
  Forall2 same_health l k → count is_hit l = count is_hit k.
Proof.
  intros Hs. apply count_same. eapply Forall2_impl; [exact Hs|].
  intros x y (_ & _ & Hhit). by unfold is_hit.
Qed.

Lemma advance_epoch_not_infected `{DiseaseSettings} (i : Individual) :
  is_infected i = false → advance_epoch i = i.
Proof.
  intros Hi. apply is_infected_false in Hi. unfold advance_epoch.
  by destruct (infection_state i).
Qed.

Lemma fmap_advance_not_infected `{DiseaseSettings} (l : list Individual) :
  Forall (λ x, is_infected x = false) l → advance_epoch <$> l = l.
Proof.
  induction 1 as [|x l Hx _ IH]; [done|].
  by rewrite fmap_cons, IH, advance_epoch_not_infected.
Qed.

Lemma serial_epoch_inert `{DiseaseSettings} (m : gmap Z (list Z)) (e : Z)
    (w w' : World) (stats stats' : list (Z * Z)) :
  Forall (λ x, is_infected x = false) (individuals w) →
  serial_epoch m e (w, stats) = Returned (w', stats') →
  Forall2 same_health (individuals w) (individuals w')
  ∧ stats' = stats ++ [(count is_hit (individuals w), 0%Z)].
Proof.
  unfold serial_epoch. intros Hnone Hrun.
  outcome_inv Hrun. destruct a as [moved g].
  outcome_inv Hrun. destruct a as [w2 log].
  rewrite advance_all_spec in Hrun. injection Hrun as <- <-.
  assert (Forall2 same_health (individuals w) moved) as Hsame.
  { eapply Forall2_impl; [by eapply move_all_moved|].
    apply moved_within_same_health. }
  pose proof (same_health_not_infected _ _ Hsame Hnone) as Hnone'.
  apply infection_phase_serial_no_source in Hrun_step0; [|done].
  injection Hrun_step0 as -> _. simpl.
  rewrite (fmap_advance_not_infected moved Hnone'). split; [done|].
  by rewrite !Z.add_0_l, (count_none is_infected moved Hnone'),
    (same_health_hit_count _ _ Hsame).
Qed.

(** X6: a population without an infected individual stays as it is under
    [simulate_serial], apart from the locations: no individual changes its
    infection state, its duration counter or its hit flag, and every entry
    reports no infected individual and the hit count of the start. *)
Theorem simulate_serial_without_infected `{DiseaseSettings} (fuel : nat)
    (individual_count total_epochs : Z) (graph : LocationUndirectedGraph)
    (w w' : World) (stats : list (Z * Z))
    (Hnone : Forall (λ x, is_infected x = false) (individuals w))
    (Hrun : simulate_serial fuel individual_count total_epochs graph w
            = Returned (w', stats)) :
  Forall2 same_health (individuals w) (individuals w')
  ∧ Forall (λ entry, entry = (count is_hit (individuals w), 0%Z)) stats.
Proof.
  apply (simulate_serial_induction
           (λ s, Forall2 same_health (individuals w) (individuals s.1)
                 ∧ Forall (λ entry, entry = (count is_hit (individuals w), 0%Z)) s.2))
    in Hrun; [done| |].
  - split; [|done]. apply Forall_Forall2_diag, Forall_forall.
    intros. apply same_health_refl.
  - intros m e [w1 st1] [w2 st2] _ [Hs Hst] Hbody. simpl in Hs, Hst |- *.
    apply serial_epoch_inert in Hbody as [Hstep ->];
      [|by eapply same_health_not_infected].
    split.
    + eapply Forall2_trans; [apply same_health_trans|exact Hs|exact Hstep].
    + apply Forall_app. split; [done|]. constructor; [|done].
      by rewrite (same_health_hit_count _ _ Hs).
Qed.

Lemma tally_same (f g : Individual → bool) (p q : list Individual) (o : list nat) :
  (∀ k, k ∈ o → flag_at f p k = flag_at g q k) → tally f p o = tally g q o.
Proof.
  induction o as [|k o IH]; intros Hk; [done|].
  rewrite !tally_cons, IH.
  - rewrite Hk; [done|left].
  - intros j Hj. apply Hk. by right.
Qed.

Lemma tally_none (f : Individual → bool) (p : list Individual) (o : list nat) :
  (∀ k, k ∈ o → flag_at f p k = false) → tally f p o = 0%Z.
Proof.
  induction o as [|k o IH]; intros Hk; [done|].
  rewrite tally_cons, IH.
  - rewrite Hk; [done|left].
  - intros j Hj. apply Hk. by right.
Qed.

Lemma flag_at_not_infected (p : list Individual) (k : nat) :
  Forall (λ x, is_infected x = false) p → flag_at is_infected p k = false.
Proof.
  intros Hp. unfold flag_at. destruct (p !! k) as [x|] eqn:Hx; [|done].
  rewrite Forall_lookup in Hp. by eapply Hp.
Qed.

Lemma same_health_flag_hit (l k : list Individual) (i : nat) :
  Forall2 same_health l k → flag_at is_hit l i = flag_at is_hit k i.
Proof.
  intros Hs. unfold flag_at. destruct (l !! i) as [x|] eqn:Hx.
  - destruct (Forall2_lookup_l _ _ _ _ _ Hs Hx) as [y [-> (_ & _ & Hhit)]].
    by unfold is_hit.
  - apply lookup_ge_None_1 in Hx. rewrite (Forall2_length _ _ _ Hs) in Hx.
    by rewrite (lookup_ge_None_2 _ _ Hx).
Qed.

Lemma flag_counted_hit_not_infected (p : list Individual) (k : nat) :
  Forall (λ x, is_infected x = false) p →
  flag_at counted_hit p k = flag_at is_hit p k.
Proof.
  intros Hp. unfold flag_at. destruct (p !! k) as [x|] eqn:Hx; [|done].
  rewrite Forall_lookup in Hp. unfold counted_hit. by rewrite (Hp _ _ Hx).
Qed.

(** Two lists of the same length agree on a slot when the elements they
    have there are equal. *)
Lemma lookup_eq_same_length {A} (l l' : list A) (k : nat) :
  length l' = length l →
  (∀ x y, l !! k = Some x → l' !! k = Some y → y = x) →
  l' !! k = l !! k.
Proof.
  intros Hlen Hk. destruct (l !! k) as [x|] eqn:Hx.
  - destruct (lookup_lt_is_Some_2 l' k) as [y Hy].
    { rewrite Hlen. by eapply lookup_lt_Some. }
    rewrite Hy. f_equal. by apply Hk.
  - apply lookup_ge_None_1 in Hx. apply lookup_ge_None_2. lia.
Qed.

Lemma parallel_epoch_inert `{DiseaseSettings} (schedule : Z → EpochSchedule)
    (st : Statics) (individual_count : Z) (m : gmap Z (list Z)) (e : Z)
    (w w' : World) (stats stats' : list (Z * Z)) :
  Forall (λ x, is_infected x = false) (individuals w) →
  parallel_epoch schedule st individual_count m e (w, stats) = Returned (w', stats') →
  Forall2 same_health (individuals w) (individuals w')
  ∧ stats' = stats ++ [(tally is_hit (individuals w)
                          (seq 0 (Z.to_nat (max_index st))), 0%Z)].
Proof.
  unfold parallel_epoch, omp_for_static. intros Hnone Hrun.
  destruct (decide (0 < chunk st)%Z) as [Hchunk|Hchunk]; [|done].
  outcome_inv Hrun. rename a into w1.
  outcome_inv Hrun. destruct a as [w2 log].
  outcome_inv Hrun. destruct a as [w3 [hit infected]].
  injection Hrun as <- <-.
  destruct (movement_phase_parallel_moved _ _ _ _
              (iteration_order_NoDup _ _) Hrun_step) as [Hlen1 Hmoved].
  assert (Forall2 same_health (individuals w) (individuals w1)) as Hsame.
  { apply Forall2_same_length_lookup_2; [done|]. intros k x y Hx Hy.
    destruct (Hmoved k x y Hx Hy) as [Hin Hout].
    destruct (decide (k ∈ iteration_order (move_rank (schedule e)) (max_index st)))
      as [Hk|Hk].
    - by eapply moved_within_same_health, Hin.
    - rewrite (Hout Hk). apply same_health_refl. }
  pose proof (same_health_not_infected _ _ Hsame Hnone) as Hnone1.
  apply infection_phase_parallel_no_source in Hrun_step0.
  2: { intros a y _ Hy. rewrite Forall_lookup in Hnone1. by eapply Hnone1. }
  injection Hrun_step0 as -> _.
  unfold advance_phase_parallel in Hrun_step1.
  destruct (advance_loop_spec _ _ _ _ _ _ _
              (iteration_order_NoDup _ _) Hrun_step1) as (Hlen3 & _ & Hadv & Hh & Hi).
  assert (individuals w3 = individuals w1) as Heq.
  { apply (list_eq_same_length _ _ (length (individuals w1))); [done|done|].
    intros k x y _ Hx Hy. destruct (Hadv k y x Hy Hx) as [Hin Hout].
    destruct (decide (k ∈ iteration_order (advance_rank (schedule e)) (max_index st)))
      as [Hk|Hk]; [|by apply Hout].
    rewrite (Hin Hk). apply advance_epoch_not_infected.
    rewrite Forall_lookup in Hnone1. by eapply Hnone1. }
  rewrite Heq in *. split; [done|]. do 2 f_equal. rewrite Hh, Hi, !Z.add_0_l. f_equal.
  - rewrite (tally_Permutation _ _ _ _ (iteration_order_Permutation _ _)).
    apply tally_same. intros k _.
    by rewrite flag_counted_hit_not_infected, (same_health_flag_hit _ _ _ Hsame).
  - apply tally_none. intros k _. by apply flag_at_not_infected.
Qed.

Lemma simulate_parallel_statics `{DiseaseSettings} (fuel : nat)
    (schedule : Z → EpochSchedule) (statics : option Statics)
    (individual_count total_epochs : Z) (graph : LocationUndirectedGraph)
    (w w' : World) (prior stats : list (Z * Z)) (st : Statics) :
  simulate_parallel fuel schedule statics individual_count total_epochs graph w prior
    = Returned (st, w', stats) →
  st = enter_statics statics (individuals w).
Proof.
  unfold simulate_parallel. intros Hrun. outcome_inv Hrun. outcome_inv Hrun.
  destruct a0. by injection Hrun as <- _ _.
Qed.

(** X7: a population without an infected individual stays as it is under
    [simulate_parallel], apart from the locations, whatever the
    interleavings and the static [max_index]: every appended entry reports
    no infected individual and the hit flags raised among the first
    [max_index] slots at the start. *)
Theorem simulate_parallel_without_infected `{DiseaseSettings} (fuel : nat)
    (schedule : Z → EpochSchedule) (statics : option Statics)
    (individual_count total_epochs : Z) (graph : LocationUndirectedGraph)
    (w w' : World) (prior stats : list (Z * Z)) (st : Statics)
    (Hnone : Forall (λ x, is_infected x = false) (individuals w))
    (Hrun : simulate_parallel fuel schedule statics individual_count total_epochs
              graph w prior = Returned (st, w', stats)) :
  Forall2 same_health (individuals w) (individuals w')
  ∧ ∃ new, stats = prior ++ new
           ∧ Forall (λ entry,
                       entry = (tally is_hit (individuals w)
                                  (seq 0 (Z.to_nat (max_index st))), 0%Z)) new.
Proof.
  rewrite (simulate_parallel_statics _ _ _ _ _ _ _ _ _ _ _ Hrun).
  apply (simulate_parallel_induction
           (λ s, Forall2 same_health (individuals w) (individuals s.1)
                 ∧ ∃ new, s.2 = prior ++ new
                          ∧ Forall (λ entry,
                                      entry
                                      = (tally is_hit (individuals w)
                                           (seq 0 (Z.to_nat
                                                     (max_index
                                                        (enter_statics statics
                                                           (individuals w))))),
                                         0%Z)) new))
    in Hrun; [done| |].
  - split.
    + apply Forall_Forall2_diag, Forall_forall. intros. apply same_health_refl.
    + exists []. by rewrite app_nil_r.
  - intros m e [w1 st1] [w2 st2] _ [Hs (new & Hst & Hnew)] Hbody.
    simpl in Hs, Hst |- *. subst st1.
    apply parallel_epoch_inert in Hbody as [Hstep ->];
      [|by eapply same_health_not_infected].
    split.
    + eapply Forall2_trans; [apply same_health_trans|exact Hs|exact Hstep].
    + eexists. split; [by rewrite <- app_assoc|].
      apply Forall_app. split; [done|]. constructor; [|done].
      f_equal. apply tally_same. intros k _.
      symmetry. by apply same_health_flag_hit.
Qed.

(** ** A static [max_index] left by an earlier call *)

(** A loop in which one iteration is undefined, and no iteration raises or
    runs out of fuel, is undefined. *)
Lemma for_indices_Undefined {St} (P : St → Prop) (body : nat → St → outcome St)
    (order : list nat) (s : St) (i : nat) :
  P s →
  (∀ j s1, P s1 → body j s1 = Undefined ∨ ∃ s2, body j s1 = Returned s2 ∧ P s2) →
  i ∈ order → (∀ s1, P s1 → body i s1 = Undefined) →
  for_indices body order s = Undefined.
Proof.
  intros Hs Hbody Hi Hbad. revert s Hs.
  induction order as [|j order IH]; intros s Hs; [by apply elem_of_nil in Hi|].
  simpl. destruct (decide (j = i)) as [->|Hne].
  - by rewrite Hbad.
  - destruct (Hbody j s Hs) as [->|[s2 [-> Hs2]]]; [done|]. simpl.
    apply IH; [|done]. apply elem_of_cons in Hi as [?|?]; [congruence|done].
Qed.

Lemma move_iteration_cases (m : gmap Z (list Z)) (index : nat) (w : World) :
  move_iteration m index w = Undefined
  ∨ ∃ w', move_iteration m index w = Returned w'
          ∧ length (individuals w') = length (individuals w).
Proof.
  unfold move_iteration, at_index. destruct (individuals w !! index) as [x|]; [|by left].
  simpl. unfold move. destruct (next_draw (generator w)) as [d g'].
  destruct (neighborhood_of m (get_location x) !! _) as [l|]; [|by left].
  right. eexists. split; [done|]. simpl. by rewrite length_insert.
Qed.

Lemma move_iteration_overrun (m : gmap Z (list Z)) (index : nat) (w : World) :
  length (individuals w) ≤ index → move_iteration m index w = Undefined.
Proof.
  intros Hi. unfold move_iteration, at_index.
  by rewrite (lookup_ge_None_2 _ _ Hi).
Qed.

Lemma iteration_order_elem_of (rank : nat → nat) (max_index : Z) (k : nat) :
  k ∈ iteration_order rank max_index ↔ (Z.of_nat k < max_index)%Z.
Proof.
  rewrite (iteration_order_Permutation rank max_index), elem_of_seq. lia.
Qed.

Lemma movement_phase_parallel_overrun (m : gmap Z (list Z)) (rank : nat → nat)
    (max_index : Z) (w : World) :
  (Z.of_nat (length (individuals w)) < max_index)%Z →
  movement_phase_parallel m (iteration_order rank max_index) w = Undefined.
Proof.
  intros Hstale. unfold movement_phase_parallel.
  apply (for_indices_Undefined
           (λ s, length (individuals s) = length (individuals w))
           _ _ _ (length (individuals w))); [done| | |].
  - intros j s1 Hs1. destruct (move_iteration_cases m j s1) as [?|[w' [? ?]]];
      [by left|]. right. exists w'. split; [done|congruence].
  - by apply iteration_order_elem_of.
  - intros s1 Hs1. apply move_iteration_overrun. lia.
Qed.

(** X8: the static [max_index] is set by the first call only.  A later
    call of [simulate_parallel] on a shorter vector of individuals indexes
    the vector out of bounds in its first movement loop: the behaviour is
    undefined, whatever the interleaving and the draws. *)
Theorem simulate_parallel_shorter_vector_overruns `{DiseaseSettings}
    (fuel1 : nat) (schedule1 : Z → EpochSchedule) (count1 epochs1 : Z)
    (graph1 : LocationUndirectedGraph) (w1 w1' : World) (prior stats : list (Z * Z))
    (st : Statics)
    (fuel2 : nat) (schedule2 : Z → EpochSchedule) (count2 epochs2 : Z)
    (graph2 : LocationUndirectedGraph) (w2 : World) (prior2 : list (Z * Z))
    (Hfirst : simulate_parallel fuel1 schedule1 None count1 epochs1 graph1 w1 prior
              = Returned (st, w1', stats))
    (Hshorter : length (individuals w2) < length (individuals w1))
    (Hfuel : fuel2 ≠ 0) (Hvertices : num_vertices graph2 ≠ 0)
    (Hepochs : (0 ≤ epochs2)%Z) :
  simulate_parallel fuel2 schedule2 (Some st) count2 epochs2 graph2 w2 prior2
  = Undefined.
Proof.
  rewrite (simulate_parallel_statics _ _ _ _ _ _ _ _ _ _ _ Hfirst).
  set (st0 := enter_statics None (individuals w1)).
  assert (Z.of_nat (length (individuals w2)) < max_index st0)%Z as Hstale
    by (simpl; lia).
  clearbody st0. unfold simulate_parallel.
  destruct (lookup_map_returns graph2 Hvertices) as [m ->]. simpl.
  destruct fuel2 as [|fuel2]; [done|]. simpl.
  destruct (0 <? epochs2 + 1)%Z eqn:Hlt; [|apply Z.ltb_ge in Hlt; lia].
  unfold parallel_epoch, omp_for_static.
  destruct (decide (0 < chunk st0)%Z); [|done].
  by rewrite movement_phase_parallel_overrun.
Qed.

Lemma infect_iteration_other `{DiseaseSettings} (individual_count : Z) (index : nat)
    (w w' : World) (log log' : list TryInfectCall) (k : nat) :
  infect_iteration individual_count index (w, log) = Returned (w', log') →
  k ≠ index → individuals w' !! k = individuals w !! k.
Proof.
  intros Hrun Hk. unfold infect_iteration in Hrun. outcome_inv Hrun.
  destruct (is_infected a); [by injection Hrun as <- _|].
  outcome_inv Hrun. destruct a0 as [[saved g] calls]. injection Hrun as <- _. simpl.
  destruct saved; [|done]. by rewrite list_lookup_insert_ne by congruence.
Qed.

Lemma tally_le_order (f : Individual → bool) (p : list Individual) (o : list nat) :
  (tally f p o ≤ Z.of_nat (length o))%Z.
Proof. unfold tally. pose proof (length_filter (λ k, flag_at f p k = true) o). lia. Qed.

Lemma parallel_epoch_tail `{DiseaseSettings} (schedule : Z → EpochSchedule)
    (st : Statics) (individual_count : Z) (m : gmap Z (list Z)) (e : Z)
    (w w' : World) (stats stats' : list (Z * Z)) :
  parallel_epoch schedule st individual_count m e (w, stats) = Returned (w', stats') →
  (∀ k, (max_index st ≤ Z.of_nat k)%Z → individuals w' !! k = individuals w !! k)
  ∧ ∃ hit infected, stats' = stats ++ [(hit, infected)]
                    ∧ (hit ≤ Z.max 0 (max_index st))%Z.
Proof.
  unfold parallel_epoch, omp_for_static. intros Hrun.
  destruct (decide (0 < chunk st)%Z) as [Hchunk|Hchunk]; [|done].
  outcome_inv Hrun. rename a into w1.
  outcome_inv Hrun. destruct a as [w2 log].
  outcome_inv Hrun. destruct a as [w3 [hit infected]].
  injection Hrun as <- <-.
  destruct (movement_phase_parallel_moved _ _ _ _
              (iteration_order_NoDup _ _) Hrun_step) as [Hlen1 Hmoved].
  unfold advance_phase_parallel in Hrun_step1.
  destruct (advance_loop_spec _ _ _ _ _ _ _
              (iteration_order_NoDup _ _) Hrun_step1) as (Hlen3 & _ & Hadv & Hh & _).
  split.
  - intros k Hk.
    assert (∀ rank, k ∉ iteration_order rank (max_index st)) as Hout.
    { intros rank. rewrite iteration_order_elem_of. lia. }
    transitivity (individuals w2 !! k).
    { apply lookup_eq_same_length; [done|]. intros x y Hx Hy.
      apply (proj2 (Hadv k x y Hx Hy)), Hout. }
    transitivity (individuals w1 !! k).
    { unfold infection_phase_parallel in Hrun_step0.
      apply (for_indices_invariant
               (λ s, individuals s.1 !! k = individuals w1 !! k)) in Hrun_step0;
        [done|done|].
      intros i [wa la] [wb lb] Hi Hinv Hbody. simpl in Hinv |- *. rewrite <- Hinv.
      eapply infect_iteration_other; [done|]. intros ->. by apply Hout in Hi. }
    apply lookup_eq_same_length; [done|]. intros x y Hx Hy.
    apply (proj2 (Hmoved k x y Hx Hy)), Hout.
  - exists hit, infected. split; [done|]. rewrite Hh, Z.add_0_l.
    etrans; [apply tally_le_order|].
    rewrite (Permutation_length (iteration_order_Permutation _ _)), length_seq. lia.
Qed.

(** X9: [simulate_parallel] works on the first [max_index] slots only.
    When the static [max_index] is smaller than the vector, as after an
    earlier call on a shorter vector, the individuals behind it are neither
    moved nor infected nor advanced, and no entry counts more than
    [max_index] hit individuals. *)
Theorem simulate_parallel_ignores_tail `{DiseaseSettings} (fuel : nat)
    (schedule : Z → EpochSchedule) (statics : option Statics)
    (individual_count total_epochs : Z) (graph : LocationUndirectedGraph)
    (w w' : World) (prior stats : list (Z * Z)) (st : Statics)
    (Hrun : simulate_parallel fuel schedule statics individual_count total_epochs
              graph w prior = Returned (st, w', stats)) :
  (∀ k, (max_index st ≤ Z.of_nat k)%Z → individuals w' !! k = individuals w !! k)
  ∧ ∃ new, stats = prior ++ new
           ∧ Forall (λ entry : Z * Z, (entry.1 ≤ Z.max 0 (max_index st))%Z) new.
Proof.
  rewrite (simulate_parallel_statics _ _ _ _ _ _ _ _ _ _ _ Hrun).
  apply (simulate_parallel_induction
           (λ s, (∀ k, (max_index (enter_statics statics (individuals w))
                        ≤ Z.of_nat k)%Z →
                       individuals s.1 !! k = individuals w !! k)
                 ∧ ∃ new, s.2 = prior ++ new
                          ∧ Forall (λ entry : Z * Z,
                                      (entry.1
                                       ≤ Z.max 0 (max_index
                                                    (enter_statics statics
                                                       (individuals w))))%Z) new))
    in Hrun; [done| |].
  - split; [done|]. exists []. by rewrite app_nil_r.
  - intros m e [w1 st1] [w2 st2] _ [Htail (new & Hst & Hnew)] Hbody.
    simpl in Htail, Hst |- *. subst st1.
    apply parallel_epoch_tail in Hbody as [Hstep (hit & inf & -> & Hhit)].
    split.
    + intros k Hk. by rewrite Hstep, Htail.
    + exists (new ++ [(hit, inf)]). split; [by rewrite <- app_assoc|].
      apply Forall_app. split; [done|]. by constructor.
Qed.

(** ** An [individual_count] beyond the vector *)

Lemma scan_affecting_None_in_bounds `{DiseaseSettings} (population : list Individual)
    (index : nat) (affecting : list nat) (current : Individual) (g g' : Generator)
    (calls : list TryInfectCall) :
  scan_affecting population index affecting current g = Returned (None, g', calls) →
  Forall (λ a, a < length population) affecting.
Proof.
  revert current g g' calls.
  induction affecting as [|a rest IH]; intros current g g' calls Hscan; [done|].
  simpl in Hscan. outcome_inv Hscan. apply at_index_Returned in Hscan_step.
  constructor; [by eapply lookup_lt_Some|].
  destruct (is_infected a0
            && bool_decide (get_location current = get_location a0)).
  - destruct (try_infect current g) as [tried g1].
    destruct (is_infected tried); [discriminate|].
    outcome_inv Hscan. destruct a1 as [[saved g2] calls2].
    injection Hscan as -> _ _. by eapply IH.
  - by eapply IH.
Qed.

Lemma infect_iteration_overcount `{DiseaseSettings} (individual_count : Z)
    (index : nat) (w w' : World) (log log' : list TryInfectCall) :
  (Z.of_nat (length (individuals w)) < individual_count)%Z →
  infect_iteration individual_count index (w, log) = Returned (w', log') →
  flag_at is_infected (individuals w') index = true.
Proof.
  intros Hcount Hrun. unfold infect_iteration in Hrun. outcome_inv Hrun.
  apply at_index_Returned in Hrun_step.
  destruct (is_infected a) eqn:Hinf.
  - injection Hrun as <- _. by rewrite (flag_at_lookup _ _ _ _ Hrun_step).
  - outcome_inv Hrun. destruct a0 as [[saved g] calls]. injection Hrun as <- _. simpl.
    destruct saved as [x|].
    + destruct (scan_affecting_saved _ _ _ _ _ _ _ _ Hrun_step0 Hinf x eq_refl)
        as [_ ->].
      rewrite (flag_at_lookup _ _ _ (infect a)); [apply infect_is_infected|].
      apply list_lookup_insert_eq. by eapply lookup_lt_Some.
    + apply scan_affecting_None_in_bounds in Hrun_step0.
      rewrite Forall_forall in Hrun_step0.
      specialize (Hrun_step0 (length (individuals w))).
      assert (length (individuals w) ∈ seq 0 (Z.to_nat individual_count)) as Hin
        by (apply elem_of_seq; lia).
      apply Hrun_step0 in Hin. lia.
Qed.

Lemma flag_at_infected_kept (p q : list Individual) (k : nat) :
  Forall2 kept_or_infected p q →
  flag_at is_infected p k = true → flag_at is_infected q k = true.
Proof.
  intros Hkept. unfold flag_at. destruct (p !! k) as [x|] eqn:Hx; [|done].
  destruct (Forall2_lookup_l _ _ _ _ _ Hkept Hx) as [y [-> [->|[Hsus _]]]]; [done|].
  intros Hinf. apply is_infected_true in Hinf. congruence.
Qed.

(** X10: the scan of [simulate_parallel] runs over [individual_count]
    slots, not over the vector.  With an [individual_count] beyond the size
    of the vector, a scan that finds nobody to break for reads out of
    bounds: the infection phase returns only if every individual it has
    scanned is infected at its end. *)
Theorem infection_phase_parallel_count_beyond_vector `{DiseaseSettings}
    (individual_count : Z) (order : list nat) (w w' : World)
    (log : list TryInfectCall)
    (Hcount : (Z.of_nat (length (individuals w)) < individual_count)%Z)
    (Hrun : infection_phase_parallel individual_count order w = Returned (w', log)) :
  Forall (λ i, ∃ x, individuals w' !! i = Some x ∧ is_infected x = true) order.
Proof.
  unfold infection_phase_parallel in Hrun.
  apply (for_indices_processed
           (λ done_ s, length (individuals s.1) = length (individuals w)
                       ∧ ∀ i, i ∈ done_ →
                              flag_at is_infected (individuals s.1) i = true))
    in Hrun.
  - destruct Hrun as [_ Hall]. apply Forall_forall. intros i Hi.
    specialize (Hall i Hi). unfold flag_at in Hall. simpl in Hall.
    destruct (individuals w' !! i) as [x|]; [eauto|done].
  - split; [done|]. intros i Hi. by apply elem_of_nil in Hi.
  - intros done_ i rest [w1 l1] [w2 l2] _ [Hlen Hdone] Hbody. simpl in Hlen, Hdone |- *.
    assert (Forall2 kept_or_infected (individuals w1) (individuals w2)) as Hkept.
    { eapply infect_iteration_frame; [exact Hbody|].
      apply Forall_Forall2_diag, Forall_forall. intros. apply kept_or_infected_refl. }
    split; [apply Forall2_length in Hkept; congruence|].
    intros j Hj. apply elem_of_app in Hj as [Hj|Hj].
    + eapply flag_at_infected_kept; [exact Hkept|]. by apply Hdone.
    + apply list_elem_of_singleton in Hj as ->.
      eapply infect_iteration_overcount; [|exact Hbody]. lia.
Qed.

(** ** The advance phase and its reduction *)

(** X11: the advance loop of [simulate_parallel] and its reduction give
    one result whatever the interleaving of the threads: the first [n]
    individuals are advanced, the others are left alone, and the counters
    count the infected and the hit individuals among the advanced ones. *)
Theorem advance_phase_parallel_any_order `{DiseaseSettings} (order : list nat)
    (n : nat) (w : World)
    (Horder : order ≡ₚ seq 0 n)
    (Hn : n ≤ length (individuals w)) :
  advance_phase_parallel order w
  = Returned ({| individuals := (advance_epoch <$> take n (individuals w))
                                ++ drop n (individuals w);
                 generator := generator w |},
              (count counted_hit (advance_epoch <$> take n (individuals w)),
               count is_infected (advance_epoch <$> take n (individuals w)))).
Proof. by apply advance_phase_parallel_closed. Qed.

(** ** The epochs of simulate_serial *)

(** X12: [simulate_serial] runs [total_epochs + 1] epochs for every
    [total_epochs] below [INT_MAX], and none when that number is not
    positive: with a negative [total_epochs] the call records nothing and
    leaves the individuals and the generator as they are. *)
Theorem simulate_serial_epoch_count `{DiseaseSettings} (fuel : nat)
    (individual_count total_epochs : Z) (graph : LocationUndirectedGraph) (w : World)
    (Hclosed : graph_closed graph) (Hvertices : num_vertices graph ≠ 0)
    (Hon : on_graph graph (individuals w))
    (Hmax : (total_epochs < INT_MAX)%Z)
    (Hfuel : (Z.max 0 (total_epochs + 1) < Z.of_nat fuel)%Z) :
  ∃ w' stats,
    simulate_serial fuel individual_count total_epochs graph w = Returned (w', stats)
    ∧ length stats = Z.to_nat (total_epochs + 1)
    ∧ ((total_epochs < 0)%Z → w' = w).
Proof.
  destruct (decide (total_epochs < 0)%Z) as [Hneg|Hpos].
  - exists w, []. split; [|split; [simpl; lia|done]].
    destruct (lookup_map_returns graph Hvertices) as [m Hm].
    unfold simulate_serial. rewrite Hm. simpl.
    destruct (decide (total_epochs = INT_MAX)) as [->|_]; [lia|].
    destruct fuel as [|fuel]; [simpl in Hfuel; lia|]. simpl.
    destruct (0 <? total_epochs + 1)%Z eqn:Hlt; [apply Z.ltb_lt in Hlt; lia|done].
  - destruct (simulate_serial_entries fuel individual_count total_epochs graph w)
      as (w' & stats & Hrun & Hlen); [done|done|done|lia|lia|].
    exists w', stats. split; [done|]. split; [done|lia].
Qed.

(** ** From reset_input to the statistics *)

Lemma reset_input_population `{DiseaseSettings} (graph : LocationUndirectedGraph)
    (individual_count : Z) (g : Generator) :
  num_vertices graph ≠ 0 → (0 < individual_count)%Z →
  (0 ≤ INITIAL_INFECTED_COUNT ≤ individual_count)%Z →
  ∃ w, reset_input graph individual_count g
       = Returned (Z.of_nat (num_vertices graph),
                   Z.of_nat (length (m_edges graph)), graph, w)
       ∧ Z.of_nat (length (individuals w)) = individual_count
       ∧ on_graph graph (individuals w)
       ∧ Forall hit_consistent (individuals w)
       ∧ count is_hit (individuals w) = INITIAL_INFECTED_COUNT.
Proof.
  intros Hnv Hpos Hseed. eexists. split; [by apply reset_input_Returned|].
  destruct (reset_input_well_formed graph individual_count g _ _ _ _ Hnv
              (reset_input_Returned graph individual_count g Hpos Hseed))
    as (_ & Hon & Hcons).
  split; [|split; [done|split; [done|]]]; simpl.
  - pose proof (random_population_spec (Z.to_nat individual_count)
                  (Z.of_nat (num_vertices graph)) g) as [Hlen _].
    rewrite length_app, length_fmap, length_take, length_drop, Hlen. lia.
  - pose proof (random_population_spec (Z.to_nat individual_count)
                  (Z.of_nat (num_vertices graph)) g) as [Hlen Hfresh].
    rewrite count_app, count_all, count_none.
    + rewrite length_fmap, length_take, Hlen. lia.
    + apply Forall_drop. eapply Forall_impl; [exact Hfresh|].
      by intros x (_ & Hhit & _).
    + apply Forall_fmap, Forall_forall. by intros.
Qed.

Lemma serial_run_bounds `{DiseaseSettings} (fuel : nat)
    (individual_count total_epochs : Z) (graph : LocationUndirectedGraph)
    (w w' : World) (stats : list (Z * Z)) :
  Forall hit_consistent (individuals w) →
  simulate_serial fuel individual_count total_epochs graph w = Returned (w', stats) →
  Forall (λ entry : Z * Z,
            (count is_hit (individuals w) ≤ entry.1
             ≤ Z.of_nat (length (individuals w)))%Z
            ∧ (0 ≤ entry.2 ≤ entry.1)%Z) stats.
Proof.
  intros Hcons Hrun.
  apply (simulate_serial_induction
           (λ s, Forall2 progresses (individuals w) (individuals s.1)
                 ∧ Forall (λ entry : Z * Z,
                             (count is_hit (individuals w) ≤ entry.1
                              ≤ Z.of_nat (length (individuals w)))%Z
                             ∧ (0 ≤ entry.2 ≤ entry.1)%Z) s.2))
    in Hrun; [by destruct Hrun| |].
  - split; [apply Forall2_progresses_refl|done].
  - intros m e [w1 st1] [w2 st2] _ [Hprog Hst] Hbody.
    apply serial_epoch_Returned in Hbody as (hit & inf & -> & Hlen & Hstep & -> & ->).
    simpl in Hprog, Hst |- *.
    pose proof (Forall2_progresses_trans _ _ _ Hprog Hstep) as Hprog2.
    split; [done|]. apply Forall_app. split; [done|]. constructor; [|done]. simpl.
    pose proof (count_is_hit_grows _ _ Hprog2).
    pose proof (count_le_length is_hit (individuals w2)).
    pose proof (count_nonneg is_infected (individuals w2)).
    pose proof (count_infected_le_hit _ (progresses_hit_consistent _ _ Hprog2 Hcons)).
    apply Forall2_length in Hprog2. lia.
Qed.

Lemma parallel_run_bounds `{DiseaseSettings} (fuel : nat)
    (schedule : Z → EpochSchedule)
    (individual_count total_epochs : Z) (graph : LocationUndirectedGraph)
    (w w' : World) (prior new : list (Z * Z)) (st : Statics) :
  Forall hit_consistent (individuals w) →
  simulate_parallel fuel schedule None individual_count total_epochs graph w prior
    = Returned (st, w', prior ++ new) →
  Forall (λ entry : Z * Z,
            (count is_hit (individuals w) ≤ entry.1
             ≤ Z.of_nat (length (individuals w)))%Z
            ∧ (0 ≤ entry.2 ≤ entry.1)%Z) new.
Proof.
  intros Hcons Hrun.
  apply (simulate_parallel_induction
           (λ s, Forall2 progresses (individuals w) (individuals s.1)
                 ∧ ∃ new', s.2 = prior ++ new'
                           ∧ Forall (λ entry : Z * Z,
                                       (count is_hit (individuals w) ≤ entry.1
                                        ≤ Z.of_nat (length (individuals w)))%Z
                                       ∧ (0 ≤ entry.2 ≤ entry.1)%Z) new'))
    in Hrun.
  - destruct Hrun as [_ (new' & Heq & Hnew)]. simpl in Heq.
    by rewrite (app_inv_head prior _ _ Heq).
  - split; [apply Forall2_progresses_refl|]. exists []. by rewrite app_nil_r.
  - intros m e [w1 st1] [w2 st2] _ [Hprog (new' & Hst & Hnew)] Hbody.
    apply parallel_epoch_Returned in Hbody
      as (hit & inf & -> & Hlen & Hstep & Hhit & Hinf).
    simpl in Hprog, Hst, Hhit, Hinf |- *. subst st1.
    pose proof (Forall2_progresses_trans _ _ _ Hprog Hstep) as Hprog2.
    pose proof (progresses_hit_consistent _ _ Hprog2 Hcons) as Hcons2.
    assert (Z.to_nat (Z.of_nat (length (individuals w))) = length (individuals w2))
      as Hall by (apply Forall2_length in Hprog2; lia).
    rewrite Hall, tally_seq_0 in Hhit, Hinf.
    rewrite count_counted_hit_consistent in Hhit by done. subst hit inf.
    split; [done|]. exists (new' ++ [(count is_hit (individuals w2),
                                      count is_infected (individuals w2))]).
    split; [by rewrite <- app_assoc|].
    apply Forall_app. split; [done|]. constructor; [|done]. simpl.
    pose proof (count_is_hit_grows _ _ Hprog2).
    pose proof (count_le_length is_hit (individuals w2)).
    pose proof (count_nonneg is_infected (individuals w2)).
    pose proof (count_infected_le_hit _ Hcons2).
    apply Forall2_length in Hprog2. lia.
Qed.

(** X13: one repetition of [main].  On a graph with a vertex whose edges
    join vertices, with an [individual_count] of at least
    [DEFAULT_NUMBER_OF_THREADS], so that the chunk size is positive, that
    covers the seed cases, [reset_input] returns a population on which
    [simulate_serial] and a first call of [simulate_parallel] run to their
    end, and each reports [total_epochs + 1] entries with
    [INITIAL_INFECTED_COUNT ≤ hit_count ≤ individual_count] and
    [0 ≤ infected_count ≤ hit_count]. *)
Theorem reset_input_then_simulate `{DiseaseSettings} (graph : LocationUndirectedGraph)
    (individual_count total_epochs : Z) (g : Generator) (fuel : nat)
    (schedule : Z → EpochSchedule) (prior : list (Z * Z))
    (Hclosed : graph_closed graph) (Hvertices : num_vertices graph ≠ 0)
    (Hcount : (DEFAULT_NUMBER_OF_THREADS ≤ individual_count)%Z)
    (Hseeds : (0 ≤ INITIAL_INFECTED_COUNT ≤ individual_count)%Z)
    (Hepochs : (0 ≤ total_epochs ≤ 254)%Z)
    (Hfuel : (total_epochs + 1 < Z.of_nat fuel)%Z) :
  ∃ w,
    reset_input graph individual_count g
    = Returned (Z.of_nat (num_vertices graph),
                Z.of_nat (length (m_edges graph)), graph, w)
    ∧ (∃ w' stats,
         simulate_serial fuel individual_count total_epochs graph w
         = Returned (w', stats)
         ∧ length stats = Z.to_nat (total_epochs + 1)
         ∧ Forall (λ entry : Z * Z,
                     (INITIAL_INFECTED_COUNT ≤ entry.1 ≤ individual_count)%Z
                     ∧ (0 ≤ entry.2 ≤ entry.1)%Z) stats)
    ∧ (∃ st w' new,
         simulate_parallel fuel schedule None individual_count total_epochs graph
           w prior
         = Returned (st, w', prior ++ new)
         ∧ length new = Z.to_nat (total_epochs + 1)
         ∧ Forall (λ entry : Z * Z,
                     (INITIAL_INFECTED_COUNT ≤ entry.1 ≤ individual_count)%Z
                     ∧ (0 ≤ entry.2 ≤ entry.1)%Z) new).
Proof.
  assert (0 < individual_count)%Z as Hpos
    by (unfold DEFAULT_NUMBER_OF_THREADS in *; lia).
  destruct (reset_input_population graph individual_count g Hvertices Hpos Hseeds)
    as (w & Hreset & Hlen & Hon & Hcons & Hhit).
  exists w. split; [done|]. split.
  - destruct (simulate_serial_entries fuel individual_count total_epochs graph w)
      as (w' & stats & Hrun & Hentries); [done|done|done|unfold INT_MAX; lia|done|].
    exists w', stats. split; [done|]. split; [done|].
    pose proof (serial_run_bounds _ _ _ _ _ _ _ Hcons Hrun) as Hbounds.
    by rewrite Hhit, Hlen in Hbounds.
  - destruct (simulate_parallel_appends_once fuel schedule None individual_count
                total_epochs graph w prior)
      as (w' & new & Hrun & Hentries);
      [done|done|done| |simpl; lia|lia|done|done|].
    { simpl. rewrite Hlen. apply Z.quot_str_pos.
      unfold DEFAULT_NUMBER_OF_THREADS in *. lia. }
    exists (enter_statics None (individuals w)), w', new.
    split; [done|]. split; [done|].
    pose proof (parallel_run_bounds _ _ _ _ _ _ _ _ _ _ Hcons Hrun) as Hbounds.
    by rewrite Hhit, Hlen in Hbounds.
Qed.

(** ** Invariants of a whole run *)

Lemma on_map_moved (m : gmap Z (list Z)) (l k : list Individual) :
  map_closed m →
  Forall2 (λ b a, a = b ∨ moved_within m b a) l k → on_map m l → on_map m k.
Proof.
  intros Hclosed. unfold on_map. induction 1 as [|x y l k Hxy _ IH]; [done|].
  intros Hl. apply Forall_cons in Hl as [Hx Hl]. constructor; [|by apply IH].
  destruct Hxy as [->|Hmoved]; [done|]. by eapply moved_within_on_map.
Qed.

Lemma movement_phase_parallel_pointwise (m : gmap Z (list Z)) (order : list nat)
    (w w' : World) :
  NoDup order →
  movement_phase_parallel m order w = Returned w' →
  Forall2 (λ b a, a = b ∨ moved_within m b a) (individuals w) (individuals w').
Proof.
  intros Hnd Hrun.
  destruct (movement_phase_parallel_moved _ _ _ _ Hnd Hrun) as [Hlen Hmoved].
  apply Forall2_same_length_lookup_2; [done|]. intros k x y Hx Hy.
  destruct (Hmoved k x y Hx Hy) as [Hin Hout].
  destruct (decide (k ∈ order)) as [Hk|Hk]; [right; by apply Hin|left; by apply Hout].
Qed.

Lemma advance_loop_pointwise `{DiseaseSettings} (order : list nat) (w w' : World)
    (c c' : Z * Z) :
  NoDup order →
  for_indices advance_iteration order (w, c) = Returned (w', c') →
  Forall2 (λ b a, a = b ∨ a = advance_epoch b) (individuals w) (individuals w').
Proof.
  intros Hnd Hrun. destruct c as [hit inf], c' as [hit' inf'].
  destruct (advance_loop_spec _ _ _ _ _ _ _ Hnd Hrun) as (Hlen & _ & Hadv & _).
  apply Forall2_same_length_lookup_2; [done|]. intros k x y Hx Hy.
  destruct (Hadv k x y Hx Hy) as [Hin Hout].
  destruct (decide (k ∈ order)) as [Hk|Hk]; [right; by apply Hin|left; by apply Hout].
Qed.

Lemma parallel_epoch_phases `{DiseaseSettings} (schedule : Z → EpochSchedule)
    (st : Statics) (individual_count : Z) (m : gmap Z (list Z)) (e : Z)
    (w w' : World) (stats stats' : list (Z * Z)) :
  parallel_epoch schedule st individual_count m e (w, stats) = Returned (w', stats') →
  ∃ moved spread,
    Forall2 (λ b a, a = b ∨ moved_within m b a) (individuals w) moved
    ∧ Forall2 kept_or_infected moved spread
    ∧ Forall2 (λ b a, a = b ∨ a = advance_epoch b) spread (individuals w').
Proof.
  unfold parallel_epoch, omp_for_static. intros Hrun.
  destruct (decide (0 < chunk st)%Z) as [Hchunk|Hchunk]; [|done].
  outcome_inv Hrun. rename a into w1.
  outcome_inv Hrun. destruct a as [w2 log].
  outcome_inv Hrun. destruct a as [w3 [hit infected]].
  injection Hrun as <- _.
  exists (individuals w1), (individuals w2). split; [|split].
  - by eapply movement_phase_parallel_pointwise; [apply iteration_order_NoDup|].
  - by eapply infection_phase_parallel_kept_or_infected.
  - by eapply advance_loop_pointwise; [apply iteration_order_NoDup|].
Qed.

Lemma serial_epoch_phases `{DiseaseSettings} (m : gmap Z (list Z)) (e : Z)
    (w w' : World) (stats stats' : list (Z * Z)) :
  serial_epoch m e (w, stats) = Returned (w', stats') →
  ∃ moved spread,
    Forall2 (λ b a, a = b ∨ moved_within m b a) (individuals w) moved
    ∧ Forall2 kept_or_infected moved spread
    ∧ Forall2 (λ b a, a = b ∨ a = advance_epoch b) spread (individuals w').
Proof.
  unfold serial_epoch. intros Hrun.
  outcome_inv Hrun. destruct a as [moved g].
  outcome_inv Hrun. destruct a as [w2 log].
  rewrite advance_all_spec in Hrun. injection Hrun as <- _. simpl.
  exists moved, (individuals w2). split; [|split].
  - eapply Forall2_impl; [by eapply move_all_moved|]. by right.
  - by apply infection_phase_serial_kept_or_infected in Hrun_step0.
  - apply Forall2_fmap_r, Forall_Forall2_diag, Forall_forall. by right.
Qed.

Lemma phases_on_map `{DiseaseSettings} (m : gmap Z (list Z))
    (start moved spread final : list Individual) :
  map_closed m → on_map m start →
  Forall2 (λ b a, a = b ∨ moved_within m b a) start moved →
  Forall2 kept_or_infected moved spread →
  Forall2 (λ b a, a = b ∨ a = advance_epoch b) spread final →
  on_map m final.
Proof.
  intros Hclosed Hon H1 H2 H3.
  eapply on_map_same_locations; [|eapply on_map_same_locations;
                                   [|by eapply on_map_moved]].
  - eapply Forall2_impl; [exact H3|]. intros b a [-> | ->]; [done|].
    apply advance_epoch_location.
  - eapply Forall2_impl; [exact H2|]. apply kept_or_infected_location.
Qed.

(** X14: the individuals stay on the graph.  When every edge of the graph
    joins two of its vertices and every individual stands on a vertex, then
    every individual stands on a vertex after a run of [simulate_parallel]
    and after a run of [simulate_serial]. *)
Theorem individuals_stay_on_graph `{DiseaseSettings}
    (fuel : nat) (schedule : Z → EpochSchedule) (statics : option Statics)
    (individual_count total_epochs : Z) (graph : LocationUndirectedGraph)
    (w w' : World) (prior stats : list (Z * Z)) (st : Statics)
    (fuel_s : nat) (individual_count_s total_epochs_s : Z)
    (graph_s : LocationUndirectedGraph) (ws ws' : World) (stats_s : list (Z * Z))
    (Hclosed : graph_closed graph) (Hon : on_graph graph (individuals w))
    (Hparallel : simulate_parallel fuel schedule statics individual_count
                   total_epochs graph w prior = Returned (st, w', stats))
    (Hclosed_s : graph_closed graph_s) (Hon_s : on_graph graph_s (individuals ws))
    (Hserial : simulate_serial fuel_s individual_count_s total_epochs_s graph_s ws
               = Returned (ws', stats_s)) :
  on_graph graph (individuals w') ∧ on_graph graph_s (individuals ws').
Proof.
  split.
  - apply (simulate_parallel_induction
             (λ s, on_graph graph (individuals s.1))) in Hparallel; [done|done|].
    intros m e [w1 st1] [w2 st2] Hm Hon1 Hbody. simpl in Hon1 |- *.
    apply parallel_epoch_phases in Hbody as (moved & spread & H1 & H2 & H3).
    apply (on_graph_on_map _ _ _ Hm). apply (on_graph_on_map _ _ _ Hm) in Hon1.
    eapply phases_on_map;
      [exact (lookup_map_closed _ _ Hclosed Hm)|exact Hon1|done..].
  - apply (simulate_serial_induction
             (λ s, on_graph graph_s (individuals s.1))) in Hserial; [done|done|].
    intros m e [w1 st1] [w2 st2] Hm Hon1 Hbody. simpl in Hon1 |- *.
    apply serial_epoch_phases in Hbody as (moved & spread & H1 & H2 & H3).
    apply (on_graph_on_map _ _ _ Hm). apply (on_graph_on_map _ _ _ Hm) in Hon1.
    eapply phases_on_map;
      [exact (lookup_map_closed _ _ Hclosed_s Hm)|exact Hon1|done..].
Qed.

Lemma immune_refl (i : Individual) : immune i i.
Proof. intros _. apply same_health_refl. Qed.

Lemma immune_trans (a b c : Individual) : immune a b → immune b c → immune a c.
Proof.
  unfold immune. intros Hab Hbc Ha. specialize (Hab Ha).
  eapply same_health_trans; [exact Hab|]. apply Hbc.
  destruct Hab as [-> _]. done.
Qed.

Lemma phases_immune `{DiseaseSettings} (m : gmap Z (list Z))
    (start moved spread final : list Individual) :
  Forall2 (λ b a, a = b ∨ moved_within m b a) start moved →
  Forall2 kept_or_infected moved spread →
  Forall2 (λ b a, a = b ∨ a = advance_epoch b) spread final →
  Forall2 immune start final.
Proof.
  intros H1 H2 H3.
  eapply Forall2_trans; [apply immune_trans| |eapply Forall2_trans;
                                               [apply immune_trans| |]].
  - eapply Forall2_impl; [exact H1|]. intros b a [->|Hmoved] _;
      [apply same_health_refl|by eapply moved_within_same_health].
  - eapply Forall2_impl; [exact H2|]. intros b a [->|[Hsus _]] Hrec;
      [apply same_health_refl|congruence].
  - eapply Forall2_impl; [exact H3|]. intros b a [-> | ->] Hrec;
      [apply same_health_refl|].
    rewrite advance_epoch_not_infected; [apply same_health_refl|].
    apply is_infected_false. congruence.
Qed.

(** X15: recovered individuals are left alone.  An individual that is
    Recovered when [simulate_parallel] or [simulate_serial] is called is
    Recovered when the call returns, with the duration counter and the hit
    flag it had, whatever the draws and the interleavings: the loops invoke
    [try_infect] and [advance_epoch] on it, and neither changes it. *)
Theorem recovered_stay_recovered `{DiseaseSettings}
    (fuel : nat) (schedule : Z → EpochSchedule) (statics : option Statics)
    (individual_count total_epochs : Z) (graph : LocationUndirectedGraph)
    (w w' : World) (prior stats : list (Z * Z)) (st : Statics)
    (fuel_s : nat) (individual_count_s total_epochs_s : Z)
    (graph_s : LocationUndirectedGraph) (ws ws' : World) (stats_s : list (Z * Z))
    (Hparallel : simulate_parallel fuel schedule statics individual_count
                   total_epochs graph w prior = Returned (st, w', stats))
    (Hserial : simulate_serial fuel_s individual_count_s total_epochs_s graph_s ws
               = Returned (ws', stats_s)) :
  Forall2 immune (individuals w) (individuals w')
  ∧ Forall2 immune (individuals ws) (individuals ws').
Proof.
  split.
  - apply (simulate_parallel_induction
             (λ s, Forall2 immune (individuals w) (individuals s.1)))
      in Hparallel; [done| |].
    + apply Forall_Forall2_diag, Forall_forall. intros. apply immune_refl.
    + intros m e [w1 st1] [w2 st2] _ Hinv Hbody. simpl in Hinv |- *.
      apply parallel_epoch_phases in Hbody as (moved & spread & H1 & H2 & H3).
      eapply Forall2_trans; [apply immune_trans|exact Hinv|].
      by eapply phases_immune.
  - apply (simulate_serial_induction
             (λ s, Forall2 immune (individuals ws) (individuals s.1)))
      in Hserial; [done| |].
    + apply Forall_Forall2_diag, Forall_forall. intros. apply immune_refl.
    + intros m e [w1 st1] [w2 st2] _ Hinv Hbody. simpl in Hinv |- *.
      apply serial_epoch_phases in Hbody as (moved & spread & H1 & H2 & H3).
      eapply Forall2_trans; [apply immune_trans|exact Hinv|].
      by eapply phases_immune.
Qed.

(** ** The invariants and the edge cases on the sample runs *)

(** X5 on a scan of two slots that leaves out the infected third. *)
Lemma infection_phase_without_source_witness :
  Forall (λ i, i < length (individuals hidden_source_phase)) [0; 1; 2]
  ∧ (2 ≤ Z.of_nat (length (individuals hidden_source_phase)))%Z
  ∧ (∀ a y, (Z.of_nat a < 2)%Z → individuals hidden_source_phase !! a = Some y →
            is_infected y = false)
  ∧ infection_phase_parallel (H := coin) 2 [0; 1; 2] hidden_source_phase
    = Returned (hidden_source_phase, []).
Proof.
  assert (Forall (λ i, i < length (individuals hidden_source_phase)) [0; 1; 2]) as H1
    by (repeat constructor).
  assert (2 ≤ Z.of_nat (length (individuals hidden_source_phase)))%Z as H2
    by (vm_compute; discriminate).
  assert (∀ a y, (Z.of_nat a < 2)%Z →
                 individuals hidden_source_phase !! a = Some y →
                 is_infected y = false) as H3.
  { intros [|[|a]] y Ha Hy; [by injection Hy as <-|by injection Hy as <-|lia]. }
  exact (conj H1 (conj H2 (conj H3
    (infection_phase_without_source (H := coin) 2 [0; 1; 2] hidden_source_phase
       H1 H2 H3)))).
Defined.

Lemma quiet_without_infected :
  Forall (λ x, is_infected x = false) (individuals quiet_world).
Proof. repeat constructor. Qed.

(** X6 on the serial run of the quiet population. *)
Lemma simulate_serial_without_infected_witness :
  Forall (λ x, is_infected x = false) (individuals quiet_world)
  ∧ simulate_serial (H := coin) 3 3 1 two_rooms quiet_world
    = Returned (quiet_serial_run.1, quiet_serial_run.2)
  ∧ (Forall2 same_health (individuals quiet_world) (individuals quiet_serial_run.1)
     ∧ Forall (λ entry, entry = (count is_hit (individuals quiet_world), 0%Z))
         quiet_serial_run.2).
Proof.
  pose proof quiet_without_infected as H1.
  assert (simulate_serial (H := coin) 3 3 1 two_rooms quiet_world
          = Returned (quiet_serial_run.1, quiet_serial_run.2)) as H2
    by (vm_compute; reflexivity).
  exact (conj H1 (conj H2
    (simulate_serial_without_infected (H := coin) 3 3 1 two_rooms quiet_world _ _
       H1 H2))).
Defined.

Lemma calm_without_infected :
  Forall (λ x, is_infected x = false) (individuals calm_world).
Proof. repeat constructor. Qed.

(** X7 on the parallel run of the calm population, thread 1 first. *)
Lemma simulate_parallel_without_infected_witness :
  Forall (λ x, is_infected x = false) (individuals calm_world)
  ∧ simulate_parallel (H := coin) 3 (λ _, second_first) None 4 1 two_rooms
      calm_world []
    = Returned (calm_parallel_run.1.1, calm_parallel_run.1.2, calm_parallel_run.2)
  ∧ (Forall2 same_health (individuals calm_world)
       (individuals calm_parallel_run.1.2)
     ∧ ∃ new, calm_parallel_run.2 = [] ++ new
              ∧ Forall (λ entry,
                          entry
                          = (tally is_hit (individuals calm_world)
                               (seq 0 (Z.to_nat (max_index calm_parallel_run.1.1))),
                             0%Z)) new).
Proof.
  pose proof calm_without_infected as H1.
  assert (simulate_parallel (H := coin) 3 (λ _, second_first) None 4 1 two_rooms
            calm_world []
          = Returned (calm_parallel_run.1.1, calm_parallel_run.1.2,
                      calm_parallel_run.2)) as H2 by (vm_compute; reflexivity).
  exact (conj H1 (conj H2
    (simulate_parallel_without_infected (H := coin) 3 (λ _, second_first) None 4 1
       two_rooms calm_world _ [] _ _ H1 H2))).
Defined.

(** X8 on the quiet population of three, run after the outbreak of four. *)
Lemma simulate_parallel_shorter_vector_overruns_witness :
  simulate_parallel (H := coin) 3 (λ _, in_order) None 4 1 one_room
    outbreak_world []
  = Returned (outbreak_parallel_run.1.1, outbreak_parallel_run.1.2,
              outbreak_parallel_run.2)
  ∧ length (individuals quiet_world) < length (individuals outbreak_world)
  ∧ 3 ≠ 0
  ∧ num_vertices two_rooms ≠ 0
  ∧ (0 ≤ 1)%Z
  ∧ simulate_parallel (H := coin) 3 (λ _, in_order) (Some outbreak_parallel_run.1.1)
      3 1 two_rooms quiet_world outbreak_parallel_run.2
    = Undefined.
Proof.
  assert (simulate_parallel (H := coin) 3 (λ _, in_order) None 4 1 one_room
            outbreak_world []
          = Returned (outbreak_parallel_run.1.1, outbreak_parallel_run.1.2,
                      outbreak_parallel_run.2)) as H1 by (vm_compute; reflexivity).
  assert (length (individuals quiet_world) < length (individuals outbreak_world))
    as H2 by (simpl; lia).
  assert (3 ≠ 0) as H3 by lia.
  assert (num_vertices two_rooms ≠ 0) as H4 by (simpl; lia).
  assert (0 ≤ 1)%Z as H5 by lia.
  exact (conj H1 (conj H2 (conj H3 (conj H4 (conj H5
    (simulate_parallel_shorter_vector_overruns (H := coin)
       3 (λ _, in_order) 4 1 one_room outbreak_world _ [] _ _
       3 (λ _, in_order) 3 1 two_rooms quiet_world outbreak_parallel_run.2
       H1 H2 H3 H4 H5)))))).
Defined.

(** X9 on the crowd of six, run with the static [max_index] of 4 that a
    first call on four individuals leaves. *)
Lemma simulate_parallel_ignores_tail_witness :
  simulate_parallel (H := coin) 3 (λ _, in_order)
    (Some {| max_index := 4; chunk := 1 |}) 6 1 one_room crowd_world []
  = Returned (stale_parallel_run.1.1, stale_parallel_run.1.2, stale_parallel_run.2)
  ∧ ((∀ k, (max_index stale_parallel_run.1.1 ≤ Z.of_nat k)%Z →
           individuals stale_parallel_run.1.2 !! k = individuals crowd_world !! k)
     ∧ ∃ new, stale_parallel_run.2 = [] ++ new
              ∧ Forall (λ entry : Z * Z,
                          (entry.1 ≤ Z.max 0 (max_index stale_parallel_run.1.1))%Z)
                       new).
Proof.
  assert (simulate_parallel (H := coin) 3 (λ _, in_order)
            (Some {| max_index := 4; chunk := 1 |}) 6 1 one_room crowd_world []
          = Returned (stale_parallel_run.1.1, stale_parallel_run.1.2,
                      stale_parallel_run.2)) as H1 by (vm_compute; reflexivity).
  exact (conj H1
    (simulate_parallel_ignores_tail (H := coin) 3 (λ _, in_order)
       (Some {| max_index := 4; chunk := 1 |}) 6 1 one_room crowd_world _ [] _ _
       H1)).
Defined.

(** X10 on a pair scanned with an [individual_count] of three. *)
Lemma infection_phase_parallel_count_beyond_vector_witness :
  (Z.of_nat (length (individuals pair_phase)) < 3)%Z
  ∧ infection_phase_parallel (H := coin) 3 [0; 1] pair_phase
    = Returned (pair_scan.1, pair_scan.2)
  ∧ Forall (λ i, ∃ x, individuals pair_scan.1 !! i = Some x ∧ is_infected x = true)
      [0; 1].
Proof.
  assert (Z.of_nat (length (individuals pair_phase)) < 3)%Z as H1 by (simpl; lia).
  assert (infection_phase_parallel (H := coin) 3 [0; 1] pair_phase
          = Returned (pair_scan.1, pair_scan.2)) as H2 by (vm_compute; reflexivity).
  exact (conj H1 (conj H2
    (infection_phase_parallel_count_beyond_vector (H := coin) 3 [0; 1] pair_phase
       _ _ H1 H2))).
Defined.

(** X11 on the outbreak, the second of two iterations first. *)
Lemma advance_phase_parallel_any_order_witness :
  [1; 0] ≡ₚ seq 0 2
  ∧ 2 ≤ length (individuals outbreak_phase)
  ∧ advance_phase_parallel (H := coin) [1; 0] outbreak_phase
    = Returned ({| individuals :=
                     (advance_epoch (H := coin)
                        <$> take 2 (individuals outbreak_phase))
                     ++ drop 2 (individuals outbreak_phase);
                   generator := generator outbreak_phase |},
                (count counted_hit
                   (advance_epoch (H := coin) <$> take 2 (individuals outbreak_phase)),
                 count is_infected
                   (advance_epoch (H := coin) <$> take 2 (individuals outbreak_phase)))).
Proof.
  assert ([1; 0] ≡ₚ seq 0 2) as H1 by apply perm_swap.
  assert (2 ≤ length (individuals outbreak_phase)) as H2 by (simpl; lia).
  exact (conj H1 (conj H2
    (advance_phase_parallel_any_order (H := coin) [1; 0] 2 outbreak_phase H1 H2))).
Defined.

(** X12 on a call with a [total_epochs] of -3. *)
Lemma simulate_serial_epoch_count_witness :
  graph_closed one_room
  ∧ num_vertices one_room ≠ 0
  ∧ on_graph one_room (individuals outbreak_world)
  ∧ (-3 < INT_MAX)%Z
  ∧ (Z.max 0 (-3 + 1) < Z.of_nat 1)%Z
  ∧ ∃ w' stats,
      simulate_serial (H := coin) 1 4 (-3) one_room outbreak_world
      = Returned (w', stats)
      ∧ length stats = Z.to_nat (-3 + 1)
      ∧ ((-3 < 0)%Z → w' = outbreak_world).
Proof.
  pose proof one_room_closed as H1.
  assert (num_vertices one_room ≠ 0) as H2 by (simpl; lia).
  pose proof outbreak_on_one_room as H3.
  assert (-3 < INT_MAX)%Z as H4 by (unfold INT_MAX; lia).
  assert (Z.max 0 (-3 + 1) < Z.of_nat 1)%Z as H5 by lia.
  exact (conj H1 (conj H2 (conj H3 (conj H4 (conj H5
    (simulate_serial_epoch_count (H := coin) 1 4 (-3) one_room outbreak_world
       H1 H2 H3 H4 H5)))))).
Defined.

(** X13 on four individuals in one room, one of them a seed case. *)
Lemma reset_input_then_simulate_witness :
  graph_closed one_room
  ∧ num_vertices one_room ≠ 0
  ∧ (DEFAULT_NUMBER_OF_THREADS ≤ 4)%Z
  ∧ (0 ≤ INITIAL_INFECTED_COUNT (DiseaseSettings := coin) ≤ 4)%Z
  ∧ (0 ≤ 1 ≤ 254)%Z
  ∧ (1 + 1 < Z.of_nat 3)%Z
  ∧ ∃ w,
      reset_input (H := coin) one_room 4 []
      = Returned (Z.of_nat (num_vertices one_room),
                  Z.of_nat (length (m_edges one_room)), one_room, w)
      ∧ (∃ w' stats,
           simulate_serial (H := coin) 3 4 1 one_room w = Returned (w', stats)
           ∧ length stats = Z.to_nat (1 + 1)
           ∧ Forall (λ entry : Z * Z,
                       (INITIAL_INFECTED_COUNT (DiseaseSettings := coin)
                        ≤ entry.1 ≤ 4)%Z
                       ∧ (0 ≤ entry.2 ≤ entry.1)%Z) stats)
      ∧ (∃ st w' new,
           simulate_parallel (H := coin) 3 (λ _, in_order) None 4 1 one_room w []
           = Returned (st, w', [] ++ new)
           ∧ length new = Z.to_nat (1 + 1)
           ∧ Forall (λ entry : Z * Z,
                       (INITIAL_INFECTED_COUNT (DiseaseSettings := coin)
                        ≤ entry.1 ≤ 4)%Z
                       ∧ (0 ≤ entry.2 ≤ entry.1)%Z) new).
Proof.
  pose proof one_room_closed as H1.
  assert (num_vertices one_room ≠ 0) as H2 by (simpl; lia).
  assert (DEFAULT_NUMBER_OF_THREADS ≤ 4)%Z as H3
    by (unfold DEFAULT_NUMBER_OF_THREADS; lia).
  assert (0 ≤ INITIAL_INFECTED_COUNT (DiseaseSettings := coin) ≤ 4)%Z as H4
    by (simpl; lia).
  assert (0 ≤ 1 ≤ 254)%Z as H5 by lia.
  assert (1 + 1 < Z.of_nat 3)%Z as H6 by lia.
  exact (conj H1 (conj H2 (conj H3 (conj H4 (conj H5 (conj H6
    (reset_input_then_simulate (H := coin) one_room 4 1 [] 3 (λ _, in_order) []
       H1 H2 H3 H4 H5 H6))))))).
Defined.

(** X14 on the two sample runs of the outbreak. *)
Lemma individuals_stay_on_graph_witness :
  graph_closed one_room
  ∧ on_graph one_room (individuals outbreak_world)
  ∧ simulate_parallel (H := coin) 3 (λ _, in_order) None 4 1 one_room
      outbreak_world []
    = Returned (outbreak_parallel_run.1.1, outbreak_parallel_run.1.2,
                outbreak_parallel_run.2)
  ∧ simulate_serial (H := coin) 3 4 1 one_room outbreak_world
    = Returned (outbreak_serial_run.1, outbreak_serial_run.2)
  ∧ (on_graph one_room (individuals outbreak_parallel_run.1.2)
     ∧ on_graph one_room (individuals outbreak_serial_run.1)).
Proof.
  pose proof one_room_closed as H1.
  pose proof outbreak_on_one_room as H2.
  assert (simulate_parallel (H := coin) 3 (λ _, in_order) None 4 1 one_room
            outbreak_world []
          = Returned (outbreak_parallel_run.1.1, outbreak_parallel_run.1.2,
                      outbreak_parallel_run.2)) as H3 by (vm_compute; reflexivity).
  assert (simulate_serial (H := coin) 3 4 1 one_room outbreak_world
          = Returned (outbreak_serial_run.1, outbreak_serial_run.2)) as H4
    by (vm_compute; reflexivity).
  exact (conj H1 (conj H2 (conj H3 (conj H4
    (individuals_stay_on_graph (H := coin) 3 (λ _, in_order) None 4 1 one_room
       outbreak_world _ [] _ _ 3 4 1 one_room outbreak_world _ _
       H1 H2 H3 H1 H2 H4))))).
Defined.

(** X15 on the two runs of the calm population, which has two recovered
    individuals. *)
Lemma recovered_stay_recovered_witness :
  simulate_parallel (H := coin) 3 (λ _, second_first) None 4 1 two_rooms
    calm_world []
  = Returned (calm_parallel_run.1.1, calm_parallel_run.1.2, calm_parallel_run.2)
  ∧ simulate_serial (H := coin) 3 4 1 two_rooms calm_world
    = Returned (calm_serial_run.1, calm_serial_run.2)
  ∧ (Forall2 immune (individuals calm_world) (individuals calm_parallel_run.1.2)
     ∧ Forall2 immune (individuals calm_world) (individuals calm_serial_run.1)).
Proof.
  assert (simulate_parallel (H := coin) 3 (λ _, second_first) None 4 1 two_rooms
            calm_world []
          = Returned (calm_parallel_run.1.1, calm_parallel_run.1.2,
                      calm_parallel_run.2)) as H1 by (vm_compute; reflexivity).
  assert (simulate_serial (H := coin) 3 4 1 two_rooms calm_world
          = Returned (calm_serial_run.1, calm_serial_run.2)) as H2
    by (vm_compute; reflexivity).
  exact (conj H1 (conj H2
    (recovered_stay_recovered (H := coin) 3 (λ _, second_first) None 4 1 two_rooms
       calm_world _ [] _ _ 3 4 1 two_rooms calm_world _ _ H1 H2))).
Defined.
